(** * playme: multi-device audio synchronisation

    A shallow embedding of the transport, clock-synchronisation and playout
    pipeline (config.ts, protocol.ts, sync.ts, audio.ts, client.ts,
    server.ts) together with the properties of its specification.

    Conventions of the embedding:
    - a JavaScript [number] holding a time in milliseconds is a rational
      [Q] where the code compares times, keeps them in order or stores
      them: there the times are finite and are taken as the code has
      computed them;
    - what the estimator computes from times is a matter of binary64
      arithmetic: modules [Binary64] and [Sync64] have the numbers and the
      operations of the source, rounding included;
    - a [number] holding a counter, a sequence number or a size is a [Z]
      (or a [nat] where it indexes a list);
    - [Uint8Array] is [list byte];
    - every call of [now()] is an explicit argument of the function that
      makes it, in the order the calls are made;
    - [console.log] and friends have no effect on the state and are left
      out. *)

From Stdlib Require Import ZArith QArith Qabs Qminmax Lia Lqa.
From Stdlib Require SpecFloat.
From Stdlib.Strings Require Import Byte.
From stdpp Require Import gmap strings list sorting pretty.

#[global] Instance byte_eq_decision : EqDecision byte := Byte.byte_eq_dec.

(** Strict comparison of two times, [a < b] of the source. *)
Definition Qlt_bool (a b : Q) : bool := negb (Qle_bool b a).

(* ===================================================================== *)
(** * config.ts *)
(* ===================================================================== *)
Module Config.

Record Config := {
  sampleRate : Z;
  channels : Z;
  bitDepth : Z;
  chunkDurationMs : Z;
  defaultPort : Z;
  syncIntervalMs : Z;
  syncSamples : nat;
  targetBufferMs : Z;
  minBufferMs : Z;
  maxBufferMs : Z;
  maxDriftMs : Z;
  driftCorrectionSamples : Z
}.

Definition CONFIG : Config := {|
  sampleRate := 48000;
  channels := 2;
  bitDepth := 16;
  chunkDurationMs := 20;
  defaultPort := 8765;
  syncIntervalMs := 1000;
  syncSamples := 5;
  targetBufferMs := 60;
  minBufferMs := 30;
  maxBufferMs := 200;
  maxDriftMs := 5;
  driftCorrectionSamples := 1
|}.

(** [get samplesPerChunk()]: [Math.floor((sampleRate * chunkDurationMs) / 1000)]. *)
Definition samplesPerChunk (c : Config) : Z :=
  (sampleRate c * chunkDurationMs c) / 1000.

(** [get bytesPerChunk()]: [samplesPerChunk * channels * (bitDepth / 8)];
    the quotient is exact for the configured bit depth. *)
Definition bytesPerChunk (c : Config) : Z :=
  samplesPerChunk c * channels c * (bitDepth c / 8).

End Config.

(** What a call that can throw comes to: a value, an exception, or no
    end within the fuel given to the model of its loop. *)
Inductive Outcome (A : Type) :=
| Returned (a : A)
| Thrown
| Unfinished.
Arguments Returned {A} a.
Arguments Thrown {A}.
Arguments Unfinished {A}.

(* ===================================================================== *)
(** * protocol.ts: the message union *)
(* ===================================================================== *)
Module Protocol.

Inductive MessageType :=
| SYNC_REQUEST | SYNC_RESPONSE | AUDIO_CHUNK | CLIENT_READY | SERVER_INFO | ERROR.

(** The string each member of the enum stands for on the wire. *)
Definition tag (t : MessageType) : string :=
  match t with
  | SYNC_REQUEST => "sync_request"
  | SYNC_RESPONSE => "sync_response"
  | AUDIO_CHUNK => "audio_chunk"
  | CLIENT_READY => "client_ready"
  | SERVER_INFO => "server_info"
  | ERROR => "error"
  end.

(** [SyncRequest.t1]; the name [t1] is kept for the field of the response. *)
Record SyncRequest := { req_t1 : Q }.
Record SyncResponse := { t1 : Q; t2 : Q; t3 : Q }.
Record AudioChunk := { timestamp : Q; sequence : Z; data : list byte }.
Record ClientReady := { clientId : string }.
Record ServerInfo := {
  sampleRate : Z;
  channels : Z;
  bitDepth : Z;
  chunkDurationMs : Z;
  serverStartTime : Q
}.
Record ErrorMessage := { message : string }.

(** [Message] is the discriminated union of the six interfaces.  The
    value [decodeMessage] returns is only cast to it, so a handler can
    also meet an object whose [type] is none of the six: [MOther] keeps
    that [type]. *)
Inductive Message :=
| MSyncRequest (m : SyncRequest)
| MSyncResponse (m : SyncResponse)
| MAudioChunk (m : AudioChunk)
| MClientReady (m : ClientReady)
| MServerInfo (m : ServerInfo)
| MError (m : ErrorMessage)
| MOther (type : string).

(** [encodeMessage] and [decodeMessage] hand the message to [encode] and
    [decode] of the MessagePack library, which is not part of the
    repository: the decoder is a parameter, and [Obj] is the type of the
    objects it returns.  The cast [as Message] does nothing at run time. *)
Definition decodeMessage {Obj : Type} (decode : list byte -> Outcome Obj) (data : list byte)
    : Outcome Obj :=
  decode data.

End Protocol.

(* ===================================================================== *)
(** * sync.ts: the clock-offset estimator *)
(* ===================================================================== *)

(** The estimator with its times read as rationals.  This module is the
    model for the flags, the window of samples and the order of times;
    the numbers the source computes (round-trip time, offsets, drift) are
    binary64 results and are modelled in [Sync64] below. *)
Module Sync.
Import Protocol.
Local Open Scope Q_scope.

Module SyncSample.
Record t := { offset : Q; rtt : Q; timestamp : Q }.
End SyncSample.
Abbreviation SyncSample := SyncSample.t.

(** [drift] is [None] when the quotient of [calculateDrift] has a zero
    denominator, where the source obtains a non-finite number. *)
Record SyncState := {
  offset : Q;
  roundTripTime : Q;
  drift : option Q;
  samples : list SyncSample;
  lastSyncTime : Q;
  isSynced : bool
}.

Definition createSyncState : SyncState := {|
  offset := 0;
  roundTripTime := 0;
  drift := Some 0;
  samples := [];
  lastSyncTime := 0;
  isSynced := false
|}.

(** [processSyncRequest]: the response echoes [t1] and carries the two
    readings of the source clock. *)
Definition processSyncRequest (request : SyncRequest) (now_t2 now_t3 : Q) : SyncResponse :=
  {| t1 := req_t1 request; t2 := now_t2; t3 := now_t3 |}.

(** The loop of [calculateWeightedOffset]: accumulates [totalWeight] and
    [weightedSum]. *)
Fixpoint weightedLoop (samples : list SyncSample) (totalWeight weightedSum : Q) : Q * Q :=
  match samples with
  | [] => (totalWeight, weightedSum)
  | sample :: rest =>
      let weight := 1 / Qmax (SyncSample.rtt sample) (1 # 10) in
      weightedLoop rest (totalWeight + weight) (weightedSum + SyncSample.offset sample * weight)
  end.

Definition calculateWeightedOffset (samples : list SyncSample) : Q :=
  match samples with
  | [] => 0
  | [firstSample] => SyncSample.offset firstSample
  | _ =>
      let '(totalWeight, weightedSum) := weightedLoop samples 0 0 in
      weightedSum / totalWeight
  end.

(** The loop of [calculateDrift]: the four running sums. *)
Fixpoint driftLoop (samples : list SyncSample) (sumX sumY sumXY sumX2 : Q) : Q * Q * Q * Q :=
  match samples with
  | [] => (sumX, sumY, sumXY, sumX2)
  | sample :: rest =>
      let x := SyncSample.timestamp sample in
      let y := SyncSample.offset sample in
      driftLoop rest (sumX + x) (sumY + y) (sumXY + x * y) (sumX2 + x * x)
  end.

Definition calculateDrift (samples : list SyncSample) : option Q :=
  if (length samples <? 2)%nat then Some 0
  else
    let n := inject_Z (Z.of_nat (length samples)) in
    let '(sumX, sumY, sumXY, sumX2) := driftLoop samples 0 0 0 0 in
    let den := n * sumX2 - sumX * sumX in
    if Qeq_bool den 0 then None
    else Some ((n * sumXY - sumX * sumY) / den * 1000).

(** [xs.slice(-n)]: the last [n] elements. *)
Definition slice_last {A} (n : nat) (xs : list A) : list A :=
  drop (length xs - n) xs.

(** [processSyncResponse]; [now_t4], [now_sample] and [now_last] are the
    three readings of [now()], in program order. *)
Definition processSyncResponse (response : SyncResponse) (state : SyncState)
    (now_t4 now_sample now_last : Q) : SyncState :=
  let t4 := now_t4 in
  let rtt := t4 - t1 response - (t3 response - t2 response) in
  let offset := (t2 response - t1 response + (t3 response - t4)) / 2 in
  let sample := {| SyncSample.offset := offset; SyncSample.rtt := rtt;
                   SyncSample.timestamp := now_sample |} in
  let samples := slice_last (Config.syncSamples Config.CONFIG) (samples state ++ [sample]) in
  {| offset := calculateWeightedOffset samples;
     roundTripTime := rtt;
     drift := calculateDrift samples;
     samples := samples;
     lastSyncTime := now_last;
     isSynced := true |}.

Definition toServerTime (localTime : Q) (state : SyncState) : Q :=
  localTime + offset state.

Definition toLocalTime (serverTime : Q) (state : SyncState) : Q :=
  serverTime - offset state.

Definition getPlayTime (chunkServerTimestamp : Q) (state : SyncState) (bufferMs : Q) : Q :=
  toLocalTime chunkServerTimestamp state + bufferMs.


End Sync.

(* ===================================================================== *)
(** * audio.ts: the framer *)
(* ===================================================================== *)
Module Audio.

(** The inner loop of [chunkStream]:
    [while (buffer.length >= chunkSize) { yield buffer.slice(0, chunkSize);
    buffer = buffer.slice(chunkSize) }].  It returns the blocks yielded
    and the buffer left; [None] when [fuel] iterations did not end it. *)
Fixpoint sliceLoop (fuel : nat) (buffer : list byte) (chunkSize : nat)
    : option (list (list byte) * list byte) :=
  if (chunkSize <=? length buffer)%nat then
    match fuel with
    | O => None
    | S fuel' =>
        match sliceLoop fuel' (drop chunkSize buffer) chunkSize with
        | Some (blocks, rest) => Some (take chunkSize buffer :: blocks, rest)
        | None => None
        end
    end
  else Some ([], buffer).

(** The outer loop of [chunkStream] over the values [reader.read()]
    delivers before [done]; [buffer] is the carry-over. *)
Fixpoint readLoop (reads : list (list byte)) (buffer : list byte) (chunkSize : nat)
    : option (list (list byte)) :=
  match reads with
  | [] => Some (if (0 <? length buffer)%nat then [buffer] else [])
  | value :: reads' =>
      let newBuffer := buffer ++ value in
      match sliceLoop (length newBuffer) newBuffer chunkSize with
      | Some (blocks, rest) =>
          match readLoop reads' rest chunkSize with
          | Some blocks' => Some (blocks ++ blocks')
          | None => None
          end
      | None => None
      end
  end.

(** [chunkStream(stream, chunkSize)]: all the blocks the generator yields
    for a stream that delivers [reads] and then ends. *)
Definition chunkStream (reads : list (list byte)) (chunkSize : nat)
    : option (list (list byte)) :=
  readLoop reads [] chunkSize.

End Audio.

(* ===================================================================== *)
(** * client.ts: the sink *)
(* ===================================================================== *)
Module Client.
Import Protocol Sync.
Local Open Scope Q_scope.

Record BufferedChunk := { chunk : AudioChunk; playTime : Q }.

Inductive ReadyState := CONNECTING | OPEN | CLOSING | CLOSED.

(** The socket of the sink: its [readyState] and the messages handed to
    [send] (each stands for its [encodeMessage] bytes), oldest first. *)
Record WebSocket := { readyState : ReadyState; sent : list Message }.

(** The playback process: what [write] was given, and whether [stop] ran. *)
Record AudioPlayback := { written : list (list byte); stopped : bool }.

Record ClientState := {
  ws : option WebSocket;
  sync : SyncState;
  buffer : list BufferedChunk;
  playback : option AudioPlayback;
  serverInfo : option ServerInfo;
  isConnected : bool;
  isPlaying : bool;
  lastSequence : Z;
  droppedChunks : Z;
  lateChunks : Z;
  pendingSyncT1 : option Q;
  outputDevice : option string
}.

(** The state [startClient] builds, with the socket it opens. *)
Definition initialState (outputDevice : option string) : ClientState := {|
  ws := Some {| readyState := CONNECTING; sent := [] |};
  sync := createSyncState;
  buffer := [];
  playback := None;
  serverInfo := None;
  isConnected := false;
  isPlaying := false;
  lastSequence := -1;
  droppedChunks := 0;
  lateChunks := 0;
  pendingSyncT1 := None;
  outputDevice := outputDevice
|}.

Definition set_ws (v : option WebSocket) (s : ClientState) : ClientState :=
  {| ws := v; sync := sync s; buffer := buffer s; playback := playback s;
     serverInfo := serverInfo s; isConnected := isConnected s; isPlaying := isPlaying s;
     lastSequence := lastSequence s; droppedChunks := droppedChunks s;
     lateChunks := lateChunks s; pendingSyncT1 := pendingSyncT1 s;
     outputDevice := outputDevice s |}.

Definition set_sync (v : SyncState) (s : ClientState) : ClientState :=
  {| ws := ws s; sync := v; buffer := buffer s; playback := playback s;
     serverInfo := serverInfo s; isConnected := isConnected s; isPlaying := isPlaying s;
     lastSequence := lastSequence s; droppedChunks := droppedChunks s;
     lateChunks := lateChunks s; pendingSyncT1 := pendingSyncT1 s;
     outputDevice := outputDevice s |}.

Definition set_buffer (v : list BufferedChunk) (s : ClientState) : ClientState :=
  {| ws := ws s; sync := sync s; buffer := v; playback := playback s;
     serverInfo := serverInfo s; isConnected := isConnected s; isPlaying := isPlaying s;
     lastSequence := lastSequence s; droppedChunks := droppedChunks s;
     lateChunks := lateChunks s; pendingSyncT1 := pendingSyncT1 s;
     outputDevice := outputDevice s |}.

Definition set_serverInfo (v : option ServerInfo) (s : ClientState) : ClientState :=
  {| ws := ws s; sync := sync s; buffer := buffer s; playback := playback s;
     serverInfo := v; isConnected := isConnected s; isPlaying := isPlaying s;
     lastSequence := lastSequence s; droppedChunks := droppedChunks s;
     lateChunks := lateChunks s; pendingSyncT1 := pendingSyncT1 s;
     outputDevice := outputDevice s |}.

Definition set_lastSequence (v : Z) (s : ClientState) : ClientState :=
  {| ws := ws s; sync := sync s; buffer := buffer s; playback := playback s;
     serverInfo := serverInfo s; isConnected := isConnected s; isPlaying := isPlaying s;
     lastSequence := v; droppedChunks := droppedChunks s;
     lateChunks := lateChunks s; pendingSyncT1 := pendingSyncT1 s;
     outputDevice := outputDevice s |}.

Definition set_droppedChunks (v : Z) (s : ClientState) : ClientState :=
  {| ws := ws s; sync := sync s; buffer := buffer s; playback := playback s;
     serverInfo := serverInfo s; isConnected := isConnected s; isPlaying := isPlaying s;
     lastSequence := lastSequence s; droppedChunks := v;
     lateChunks := lateChunks s; pendingSyncT1 := pendingSyncT1 s;
     outputDevice := outputDevice s |}.

Definition set_lateChunks (v : Z) (s : ClientState) : ClientState :=
  {| ws := ws s; sync := sync s; buffer := buffer s; playback := playback s;
     serverInfo := serverInfo s; isConnected := isConnected s; isPlaying := isPlaying s;
     lastSequence := lastSequence s; droppedChunks := droppedChunks s;
     lateChunks := v; pendingSyncT1 := pendingSyncT1 s;
     outputDevice := outputDevice s |}.

Definition set_isConnected (v : bool) (s : ClientState) : ClientState :=
  {| ws := ws s; sync := sync s; buffer := buffer s; playback := playback s;
     serverInfo := serverInfo s; isConnected := v; isPlaying := isPlaying s;
     lastSequence := lastSequence s; droppedChunks := droppedChunks s;
     lateChunks := lateChunks s; pendingSyncT1 := pendingSyncT1 s;
     outputDevice := outputDevice s |}.

Definition set_playback (v : option AudioPlayback) (s : ClientState) : ClientState :=
  {| ws := ws s; sync := sync s; buffer := buffer s; playback := v;
     serverInfo := serverInfo s; isConnected := isConnected s; isPlaying := isPlaying s;
     lastSequence := lastSequence s; droppedChunks := droppedChunks s;
     lateChunks := lateChunks s; pendingSyncT1 := pendingSyncT1 s;
     outputDevice := outputDevice s |}.

Definition set_pendingSyncT1 (v : option Q) (s : ClientState) : ClientState :=
  {| ws := ws s; sync := sync s; buffer := buffer s; playback := playback s;
     serverInfo := serverInfo s; isConnected := isConnected s; isPlaying := isPlaying s;
     lastSequence := lastSequence s; droppedChunks := droppedChunks s;
     lateChunks := lateChunks s; pendingSyncT1 := v;
     outputDevice := outputDevice s |}.

(** [n >>> 1] on a non-negative integer [n]: the operand is first taken
    modulo 2^32. *)
Definition ushr1 (n : Z) : Z := Z.shiftr (n mod 2 ^ 32) 1.

(** The binary search of [insertSorted], from the loop variables [low]
    and [high]; [buffer[mid]] beyond the end is [undefined], which takes
    the else branch.  [None] when [fuel] iterations did not end it. *)
Fixpoint search (fuel : nat) (buffer : list BufferedChunk) (item : BufferedChunk)
    (low high : nat) : option nat :=
  if (low <? high)%nat then
    match fuel with
    | O => None
    | S fuel' =>
        let mid := Z.to_nat (ushr1 (Z.of_nat (low + high))) in
        match buffer !! mid with
        | Some midItem =>
            if Qlt_bool (playTime midItem) (playTime item)
            then search fuel' buffer item (mid + 1) high
            else search fuel' buffer item low mid
        | None => search fuel' buffer item low mid
        end
    end
  else Some low.

(** [buffer.splice(low, 0, item)]. *)
Definition splice_in {A} (low : nat) (item : A) (xs : list A) : list A :=
  take low xs ++ item :: drop low xs.

Definition insertSorted (buffer : list BufferedChunk) (item : BufferedChunk)
    : option (list BufferedChunk) :=
  match search (length buffer) buffer item 0 (length buffer) with
  | Some low => Some (splice_in low item buffer)
  | None => None
  end.

(** The overflow loop at the end of [handleAudioChunk]: the buffer left
    and the counter of dropped chunks. *)
Fixpoint trimLoop (buffer : list BufferedChunk) (droppedChunks : Z)
    : list BufferedChunk * Z :=
  match buffer with
  | [] => (buffer, droppedChunks)
  | firstChunk :: rest =>
      match last buffer with
      | None => (buffer, droppedChunks)
      | Some lastChunk =>
          if Qle_bool (playTime lastChunk - playTime firstChunk)
                      (inject_Z (Config.maxBufferMs Config.CONFIG))
          then (buffer, droppedChunks)
          else trimLoop rest (droppedChunks + 1)
      end
  end.

(** The sequence-gap accounting at the head of [handleAudioChunk]. *)
Definition accountGap (chunk : AudioChunk) (state : ClientState) : ClientState :=
  if (0 <=? lastSequence state)%Z && negb (sequence chunk =? lastSequence state + 1)%Z
  then
    let gap := (sequence chunk - lastSequence state - 1)%Z in
    if (0 <? gap)%Z then set_droppedChunks (droppedChunks state + gap)%Z state else state
  else state.

(** [handleAudioChunk(chunk, state)]; [currentTime] is its reading of
    [now()].  [None] only when the search of [insertSorted] is. *)
Definition handleAudioChunk (chunk : AudioChunk) (state : ClientState) (currentTime : Q)
    : option ClientState :=
  if negb (isSynced (sync state)) then Some state
  else
    let state := accountGap chunk state in
    let state := set_lastSequence (sequence chunk) state in
    let playTime :=
      toLocalTime (timestamp chunk) (sync state)
      + inject_Z (Config.targetBufferMs Config.CONFIG) in
    if Qlt_bool playTime currentTime
    then Some (set_lateChunks (lateChunks state + 1)%Z state)
    else
      match insertSorted (buffer state) {| chunk := chunk; playTime := playTime |} with
      | None => None
      | Some buffer' =>
          let '(buffer'', dropped) := trimLoop buffer' (droppedChunks state) in
          Some (set_droppedChunks dropped (set_buffer buffer'' state))
      end.

(** [ws.send(m)] on the socket of the state. *)
Definition ws_send (m : Message) (w : WebSocket) : WebSocket :=
  {| readyState := readyState w; sent := sent w ++ [m] |}.

Definition isOpen (w : WebSocket) : bool :=
  match readyState w with OPEN => true | _ => false end.

Definition performSync (state : ClientState) (now_t1 : Q) : ClientState :=
  match ws state with
  | Some w =>
      if isOpen w
      then set_ws (Some (ws_send (MSyncRequest {| req_t1 := now_t1 |}) w))
                  (set_pendingSyncT1 (Some now_t1) state)
      else state
  | None => state
  end.

Definition sendReady (state : ClientState) : ClientState :=
  match ws state with
  | Some w =>
      if isOpen w
      then set_ws (Some (ws_send (MClientReady {| clientId := "client" |}) w)) state
      else state
  | None => state
  end.

(** [handleMessage(message, state)]; [now1 now2 now3] are the readings
    of [now()] a branch makes, in order (the chunk branch makes one, the
    sync branch three). *)
Definition handleMessage (message : Message) (state : ClientState) (now1 now2 now3 : Q)
    : option ClientState :=
  match message with
  | MServerInfo info => Some (set_serverInfo (Some info) state)
  | MSyncResponse response =>
      match pendingSyncT1 state with
      | Some _ =>
          let state := set_sync (processSyncResponse response (sync state) now1 now2 now3) state in
          let state := set_pendingSyncT1 None state in
          if isSynced (sync state) && negb (isPlaying state)
          then Some (sendReady state)
          else Some state
      | None => Some state
      end
  | MAudioChunk chunk => handleAudioChunk chunk state now1
  | _ => Some state
  end.

(** [cleanup(state)]: [state.playback?.stop()] and [state.ws?.close()]. *)
Definition cleanup (state : ClientState) : ClientState :=
  let state :=
    match playback state with
    | Some p => set_playback (Some {| written := written p; stopped := true |}) state
    | None => state
    end in
  match ws state with
  | Some w =>
      let rs := match readyState w with CLOSED => CLOSED | _ => CLOSING end in
      set_ws (Some {| readyState := rs; sent := sent w |}) state
  | None => state
  end.

(** [ws.onopen], once the socket has become [OPEN]. *)
Definition onopen (state : ClientState) (now_t1 : Q) : ClientState :=
  let state :=
    match ws state with
    | Some w => set_ws (Some {| readyState := OPEN; sent := sent w |}) state
    | None => state
    end in
  performSync (set_isConnected true state) now_t1.

(** [ws.onclose]. *)
Definition onclose (state : ClientState) : ClientState :=
  cleanup (set_isConnected false state).

(** [ws.onmessage] for a sequence of decoded messages, each with its
    clock readings. *)
Fixpoint handleMessages (inputs : list (Message * (Q * Q * Q))) (state : ClientState)
    : option ClientState :=
  match inputs with
  | [] => Some state
  | (message, (now1, now2, now3)) :: rest =>
      match handleMessage message state now1 now2 now3 with
      | Some state' => handleMessages rest state'
      | None => None
      end
  end.

End Client.

(* ===================================================================== *)
(** * server.ts: the source *)
(* ===================================================================== *)
Module Server.
Import Protocol Sync.

(** A socket is named by its [data.id]; the [ws] of a client record is
    the socket it was opened on. *)
Record Client := { id : string; ws : string; isReady : bool }.

(** The capture process: whether [stop] ran. *)
Record AudioCapture := { stopped : bool }.

Record ServerState := {
  clients : gmap string Client;
  capture : option AudioCapture;
  sequence : Z;
  serverStartTime : Q;
  isRunning : bool
}.

(** What a handler hands to [send]: the socket and the message (which
    stands for its [encodeMessage] bytes), oldest first. *)
Definition Sends := list (string * Message).

Definition initialState (now_ : Q) : ServerState := {|
  clients := ∅;
  capture := None;
  sequence := 0;
  serverStartTime := now_;
  isRunning := true
|}.

Definition set_clients (v : gmap string Client) (s : ServerState) : ServerState :=
  {| clients := v; capture := capture s; sequence := sequence s;
     serverStartTime := serverStartTime s; isRunning := isRunning s |}.

Definition set_sequence (v : Z) (s : ServerState) : ServerState :=
  {| clients := clients s; capture := capture s; sequence := v;
     serverStartTime := serverStartTime s; isRunning := isRunning s |}.

Definition set_capture (v : option AudioCapture) (s : ServerState) : ServerState :=
  {| clients := clients s; capture := v; sequence := sequence s;
     serverStartTime := serverStartTime s; isRunning := isRunning s |}.

Definition set_isRunning (v : bool) (s : ServerState) : ServerState :=
  {| clients := clients s; capture := capture s; sequence := sequence s;
     serverStartTime := serverStartTime s; isRunning := v |}.

(** [websocket.open(ws)]. *)
Definition open (wsId : string) (state : ServerState) : ServerState * Sends :=
  let client := {| id := wsId; ws := wsId; isReady := false |} in
  let serverInfo := {|
    sampleRate := Config.sampleRate Config.CONFIG;
    channels := Config.channels Config.CONFIG;
    bitDepth := Config.bitDepth Config.CONFIG;
    chunkDurationMs := Config.chunkDurationMs Config.CONFIG;
    Protocol.serverStartTime := serverStartTime state |} in
  (set_clients (<[wsId := client]> (clients state)) state, [(wsId, MServerInfo serverInfo)]).

(** [websocket.close(ws)]. *)
Definition close (wsId : string) (state : ServerState) : ServerState :=
  set_clients (delete wsId (clients state)) state.

(** [handleMessage(ws, message, state)]; [now_t2 now_t3] are the readings
    [processSyncRequest] makes. *)
Definition handleMessage (wsId : string) (message : Message) (state : ServerState)
    (now_t2 now_t3 : Q) : ServerState * Sends :=
  match message with
  | MSyncRequest request =>
      (state, [(wsId, MSyncResponse (processSyncRequest request now_t2 now_t3))])
  | MClientReady _ =>
      match clients state !! wsId with
      | Some client =>
          (set_clients
             (<[wsId := {| id := id client; ws := ws client; isReady := true |}]> (clients state))
             state, [])
      | None => (state, [])
      end
  | _ => (state, [])
  end.

(** The body of the [for await] loop of [processAudioStream] past the
    [isRunning] test: stamp the block, and send it to the ready clients. *)
Definition broadcast (pcmData : list byte) (state : ServerState) (now_ : Q)
    : ServerState * Sends :=
  let chunk := {| timestamp := now_; Protocol.sequence := sequence state; data := pcmData |} in
  let state := set_sequence (sequence state + 1) state in
  let encoded := MAudioChunk chunk in
  (state,
   omap (fun client => if isReady client then Some (ws client, encoded) else None)
        (map_to_list (clients state)).*2).

(** [state.capture?.stop()]. *)
Definition stopCapture (state : ServerState) : ServerState :=
  match capture state with
  | Some _ => set_capture (Some {| stopped := true |}) state
  | None => state
  end.

(** The [for await] loop over the blocks the framer yields, when no
    connection event falls between two blocks; the [k]-th iteration reads
    [clock k]. *)
Fixpoint streamLoop (blocks : list (list byte)) (state : ServerState)
    (clock : nat -> Q) (k : nat) : ServerState * Sends :=
  match blocks with
  | [] => (state, [])
  | pcmData :: rest =>
      if negb (isRunning state) then (state, [])
      else
        let '(state1, out1) := broadcast pcmData state (clock k) in
        let '(state2, out2) := streamLoop rest state1 clock (S k) in
        (state2, out1 ++ out2)
  end.

(** [processAudioStream(state)] on a capture stream that delivers [reads]
    and ends.  [None] when the framer does not come to an end. *)
Definition processAudioStream (state : ServerState) (reads : list (list byte))
    (clock : nat -> Q) : option (ServerState * Sends) :=
  match capture state with
  | None => Some (state, [])
  | Some _ =>
      let chunkSize := Z.to_nat (Config.bytesPerChunk Config.CONFIG) in
      match Audio.chunkStream reads chunkSize with
      | Some blocks =>
          let '(state', out) := streamLoop blocks state clock 0 in
          Some (stopCapture state', out)
      | None => None
      end
  end.

(** The events of the source, as the runtime delivers them one at a time. *)
Inductive Event :=
| EOpen (wsId : string)
| EMessage (wsId : string) (message : Message) (now_t2 now_t3 : Q)
| EClose (wsId : string)
| EBlock (pcmData : list byte) (now_ : Q).

Definition step (ev : Event) (state : ServerState) : ServerState * Sends :=
  match ev with
  | EOpen wsId => open wsId state
  | EMessage wsId message now_t2 now_t3 => handleMessage wsId message state now_t2 now_t3
  | EClose wsId => (close wsId state, [])
  | EBlock pcmData now_ =>
      if isRunning state then broadcast pcmData state now_ else (state, [])
  end.

Fixpoint run (evs : list Event) (state : ServerState) : ServerState * Sends :=
  match evs with
  | [] => (state, [])
  | ev :: rest =>
      let '(state1, out1) := step ev state in
      let '(state2, out2) := run rest state1 in
      (state2, out1 ++ out2)
  end.

End Server.

(* ===================================================================== *)
(** * The web sink: the MessagePack reader of its page script *)
(* ===================================================================== *)
Module WebClient.

#[local] Set Warnings "-register-all".

(** The values [decodeMsgPack] builds.  A number read from a float64 is
    kept as its 8 bytes, a string as its UTF-8 bytes, and an object as the
    assignments [obj[key] = value] in the order they are made. *)
Inductive Value :=
| VNull
| VNumber (n : Z)
| VFloat64 (bits : list byte)
| VString (utf8 : list byte)
| VBytes (bytes : list byte)
| VObject (assignments : list (Value * Value)).

Definition byteValue (b : byte) : Z := Z.of_N (Byte.to_N b).

(** [view.getUint8(offset)]: throws a [RangeError] past the end. *)
Definition getUint8 (data : list byte) (offset : nat) : Outcome Z :=
  match data !! offset with
  | Some b => Returned (byteValue b)
  | None => Thrown
  end.

(** The big-endian number of a run of bytes. *)
Definition bigEndian (bs : list byte) : Z :=
  fold_left (fun acc b => (acc * 256 + byteValue b)%Z) bs 0%Z.

(** [view.getUint16(offset)] and [view.getUint32(offset)], for [width] 2
    and 4. *)
Definition getUint (width : nat) (data : list byte) (offset : nat) : Outcome Z :=
  if (offset + width <=? length data)%nat
  then Returned (bigEndian (take width (drop offset data)))
  else Thrown.

(** [view.getFloat64(offset)]. *)
Definition getFloat64 (data : list byte) (offset : nat) : Outcome (list byte) :=
  if (offset + 8 <=? length data)%nat
  then Returned (take 8 (drop offset data))
  else Thrown.

(** [data.subarray(a, b)] and [data.slice(a, b)]: both stop at the end of
    the data. *)
Definition subarray (data : list byte) (a b : nat) : list byte :=
  take (b - a) (drop a data).

Definition bindOutcome {A B} (x : Outcome A) (f : A -> Outcome B) : Outcome B :=
  match x with
  | Returned a => f a
  | Thrown => Thrown
  | Unfinished => Unfinished
  end.

Notation "'let*' x ':=' c1 'in' c2" := (bindOutcome c1 (fun x => c2))
  (at level 10, x name, c1 at level 100, c2 at level 200).

(** The inner function [read] of [decodeMsgPack], from [offset]; it returns
    the value and the offset behind it.  [fuel] bounds the depth of nested
    maps. *)
Fixpoint read (fuel : nat) (data : list byte) (offset : nat) : Outcome (Value * nat) :=
  match fuel with
  | O => Unfinished
  | S fuel' =>
      let entries :=
        fix entries (len : nat) (offset : nat) (obj : list (Value * Value))
            : Outcome (Value * nat) :=
          match len with
          | O => Returned (VObject obj, offset)
          | S len' =>
              let* kv := read fuel' data offset in
              let* vv := read fuel' data (snd kv) in
              entries len' (snd vv) (obj ++ [(fst kv, fst vv)])
          end in
      let* byte := getUint8 data offset in
      let offset := S offset in
      if (Z.land byte 0xf0 =? 0x80)%Z then
        entries (Z.to_nat (Z.land byte 0x0f)) offset []
      else if (byte =? 0xde)%Z then
        let* len := getUint 2 data offset in
        entries (Z.to_nat len) (offset + 2)%nat []
      else if (Z.land byte 0xe0 =? 0xa0)%Z then
        let len := Z.to_nat (Z.land byte 0x1f) in
        Returned (VString (subarray data offset (offset + len)), (offset + len)%nat)
      else if (byte =? 0xd9)%Z then
        let* len := getUint8 data offset in
        let offset := S offset in
        let len := Z.to_nat len in
        Returned (VString (subarray data offset (offset + len)), (offset + len)%nat)
      else if (Z.land byte 0x80 =? 0)%Z then
        Returned (VNumber byte, offset)
      else if (byte =? 0xcc)%Z then
        let* val := getUint8 data offset in
        Returned (VNumber val, S offset)
      else if (byte =? 0xcd)%Z then
        let* val := getUint 2 data offset in
        Returned (VNumber val, (offset + 2)%nat)
      else if (byte =? 0xce)%Z then
        let* val := getUint 4 data offset in
        Returned (VNumber val, (offset + 4)%nat)
      else if (byte =? 0xcb)%Z then
        let* val := getFloat64 data offset in
        Returned (VFloat64 val, (offset + 8)%nat)
      else if (byte =? 0xc4)%Z then
        let* len := getUint8 data offset in
        let offset := S offset in
        let len := Z.to_nat len in
        Returned (VBytes (subarray data offset (offset + len)), (offset + len)%nat)
      else if (byte =? 0xc5)%Z then
        let* len := getUint 2 data offset in
        let offset := (offset + 2)%nat in
        let len := Z.to_nat len in
        Returned (VBytes (subarray data offset (offset + len)), (offset + len)%nat)
      else if (byte =? 0xc6)%Z then
        let* len := getUint 4 data offset in
        let offset := (offset + 4)%nat in
        let len := Z.to_nat len in
        Returned (VBytes (subarray data offset (offset + len)), (offset + len)%nat)
      else if (Z.land byte 0xe0 =? 0xe0)%Z then
        Returned (VNumber (byte - 256), offset)
      else
        Returned (VNull, offset)
  end.

(** [decodeMsgPack(data)]: the first value of the data.  A value nested
    deeper than the data is long cannot be read without running past its
    end, so the fuel is the length and one. *)
Definition decodeMsgPack (data : list byte) : Outcome Value :=
  let* r := read (S (length data)) data 0 in
  Returned (fst r).

(** [msg.type] and the like: the value last assigned under the name. *)
Fixpoint property (name : list byte) (assignments : list (Value * Value)) : option Value :=
  match assignments with
  | [] => None
  | (VString key, value) :: rest =>
      match property name rest with
      | Some later => Some later
      | None => if decide (key = name) then Some value else None
      end
  | _ :: rest => property name rest
  end.

End WebClient.

(* ===================================================================== *)
(** * client.ts: the playout loop *)
(* ===================================================================== *)
Module ClientPlayback.
Import Protocol Sync Client.
Local Open Scope Q_scope.

Definition set_isPlaying (v : bool) (s : ClientState) : ClientState :=
  {| ws := ws s; sync := sync s; buffer := buffer s; playback := playback s;
     serverInfo := serverInfo s; isConnected := isConnected s; isPlaying := v;
     lastSequence := lastSequence s; droppedChunks := droppedChunks s;
     lateChunks := lateChunks s; pendingSyncT1 := pendingSyncT1 s;
     outputDevice := outputDevice s |}.

(** The test of the first loop of [playbackLoop]:
    [!state.sync.isSynced || state.buffer.length < 2]. *)
Definition waiting (state : ClientState) : bool :=
  negb (isSynced (sync state)) || (length (buffer state) <? 2)%nat.

(** What follows that loop: [state.playback = startPlayback(...)] and
    [state.isPlaying = true]. *)
Definition startPlaying (state : ClientState) : ClientState :=
  set_isPlaying true (set_playback (Some {| written := []; stopped := false |}) state).

(** [Math.max(1, Math.floor(CONFIG.chunkDurationMs / 4))]. *)
Definition pollIntervalMs : Z :=
  Z.max 1 (Config.chunkDurationMs Config.CONFIG / 4).

(** [playback.write(data)] when it does not throw. *)
Definition write (blockData : list byte) (p : AudioPlayback) : AudioPlayback :=
  {| written := written p ++ [blockData]; stopped := stopped p |}.

(** The inner loop of a pass of [playbackLoop], when no message is handled
    while it runs; [currentTime] is the reading of [now()] the pass starts
    with.  [throws k] tells whether the [k]-th call of [write] of the pass
    throws (the [catch] then leaves the loop, the frame already shifted).
    It returns the buffer left, the playback and [chunksWritten]. *)
Fixpoint drainLoop (buffer : list BufferedChunk) (currentTime : Q)
    (playback : option AudioPlayback) (throws : nat -> bool) (attempt chunksWritten : nat)
    : list BufferedChunk * option AudioPlayback * nat :=
  match buffer with
  | [] => (buffer, playback, chunksWritten)
  | firstChunk :: rest =>
      if Qlt_bool currentTime (playTime firstChunk)
      then (buffer, playback, chunksWritten)
      else
        match playback with
        | Some p =>
            if throws attempt then (rest, playback, chunksWritten)
            else drainLoop rest currentTime (Some (write (data (chunk firstChunk)) p))
                           throws (S attempt) (S chunksWritten)
        | None => drainLoop rest currentTime playback throws attempt chunksWritten
        end
  end.

(** One pass of the [while (state.isConnected)] loop: the state after the
    inner loop and the delay of the [sleep] that ends the pass. *)
Definition pass (state : ClientState) (currentTime : Q) (throws : nat -> bool)
    : ClientState * Z :=
  let '(buffer', playback', chunksWritten) :=
    drainLoop (buffer state) currentTime (playback state) throws 0 0 in
  (set_playback playback' (set_buffer buffer' state),
   if (0 <? chunksWritten)%nat then 1%Z else pollIntervalMs).

End ClientPlayback.

(* ===================================================================== *)
(** * server.ts: stopping the source *)
(* ===================================================================== *)
Module ServerStop.
Import Protocol Server.

(** [stopServer(state)]; it returns the state and the sockets it closes. *)
Definition stopServer (state : ServerState) : ServerState * list string :=
  let state := set_isRunning false state in
  let state := stopCapture state in
  (set_clients ∅ state, ws <$> (map_to_list (clients state)).*2).

End ServerStop.

(* ===================================================================== *)
(** * index.ts: the server url of the client commands *)
(* ===================================================================== *)
Module Cli.

Definition isDigit (c : Ascii.ascii) : bool :=
  let n := Ascii.nat_of_ascii c in (48 <=? n)%nat && (n <=? 57)%nat.

(** The character [:]. *)
Definition colon : Ascii.ascii := Ascii.ascii_of_nat 58.

(** All the characters of a string are decimal digits. *)
Fixpoint allDigits (s : string) : bool :=
  match s with
  | EmptyString => true
  | String c rest => isDigit c && allDigits rest
  end.

(** [s.match(/:\d+$/)] finds a match: at some position a colon is followed
    by one or more digits that run to the end of the string. *)
Fixpoint matchesPort (s : string) : bool :=
  match s with
  | EmptyString => false
  | String c rest =>
      (Ascii.eqb c colon && negb (String.eqb rest "") && allDigits rest)
      || matchesPort rest
  end.

(** [s.startsWith(p)]. *)
Definition startsWith (p s : string) : bool := String.prefix p s.

(** The two rewrites the [client] and [web] commands apply to the
    [--server] option; [port] is the text of [CONFIG.defaultPort]. *)
Definition serverUrl (port : string) (option : string) : string :=
  let serverUrl := option in
  let serverUrl :=
    if negb (startsWith "ws://" serverUrl) && negb (startsWith "wss://" serverUrl)
    then ("ws://" ++ serverUrl)%string
    else serverUrl in
  if negb (matchesPort serverUrl)
  then (serverUrl ++ ":" ++ port)%string
  else serverUrl.

(** The text of [CONFIG.defaultPort]. *)
Definition defaultPort : string := pretty (Config.defaultPort Config.CONFIG).

End Cli.

(* ===================================================================== *)
(** * web-client.ts: the encoder of the browser sink *)
(* ===================================================================== *)
Module WebClientEncoder.
Import WebClient.

#[local] Set Warnings "-register-all".

(** The values [encode] tells apart.  An object is its own enumerable
    properties in the order of [Object.keys], each key as the bytes
    [TextEncoder] makes of it; a string is those bytes; a number is its
    integer value, when [Number.isInteger] holds of it, and the 8 bytes
    [setFloat64] writes for it.  Every other value ([null], [undefined],
    booleans) is [JOther]. *)
Inductive JsValue :=
| JObject (entries : list (list byte * JsValue))
| JString (utf8 : list byte)
| JNumber (integer : option Z) (float64 : list byte)
| JOther.

(** The [typeof val === 'string'] branch; [parts] holds numbers. *)
Definition encodeString (bytes : list byte) : list Z :=
  let len := Z.of_nat (length bytes) in
  (if (len <? 32)%Z then [Z.lor 0xa0 len] else [0xd9; len]%Z)
  ++ (byteValue <$> bytes).

(** The inner function [encode] of [encodeMsgPack]: what it pushes on
    [parts]. *)
Fixpoint encode (val : JsValue) : list Z :=
  match val with
  | JObject entries =>
      let keys := Z.of_nat (length entries) in
      (if (keys <? 16)%Z then [Z.lor 0x80 keys]
       else [0xde; Z.land (Z.shiftr keys 8) 0xff; Z.land keys 0xff]%Z)
      ++ flat_map (fun '(key, v) => encodeString key ++ encode v) entries
  | JString utf8 => encodeString utf8
  | JNumber integer float64 =>
      match integer with
      | Some n =>
          if (0 <=? n)%Z && (n <? 128)%Z then [n]
          else (0xcb :: (byteValue <$> float64))%Z
      | None => (0xcb :: (byteValue <$> float64))%Z
      end
  | JOther => []
  end.

(** An element of [new Uint8Array(parts)]: the number modulo 256. *)
Definition toUint8 (n : Z) : byte :=
  default x00 (Byte.of_N (Z.to_N (n mod 256))).

(** [encodeMsgPack(obj)]. *)
Definition encodeMsgPack (obj : JsValue) : list byte :=
  toUint8 <$> encode obj.

End WebClientEncoder.

(* ===================================================================== *)
(** * client.ts: the resync timer *)
(* ===================================================================== *)
Module ClientTimer.
Import Protocol Sync Client.


End ClientTimer.

(* ===================================================================== *)
(** * JavaScript numbers: IEEE 754 binary64 *)
(* ===================================================================== *)
Module Binary64.

(** A [number] of the source with the arithmetic the source has: the
    binary64 format (53 bits of precision, exponents below 1024), every
    operation rounded to nearest, ties to even, with the two zeros, the two
    infinities and NaN.  The operations are those of the Standard Library's
    specification of floating-point arithmetic. *)
Definition number : Type := SpecFloat.spec_float.

Definition prec : Z := 53.
Definition emax : Z := 1024.

Definition add : number -> number -> number := SpecFloat.SFadd prec emax.
Definition sub : number -> number -> number := SpecFloat.SFsub prec emax.
Definition mul : number -> number -> number := SpecFloat.SFmul prec emax.
Definition div : number -> number -> number := SpecFloat.SFdiv prec emax.

(** [a < b] and [a <= b]: false when either side is NaN. *)
Definition lt : number -> number -> bool := SpecFloat.SFltb.
Definition le : number -> number -> bool := SpecFloat.SFleb.

(** An integer literal or an array length as a number. *)
Definition ofZ (n : Z) : number := SpecFloat.binary_normalize prec emax n 0 false.

(** [Math.max(a, b)]: NaN when either argument is, and [+0] above [-0]. *)
Definition max (a b : number) : number :=
  match SpecFloat.SFcompare a b with
  | None => SpecFloat.S754_nan
  | Some Lt => b
  | Some Gt => a
  | Some Eq => match a with SpecFloat.S754_zero true => b | _ => a end
  end.

(** The rational a finite number stands for; the infinities and NaN stand
    for none. *)
Definition value (x : number) : option Q :=
  match x with
  | SpecFloat.S754_zero _ => Some 0%Q
  | SpecFloat.S754_finite s m e =>
      Some (inject_Z (if s then Z.neg m else Z.pos m) * Qpower 2 e)%Q
  | _ => None
  end.

End Binary64.

(* ===================================================================== *)
(** * sync.ts on binary64 numbers *)
(* ===================================================================== *)

(** The estimator of sync.ts once more, with every [number] a binary64
    value and every operation rounded as the source rounds it.  It is the
    model for what the estimator computes; module [Sync] above, on exact
    rationals, is the model for its flags and lists. *)
Module Sync64.
Import Binary64.

Record SyncResponse := { t1 : number; t2 : number; t3 : number }.

Module SyncSample.
Record t := { offset : number; rtt : number; timestamp : number }.
End SyncSample.
Abbreviation SyncSample := SyncSample.t.

Record SyncState := {
  offset : number;
  roundTripTime : number;
  drift : number;
  samples : list SyncSample;
  lastSyncTime : number;
  isSynced : bool
}.

Definition createSyncState : SyncState := {|
  offset := ofZ 0;
  roundTripTime := ofZ 0;
  drift := ofZ 0;
  samples := [];
  lastSyncTime := ofZ 0;
  isSynced := false
|}.

(** The literal [0.1]: the binary64 value nearest to 1/10. *)
Definition tenth : number := div (ofZ 1) (ofZ 10).

(** The loop of [calculateWeightedOffset]. *)
Fixpoint weightedLoop (samples : list SyncSample) (totalWeight weightedSum : number)
    : number * number :=
  match samples with
  | [] => (totalWeight, weightedSum)
  | sample :: rest =>
      let weight := div (ofZ 1) (max (SyncSample.rtt sample) tenth) in
      weightedLoop rest (add totalWeight weight)
                   (add weightedSum (mul (SyncSample.offset sample) weight))
  end.

Definition calculateWeightedOffset (samples : list SyncSample) : number :=
  match samples with
  | [] => ofZ 0
  | [firstSample] => SyncSample.offset firstSample
  | _ =>
      let '(totalWeight, weightedSum) := weightedLoop samples (ofZ 0) (ofZ 0) in
      div weightedSum totalWeight
  end.

(** The loop of [calculateDrift]. *)
Fixpoint driftLoop (samples : list SyncSample) (sumX sumY sumXY sumX2 : number)
    : number * number * number * number :=
  match samples with
  | [] => (sumX, sumY, sumXY, sumX2)
  | sample :: rest =>
      let x := SyncSample.timestamp sample in
      let y := SyncSample.offset sample in
      driftLoop rest (add sumX x) (add sumY y) (add sumXY (mul x y)) (add sumX2 (mul x x))
  end.

Definition calculateDrift (samples : list SyncSample) : number :=
  if (length samples <? 2)%nat then ofZ 0
  else
    let n := ofZ (Z.of_nat (length samples)) in
    let '(sumX, sumY, sumXY, sumX2) := driftLoop samples (ofZ 0) (ofZ 0) (ofZ 0) (ofZ 0) in
    let slope := div (sub (mul n sumXY) (mul sumX sumY))
                     (sub (mul n sumX2) (mul sumX sumX)) in
    mul slope (ofZ 1000).

(** [processSyncResponse]; [now_t4], [now_sample] and [now_last] are the
    three readings of [now()], in program order. *)
Definition processSyncResponse (response : SyncResponse) (state : SyncState)
    (now_t4 now_sample now_last : number) : SyncState :=
  let t4 := now_t4 in
  let rtt := sub (sub t4 (t1 response)) (sub (t3 response) (t2 response)) in
  let offset := div (add (sub (t2 response) (t1 response)) (sub (t3 response) t4)) (ofZ 2) in
  let sample := {| SyncSample.offset := offset; SyncSample.rtt := rtt;
                   SyncSample.timestamp := now_sample |} in
  let samples :=
    Sync.slice_last (Config.syncSamples Config.CONFIG) (samples state ++ [sample]) in
  {| offset := calculateWeightedOffset samples;
     roundTripTime := rtt;
     drift := calculateDrift samples;
     samples := samples;
     lastSyncTime := now_last;
     isSynced := true |}.

End Sync64.

(* ===================================================================== *)
(** * client.ts: receiving *)
(* ===================================================================== *)
Module ClientReceive.
Import Protocol Client.

(** [ws.onmessage]: [handleMessage(decodeMessage(new Uint8Array(data)),
    state)] inside [try]/[catch].  [decode] is the decoder of the
    MessagePack library, which is not part of the repository; what it
    returns is read through the cast [as Message].  A decoder that throws
    is caught: the error is logged and the state is left as it was. *)
Definition onmessage (decode : list byte -> Outcome Message) (data : list byte)
    (state : ClientState) (now1 now2 now3 : Q) : option ClientState :=
  match decodeMessage decode data with
  | Returned message => handleMessage message state now1 now2 now3
  | Thrown => Some state
  | Unfinished => None
  end.

End ClientReceive.

(* ===================================================================== *)
(** * client.ts on binary64 numbers: the overflow loop *)
(* ===================================================================== *)

(** The loop that ends [handleAudioChunk] subtracts two play times and
    compares the difference with [maxBufferMs].  Play times are binary64
    numbers, and a chunk may carry any of them as its time stamp, the
    infinities and NaN included: this module has the loop on such
    numbers. *)
Module Client64.
Import Binary64.

Record AudioChunk := { timestamp : number; sequence : Z; data : list byte }.
Record BufferedChunk := { chunk : AudioChunk; playTime : number }.

(** The overflow loop: the buffer left and the counter of dropped chunks. *)
Fixpoint trimLoop (buffer : list BufferedChunk) (droppedChunks : Z)
    : list BufferedChunk * Z :=
  match buffer with
  | [] => (buffer, droppedChunks)
  | firstChunk :: rest =>
      match last buffer with
      | None => (buffer, droppedChunks)
      | Some lastChunk =>
          if le (sub (playTime lastChunk) (playTime firstChunk))
                (ofZ (Config.maxBufferMs Config.CONFIG))
          then (buffer, droppedChunks)
          else trimLoop rest (droppedChunks + 1)
      end
  end.

End Client64.

(* ===================================================================== *)
(** * Notions the properties are stated with *)
(* ===================================================================== *)

(** The order of the jitter buffer: by ascending [playTime]. *)
Definition byPlayTime (a b : Client.BufferedChunk) : Prop :=
  (Client.playTime a <= Client.playTime b)%Q.

(** The time span of a buffer, [last.playTime - first.playTime], as
    [playbackLoop] reports it ([0] for the empty buffer). *)
Definition bufferMs (buffer : list Client.BufferedChunk) : Q :=
  match head buffer, last buffer with
  | Some firstChunk, Some lastChunk =>
      (Client.playTime lastChunk - Client.playTime firstChunk)%Q
  | _, _ => 0%Q
  end.

(** A buffer short enough for the 32-bit midpoint of [insertSorted]. *)
Definition shortBuffer (buffer : list Client.BufferedChunk) : Prop :=
  (Z.of_nat (length buffer) < 2 ^ 31)%Z.

(** The frame [handleAudioChunk] builds for a chunk: its play time is
    [toLocalTime(chunk.timestamp, state.sync) + CONFIG.targetBufferMs]. *)
Definition newFrame (chunk : Protocol.AudioChunk) (state : Client.ClientState)
    : Client.BufferedChunk :=
  {| Client.chunk := chunk;
     Client.playTime :=
       (Sync.toLocalTime (Protocol.timestamp chunk) (Client.sync state)
        + inject_Z (Config.targetBufferMs Config.CONFIG))%Q |}.

(** The gap a chunk numbered [seq] adds to the dropped counter after a
    chunk numbered [lastSeq]: [seq - lastSeq - 1] when that is positive and
    [lastSeq] is not negative, else nothing. *)
Definition positiveGap (lastSeq seq : Z) : Z :=
  if (0 <=? lastSeq)%Z && (0 <? seq - lastSeq - 1)%Z then (seq - lastSeq - 1)%Z else 0%Z.

(** The sum of the positive gaps of a stream of sequence numbers that
    follows [lastSeq]. *)
Fixpoint positiveGaps (lastSeq : Z) (seqs : list Z) : Z :=
  match seqs with
  | [] => 0%Z
  | seq :: rest => (positiveGap lastSeq seq + positiveGaps seq rest)%Z
  end.

(** The last sequence number of a stream that follows [lastSeq]. *)
Definition lastOf (lastSeq : Z) (seqs : list Z) : Z :=
  default lastSeq (last seqs).

(** A stream of audio chunks, each with the clock reading of its arrival,
    as the inputs of [ws.onmessage]. *)
Definition audioInputs (chunks : list (Protocol.AudioChunk * Q))
    : list (Protocol.Message * (Q * Q * Q)) :=
  map (fun '(chunk, currentTime) =>
         (Protocol.MAudioChunk chunk, (currentTime, currentTime, currentTime))) chunks.

(** Frames of equal play time stand in ascending order of sequence. *)
Definition tiesBySequence (buffer : list Client.BufferedChunk) : Prop :=
  forall i j a b,
    (i < j)%nat -> buffer !! i = Some a -> buffer !! j = Some b ->
    (Client.playTime a == Client.playTime b)%Q ->
    (Protocol.sequence (Client.chunk a) <= Protocol.sequence (Client.chunk b))%Z.

(** A sink that has opened its socket at local time 0 and completed one
    sync exchange in which both clocks read 0: synced with offset 0. *)
Definition syncedSink : Client.ClientState :=
  let state := Client.onopen (Client.initialState None) 0 in
  default state
    (Client.handleMessage
       (Protocol.MSyncResponse {| Protocol.t1 := 0; Protocol.t2 := 0; Protocol.t3 := 0 |})
       state 0 0 0).

(** The ready flag the source holds for the client registered under [wsId]
    ([false] when there is none). *)
Definition readyIn (state : Server.ServerState) (wsId : string) : bool :=
  match Server.clients state !! wsId with
  | Some client => Server.isReady client
  | None => false
  end.

(** Every client record of the table sits under the id of its socket, as
    [websocket.open] registers it. *)
Definition wellKeyed (state : Server.ServerState) : Prop :=
  forall k client, Server.clients state !! k = Some client -> Server.ws client = k.

(** The [data] of the audio chunks that [out] hands to the socket [wsId],
    in the order of sending. *)
Definition payloadsTo (wsId : string) (out : Server.Sends) : list (list byte) :=
  omap (fun '(w, m) =>
          if decide (w = wsId)
          then match m with Protocol.MAudioChunk c => Some (Protocol.data c) | _ => None end
          else None) out.

(** A source with its capture started and one sink, ["a"], that has
    connected and sent [client_ready]. *)
Definition sourceWithReadySink : Server.ServerState :=
  Server.set_capture (Some {| Server.stopped := false |})
    (Server.run [Server.EOpen "a";
                 Server.EMessage "a" (Protocol.MClientReady {| Protocol.clientId := "client" |}) 0 0]
                (Server.initialState 0)).1.

(** The frame constants of a session descriptor are those the sink is
    configured with. *)
Definition matchesConfig (info : Protocol.ServerInfo) : bool :=
  (Protocol.sampleRate info =? Config.sampleRate Config.CONFIG)%Z
  && (Protocol.channels info =? Config.channels Config.CONFIG)%Z
  && (Protocol.bitDepth info =? Config.bitDepth Config.CONFIG)%Z
  && (Protocol.chunkDurationMs info =? Config.chunkDurationMs Config.CONFIG)%Z.


(** A sink whose socket has just opened, at local time 0: connected, its
    first sync request sent, no descriptor received yet. *)
Definition openedSink : Client.ClientState :=
  Client.onopen (Client.initialState None) 0.

(** The byte of a number below 256. *)
Definition byteOf (z : Z) : byte := default x00 (Byte.of_N (Z.to_N z)).

(** The MessagePack layout of a string of fewer than 32 bytes, as the
    encoder of the web sink writes it: [0xa0 | length], then the bytes. *)
Definition fixstr (utf8 : list byte) : list byte :=
  byteOf (0xa0 + Z.of_nat (length utf8)) :: utf8.

(** The bytes of the one-field map [{ type: tag }]. *)
Definition taggedMap (tag : list byte) : list byte :=
  x81 :: fixstr (String.list_byte_of_string "type") ++ fixstr tag.

(** The six tags of the protocol. *)
Definition knownTypes : list string :=
  map Protocol.tag
      [Protocol.SYNC_REQUEST; Protocol.SYNC_RESPONSE; Protocol.AUDIO_CHUNK;
       Protocol.CLIENT_READY; Protocol.SERVER_INFO; Protocol.ERROR].

(** A decoder that reads the bytes [bytes] as [message] and throws on every
    other input. *)
Definition readsAs (bytes : list byte) (message : Protocol.Message)
    : list byte -> Outcome Protocol.Message :=
  fun data => if decide (data = bytes) then Returned message else Thrown.

(** The audio chunks that [out] hands to the socket [wsId], in the order
    of sending. *)
Definition audioChunksTo (wsId : string) (out : Server.Sends) : list Protocol.AudioChunk :=
  omap (fun '(w, m) =>
          if decide (w = wsId)
          then match m with Protocol.MAudioChunk c => Some c | _ => None end
          else None) out.

(** The chunks the source makes of [blocks] from the sequence number
    [first] on, the [i]-th stamped with the clock reading [clock (k + i)]. *)
Definition stampedChunks (blocks : list (list byte)) (first : Z) (clock : nat -> Q) (k : nat)
    : list Protocol.AudioChunk :=
  imap (fun i pcmData =>
          {| Protocol.timestamp := clock (k + i)%nat;
             Protocol.sequence := (first + Z.of_nat i)%Z;
             Protocol.data := pcmData |}) blocks.


(** The values the encoder of the browser sink writes in full: strings and
    keys of fewer than 256 bytes, objects of fewer than 65536 properties,
    numbers, and nothing else, at any depth. *)
Fixpoint encodable (val : WebClientEncoder.JsValue) : bool :=
  match val with
  | WebClientEncoder.JObject entries =>
      (Z.of_nat (length entries) <? 65536)%Z
      && forallb (fun '(key, v) => (length key <? 256)%nat && encodable v) entries
  | WebClientEncoder.JString utf8 => (length utf8 <? 256)%nat
  | WebClientEncoder.JNumber _ float64 => (length float64 =? 8)%nat
  | WebClientEncoder.JOther => false
  end.

(** What the reader of the browser sink does with the data the encoder
    wrote for a value, in the terms of [WebClient.Value]: a string is the
    bytes handed to [TextDecoder], an object is the assignments
    [obj[key] = value] in the order they are made, an integer from 0 to 127
    is that integer and every other number its 8 bytes. *)
Fixpoint readBack (val : WebClientEncoder.JsValue) : WebClient.Value :=
  match val with
  | WebClientEncoder.JObject entries =>
      WebClient.VObject
        (map (fun '(key, v) => (WebClient.VString key, readBack v)) entries)
  | WebClientEncoder.JString utf8 => WebClient.VString utf8
  | WebClientEncoder.JNumber (Some n) float64 =>
      if (0 <=? n)%Z && (n <? 128)%Z then WebClient.VNumber n
      else WebClient.VFloat64 float64
  | WebClientEncoder.JNumber None float64 => WebClient.VFloat64 float64
  | WebClientEncoder.JOther => WebClient.VNull
  end.

(** A string that begins with the byte order mark: [TextDecoder] drops
    the mark, so such a string is not read back as it was written. *)
Definition startsWithMark (utf8 : list byte) : bool :=
  match utf8 with
  | xef :: xbb :: xbf :: _ => true
  | _ => false
  end.

(** The values that are read back as they were written once [TextDecoder]
    and the assignments have done their work: no string or key begins with
    the byte order mark, no key is [__proto__] (an assignment to it makes
    no property), and the keys of an object are distinct, as the keys of
    an object are. *)
Fixpoint plain (val : WebClientEncoder.JsValue) : bool :=
  match val with
  | WebClientEncoder.JObject entries =>
      bool_decide (NoDup (map fst entries))
      && forallb (fun '(key, v) =>
                    negb (startsWithMark key)
                    && negb (bool_decide (key = String.list_byte_of_string "__proto__"))
                    && plain v) entries
  | WebClientEncoder.JString utf8 => negb (startsWithMark utf8)
  | _ => true
  end.

(** The numbers of a value that the reader took from an integer type code
    (a fixint, a uint 8, 16 or 32), at any depth, keys included. *)
Fixpoint integersOf (v : WebClient.Value) : list Z :=
  match v with
  | WebClient.VNumber n => [n]
  | WebClient.VObject assignments =>
      flat_map (fun '(key, value) => integersOf key ++ integersOf value) assignments
  | _ => []
  end.

(** The type codes the reader of the browser sink has no branch for: the
    arrays [0x90]-[0x9f], and of [0xc0]-[0xdf] all but bin 8/16/32,
    float 64, uint 8/16/32, str 8 and map 16. *)
Definition unsupportedCode (code : Z) : bool :=
  ((0x90 <=? code) && (code <=? 0x9f)
   || (0xc0 <=? code) && (code <=? 0xdf)
      && negb (bool_decide (code ∈ [0xc4; 0xc5; 0xc6; 0xcb; 0xcc; 0xcd; 0xce; 0xd9; 0xde])))%Z.


(** An operation of the source that did not round: the operands and the
    binary64 result are finite, and the result is the exact rational
    [op] of the operands. *)
Definition exact (op : Q -> Q -> Q) (x y result : Binary64.number) : bool :=
  match Binary64.value x, Binary64.value y, Binary64.value result with
  | Some a, Some b, Some c => Qeq_bool c (op a b)
  | _, _, _ => false
  end.


(** The number [n / 2]. *)
Definition halves (n : Z) : Binary64.number :=
  Binary64.div (Binary64.ofZ n) (Binary64.ofZ 2).

(** The rational of a number known to be finite. *)
Definition rational (x : Binary64.number) : Q := default 0%Q (Binary64.value x).

(** A buffered frame of given sequence number and play time. *)
Definition frame64 (sequence : Z) (playTime : Binary64.number) : Client64.BufferedChunk :=
  {| Client64.chunk := {| Client64.timestamp := playTime;
                          Client64.sequence := sequence;
                          Client64.data := [] |};
     Client64.playTime := playTime |}.

(** An exchange on multiples of one half: [t1 = 1000.5], [t2 = 1001.5],
    [t3 = 1002]; it is completed by [t4 = 1003.5]. *)
Definition dyadicExchange : Sync64.SyncResponse :=
  {| Sync64.t1 := halves 2001; Sync64.t2 := halves 2003; Sync64.t3 := halves 2004 |}.



(* ===================================================================== *)
(** * Properties of the estimator (sync.ts) *)
(* ===================================================================== *)
Section SyncFacts.
Import Protocol Sync.
Local Open Scope Q_scope.









(** Scenario 2 of the specification: one exchange with
    [t1 = 0, t2 = 500, t3 = 500, t4 = 0] yields offset 500 and rtt 0, and
    a chunk stamped 520 is then scheduled at 80. *)
Example scenario_offset_500 :
  let state' := processSyncResponse {| t1 := 0; t2 := 500; t3 := 500 |} createSyncState 0 0 0 in
  offset state' == 500 /\ roundTripTime state' == 0 /\
  getPlayTime 520 state' (inject_Z (Config.targetBufferMs Config.CONFIG)) == 80.
Proof. vm_compute. repeat split. Qed.

End SyncFacts.

(* ===================================================================== *)
(** * Properties of the sink (client.ts) *)
(* ===================================================================== *)
Section ClientFacts.
Import Protocol Sync Client.
Local Open Scope Q_scope.

Lemma Qlt_bool_true (a b : Q) : Qlt_bool a b = true <-> a < b.
Proof.
  unfold Qlt_bool. rewrite negb_true_iff. split.
  - intros H. apply Qnot_le_lt. intros Hle.
    apply Qle_bool_iff in Hle. congruence.
  - intros H. destruct (Qle_bool b a) eqn:E; [|reflexivity].
    apply Qle_bool_iff in E. exfalso. exact (Qlt_not_le _ _ H E).
Qed.

Lemma Qlt_bool_false (a b : Q) : Qlt_bool a b = false <-> b <= a.
Proof.
  unfold Qlt_bool. rewrite negb_false_iff. apply Qle_bool_iff.
Qed.

Lemma ushr1_half (n : Z) : (0 <= n < 2 ^ 32)%Z -> ushr1 n = (n / 2)%Z.
Proof.
  intros Hn. unfold ushr1.
  rewrite Z.mod_small by lia. rewrite Z.shiftr_div_pow2 by lia. reflexivity.
Qed.

Lemma midpoint_between (low high : nat) :
  (low < high)%nat -> (Z.of_nat high < 2 ^ 31)%Z ->
  (low <= Z.to_nat (ushr1 (Z.of_nat (low + high))) < high)%nat.
Proof.
  intros Hlt Hhigh. rewrite ushr1_half by lia.
  assert (Z.of_nat low <= Z.of_nat (low + high) / 2 < Z.of_nat high)%Z.
  { split; [apply Z.div_le_lower_bound|apply Z.div_lt_upper_bound]; lia. }
  lia.
Qed.

Global Instance byPlayTime_trans : Transitive byPlayTime.
Proof. intros a b c. unfold byPlayTime. apply Qle_trans. Qed.

Lemma sorted_lookup (buffer : list BufferedChunk) (i j : nat) (a b : BufferedChunk) :
  StronglySorted byPlayTime buffer -> (i <= j)%nat ->
  buffer !! i = Some a -> buffer !! j = Some b -> byPlayTime a b.
Proof.
  intros Hs. revert i j. induction Hs as [|x l Hs IH Hall]; intros i j Hij Hi Hj.
  - discriminate.
  - destruct i as [|i], j as [|j]; simpl in *; try lia.
    + inversion Hi; inversion Hj; subst. unfold byPlayTime. apply Qle_refl.
    + inversion Hi; subst. rewrite Forall_forall in Hall.
      apply Hall. eapply list_elem_of_lookup_2; eauto.
    + apply (IH i j); [lia|exact Hi|exact Hj].
Qed.

(** The search comes to an end within [high - low] iterations on a short
    buffer, whatever its order. *)
Lemma search_total (buffer : list BufferedChunk) (item : BufferedChunk) :
  shortBuffer buffer ->
  forall fuel low high,
    (low <= high <= length buffer)%nat -> (high - low <= fuel)%nat ->
    exists p, search fuel buffer item low high = Some p /\ (low <= p <= high)%nat.
Proof.
  intros Hshort. unfold shortBuffer in Hshort.
  induction fuel as [|fuel IH]; intros low high Hb Hfuel.
  - simpl. destruct (low <? high)%nat eqn:E.
    + apply Nat.ltb_lt in E. lia.
    + exists low. split; [reflexivity|lia].
  - simpl. destruct (low <? high)%nat eqn:E.
    + apply Nat.ltb_lt in E.
      pose proof (midpoint_between low high E ltac:(lia)) as Hmid.
      set (mid := Z.to_nat (ushr1 (Z.of_nat (low + high)))) in *.
      destruct (buffer !! mid) as [midItem|];
        [destruct (Qlt_bool (playTime midItem) (playTime item))|].
      * destruct (IH (mid + 1)%nat high) as (p & Hp & Hr); [lia|lia|].
        exists p. split; [exact Hp|lia].
      * destruct (IH low mid) as (p & Hp & Hr); [lia|lia|].
        exists p. split; [exact Hp|lia].
      * destruct (IH low mid) as (p & Hp & Hr); [lia|lia|].
        exists p. split; [exact Hp|lia].
    + exists low. split; [reflexivity|lia].
Qed.

(** On a sorted buffer the search keeps its invariant: everything before
    [low] is earlier than the item, nothing from [high] on is. *)
Lemma search_sorted (buffer : list BufferedChunk) (item : BufferedChunk) :
  shortBuffer buffer -> StronglySorted byPlayTime buffer ->
  forall fuel low high p,
    (low <= high <= length buffer)%nat ->
    (forall i b, (i < low)%nat -> buffer !! i = Some b -> playTime b < playTime item) ->
    (forall i b, (high <= i)%nat -> buffer !! i = Some b -> playTime item <= playTime b) ->
    search fuel buffer item low high = Some p ->
    (forall i b, (i < p)%nat -> buffer !! i = Some b -> playTime b < playTime item) /\
    (forall i b, (p <= i)%nat -> buffer !! i = Some b -> playTime item <= playTime b).
Proof.
  intros Hshort Hsorted. unfold shortBuffer in Hshort.
  induction fuel as [|fuel IH]; intros low high p Hb Hlow Hhigh Hsearch.
  - simpl in Hsearch. destruct (low <? high)%nat eqn:E; [discriminate|].
    apply Nat.ltb_ge in E. inversion Hsearch; subst p.
    split; [exact Hlow|]. intros i b Hi. apply Hhigh. lia.
  - simpl in Hsearch. destruct (low <? high)%nat eqn:E.
    + apply Nat.ltb_lt in E.
      pose proof (midpoint_between low high E ltac:(lia)) as Hmid.
      set (mid := Z.to_nat (ushr1 (Z.of_nat (low + high)))) in *.
      destruct (buffer !! mid) as [midItem|] eqn:Emid.
      * destruct (Qlt_bool (playTime midItem) (playTime item)) eqn:Ecmp.
        -- apply Qlt_bool_true in Ecmp.
           apply (IH (mid + 1)%nat high p); [lia| |exact Hhigh|exact Hsearch].
           intros i b Hi Hib.
           eapply Qle_lt_trans; [|exact Ecmp].
           apply (sorted_lookup buffer i mid); auto. lia.
        -- apply Qlt_bool_false in Ecmp.
           apply (IH low mid p); [lia|exact Hlow| |exact Hsearch].
           intros i b Hi Hib.
           eapply Qle_trans; [exact Ecmp|].
           apply (sorted_lookup buffer mid i); auto.
      * apply lookup_ge_None in Emid. lia.
    + apply Nat.ltb_ge in E. inversion Hsearch; subst p.
      split; [exact Hlow|]. intros i b Hi. apply Hhigh. lia.
Qed.

(** [insertSorted] returns on every short buffer, and splices the item
    in at some position. *)
Lemma insertSorted_total (buffer : list BufferedChunk) (item : BufferedChunk) :
  shortBuffer buffer ->
  exists p, (p <= length buffer)%nat /\
            insertSorted buffer item = Some (splice_in p item buffer).
Proof.
  intros Hshort. unfold insertSorted.
  destruct (search_total buffer item Hshort (length buffer) 0%nat (length buffer))
    as (p & Hp & Hr); [lia|lia|].
  exists p. rewrite Hp. split; [lia|reflexivity].
Qed.

(** On a sorted short buffer the item lands behind every strictly
    earlier frame and in front of all the others, and the result is
    sorted. *)
Lemma insertSorted_sorted (buffer : list BufferedChunk) (item : BufferedChunk) :
  shortBuffer buffer -> StronglySorted byPlayTime buffer ->
  exists l1 l2,
    buffer = l1 ++ l2 /\
    insertSorted buffer item = Some (l1 ++ item :: l2) /\
    Forall (fun b => playTime b < playTime item) l1 /\
    Forall (fun b => playTime item <= playTime b) l2 /\
    StronglySorted byPlayTime (l1 ++ item :: l2).
Proof.
  intros Hshort Hsorted. unfold insertSorted.
  destruct (search_total buffer item Hshort (length buffer) 0%nat (length buffer))
    as (p & Hp & Hr); [lia|lia|].
  destruct (search_sorted buffer item Hshort Hsorted (length buffer) 0%nat (length buffer) p)
    as [Hbefore Hafter]; [lia| | |exact Hp|].
  { intros i b Hi. lia. }
  { intros i b Hi Hib. apply lookup_lt_Some in Hib. lia. }
  rewrite Hp. exists (take p buffer), (drop p buffer).
  assert (H1 : Forall (fun b => playTime b < playTime item) (take p buffer)).
  { apply Forall_lookup. intros i b Hib.
    apply lookup_take_Some in Hib as [Hib Hi]. eauto. }
  assert (H2 : Forall (fun b => playTime item <= playTime b) (drop p buffer)).
  { apply Forall_lookup. intros i b Hib.
    rewrite lookup_drop in Hib. eapply Hafter; [|exact Hib]. lia. }
  split; [by rewrite take_drop|]. split; [reflexivity|].
  split; [exact H1|]. split; [exact H2|].
  rewrite <- (take_drop p buffer) in Hsorted.
  apply StronglySorted_app in Hsorted as (Hcross & Hs1 & Hs2).
  apply StronglySorted_app. split; [|split; [exact Hs1|]].
  - intros x1 x2 Hx1 Hx2. rewrite Forall_forall in H1, H2.
    apply elem_of_cons in Hx2 as [->|Hx2].
    + unfold byPlayTime. apply Qlt_le_weak. auto.
    + auto.
  - constructor; [exact Hs2|]. apply Forall_forall. intros x Hx.
    rewrite Forall_forall in H2. unfold byPlayTime. auto.
Qed.

Lemma maxBufferMs_nonneg : 0 <= inject_Z (Config.maxBufferMs Config.CONFIG).
Proof. unfold Qle. simpl. lia. Qed.

Lemma bufferMs_cons (firstChunk : BufferedChunk) (rest : list BufferedChunk) :
  exists lastChunk,
    last (firstChunk :: rest) = Some lastChunk /\
    bufferMs (firstChunk :: rest) = playTime lastChunk - playTime firstChunk.
Proof.
  destruct (last (firstChunk :: rest)) as [lastChunk|] eqn:E.
  - exists lastChunk. split; [reflexivity|]. unfold bufferMs. rewrite E. reflexivity.
  - apply last_None in E. discriminate.
Qed.

(** The overflow loop pops the least number [k] of frames from the front
    that brings the span within [maxBufferMs], counts each, and never
    empties a buffer that holds a frame. *)
Lemma trimLoop_spec (buffer : list BufferedChunk) (dropped : Z) :
  exists k,
    trimLoop buffer dropped = (drop k buffer, (dropped + Z.of_nat k)%Z) /\
    (k <= length buffer)%nat /\
    (buffer <> [] -> (k < length buffer)%nat) /\
    bufferMs (drop k buffer) <= inject_Z (Config.maxBufferMs Config.CONFIG) /\
    forall j, (j < k)%nat ->
      inject_Z (Config.maxBufferMs Config.CONFIG) < bufferMs (drop j buffer).
Proof.
  revert dropped. induction buffer as [|firstChunk rest IH]; intros dropped.
  - exists 0%nat. simpl. rewrite Z.add_0_r. repeat split; try lia; try congruence.
    exact maxBufferMs_nonneg.
  - destruct (bufferMs_cons firstChunk rest) as (lastChunk & Hlast & Hspan).
    cbn [trimLoop]. rewrite Hlast.
    destruct (Qle_bool (playTime lastChunk - playTime firstChunk)
                       (inject_Z (Config.maxBufferMs Config.CONFIG))) eqn:E.
    + exists 0%nat. rewrite drop_0, Z.add_0_r.
      repeat split; simpl; try lia.
      rewrite Hspan. by apply Qle_bool_iff.
    + destruct (IH (dropped + 1)%Z) as (k & Hk & Hlen & Hne & Hok & Hmin).
      exists (S k). cbn [drop]. rewrite Hk.
      assert (Hrest : rest <> []).
      { intros ->. simpl in Hlast. inversion Hlast; subst lastChunk.
        assert (Hle : playTime firstChunk - playTime firstChunk
                      <= inject_Z (Config.maxBufferMs Config.CONFIG)).
        { pose proof maxBufferMs_nonneg as Hmax. lra. }
        apply Qle_bool_iff in Hle. congruence. }
      split; [f_equal; lia|]. split; [simpl; lia|].
      split; [intros _; simpl; specialize (Hne Hrest); lia|].
      split; [exact Hok|].
      intros [|j] Hj.
      * rewrite drop_0, Hspan. apply Qnot_le_lt. intros Hle.
        apply Qle_bool_iff in Hle. congruence.
      * cbn [drop]. apply Hmin. lia.
Qed.

Lemma accountGap_frame (chunk : AudioChunk) (state : ClientState) :
  sync (accountGap chunk state) = sync state /\
  buffer (accountGap chunk state) = buffer state /\
  lateChunks (accountGap chunk state) = lateChunks state /\
  lastSequence (accountGap chunk state) = lastSequence state /\
  droppedChunks (accountGap chunk state)
    = (droppedChunks state + positiveGap (lastSequence state) (sequence chunk))%Z.
Proof.
  unfold accountGap, positiveGap.
  destruct (0 <=? lastSequence state)%Z eqn:E1; cbn [andb].
  - destruct (sequence chunk =? lastSequence state + 1)%Z eqn:E2; cbn [negb].
    + apply Z.eqb_eq in E2.
      replace (0 <? sequence chunk - lastSequence state - 1)%Z with false
        by (symmetry; apply Z.ltb_ge; lia).
      repeat split; lia.
    + destruct (0 <? sequence chunk - lastSequence state - 1)%Z;
        cbn; repeat split; lia.
  - repeat split; lia.
Qed.

(** What one call of [handleAudioChunk] does in a synced state: either
    the chunk is late, and only the counters move, or it is spliced in
    and the overflow loop pops the least number of front frames. *)
Lemma handleAudioChunk_synced (chunk : AudioChunk) (state : ClientState) (currentTime : Q) :
  isSynced (sync state) = true -> shortBuffer (buffer state) ->
  let item := newFrame chunk state in
  let state1 := set_lastSequence (sequence chunk) (accountGap chunk state) in
  (playTime item < currentTime /\
   handleAudioChunk chunk state currentTime
     = Some (set_lateChunks (lateChunks state + 1)%Z state1))
  \/
  (currentTime <= playTime item /\
   exists p k,
     (p <= length (buffer state))%nat /\ (k <= length (buffer state))%nat /\
     insertSorted (buffer state) item = Some (splice_in p item (buffer state)) /\
     handleAudioChunk chunk state currentTime
       = Some (set_droppedChunks (droppedChunks state1 + Z.of_nat k)%Z
                 (set_buffer (drop k (splice_in p item (buffer state))) state1)) /\
     bufferMs (drop k (splice_in p item (buffer state)))
       <= inject_Z (Config.maxBufferMs Config.CONFIG) /\
     forall j, (j < k)%nat ->
       inject_Z (Config.maxBufferMs Config.CONFIG)
         < bufferMs (drop j (splice_in p item (buffer state)))).
Proof.
  intros Hsync Hshort item state1.
  destruct (accountGap_frame chunk state) as (Hs & Hb & Hl & _ & _).
  unfold handleAudioChunk. rewrite Hsync. cbn [negb].
  fold state1.
  assert (Hitem : {| chunk := chunk;
                     playTime := toLocalTime (timestamp chunk) (sync state1)
                                 + inject_Z (Config.targetBufferMs Config.CONFIG) |} = item).
  { unfold item, newFrame, state1. cbn [sync set_lastSequence]. by rewrite Hs. }
  assert (Hpt : toLocalTime (timestamp chunk) (sync state1)
                + inject_Z (Config.targetBufferMs Config.CONFIG) = playTime item).
  { by rewrite <- Hitem. }
  rewrite Hitem, Hpt.
  destruct (Qlt_bool (playTime item) currentTime) eqn:Ecmp.
  - left. apply Qlt_bool_true in Ecmp. split; [exact Ecmp|].
    unfold state1 at 1. cbn [lateChunks set_lastSequence]. by rewrite Hl.
  - right. apply Qlt_bool_false in Ecmp. split; [exact Ecmp|].
    assert (Hbuf : buffer state1 = buffer state) by (unfold state1; cbn; exact Hb).
    rewrite Hbuf.
    destruct (insertSorted_total (buffer state) item Hshort) as (p & Hp & Hins).
    rewrite Hins.
    destruct (trimLoop_spec (splice_in p item (buffer state)) (droppedChunks state1))
      as (k & Hk & Hlen & Hne & Hok & Hmin).
    rewrite Hk. exists p, k.
    assert (Hsl : length (splice_in p item (buffer state)) = S (length (buffer state))).
    { unfold splice_in. rewrite length_app. cbn [length].
      rewrite length_take, length_drop. lia. }
    assert (Hnonempty : splice_in p item (buffer state) <> []).
    { intros Hnil. rewrite Hnil in Hsl. discriminate. }
    specialize (Hne Hnonempty).
    repeat split; [exact Hp|lia|exact Hok|exact Hmin].
Qed.

Lemma splice_in_length {A} (p : nat) (item : A) (xs : list A) :
  length (splice_in p item xs) = S (length xs).
Proof.
  unfold splice_in. rewrite length_app. cbn [length].
  rewrite length_take, length_drop. lia.
Qed.

Lemma elem_of_splice_in {A} (p : nat) (item x : A) (xs : list A) :
  x ∈ splice_in p item xs -> x = item \/ x ∈ xs.
Proof.
  unfold splice_in. rewrite elem_of_app, elem_of_cons.
  intros [H|[H|H]]; [right|left|right]; try exact H.
  - rewrite <- (take_drop p xs). apply elem_of_app. by left.
  - rewrite <- (take_drop p xs). apply elem_of_app. by right.
Qed.

Lemma elem_of_drop_weaken {A} (k : nat) (x : A) (xs : list A) :
  x ∈ drop k xs -> x ∈ xs.
Proof.
  intros H. rewrite <- (take_drop k xs). apply elem_of_app. by right.
Qed.

Lemma sorted_drop (k : nat) (buffer : list BufferedChunk) :
  StronglySorted byPlayTime buffer -> StronglySorted byPlayTime (drop k buffer).
Proof.
  intros H. rewrite <- (take_drop k buffer) in H.
  by apply StronglySorted_app in H as (_ & _ & H).
Qed.

(** The summary of one call of [handleAudioChunk], synced or not, that
    the properties over sequences of messages are built from. *)
Lemma handleAudioChunk_step (chunk : AudioChunk) (state : ClientState) (currentTime : Q) :
  shortBuffer (buffer state) ->
  exists state',
    handleAudioChunk chunk state currentTime = Some state' /\
    sync state' = sync state /\
    (length (buffer state') <= S (length (buffer state)))%nat /\
    (bufferMs (buffer state) <= inject_Z (Config.maxBufferMs Config.CONFIG) ->
     bufferMs (buffer state') <= inject_Z (Config.maxBufferMs Config.CONFIG)) /\
    (StronglySorted byPlayTime (buffer state) ->
     StronglySorted byPlayTime (buffer state')) /\
    (forall b, b ∈ buffer state' ->
       b ∈ buffer state \/ (b = newFrame chunk state /\ currentTime <= playTime b)) /\
    (isSynced (sync state) = true ->
     lastSequence state' = sequence chunk /\
     (droppedChunks state' - droppedChunks state
      - positiveGap (lastSequence state) (sequence chunk)
      = Z.of_nat (S (length (buffer state))) - (lateChunks state' - lateChunks state)
        - Z.of_nat (length (buffer state')))%Z).
Proof.
  intros Hshort.
  destruct (isSynced (sync state)) eqn:Hsync.
  - destruct (accountGap_frame chunk state) as (Hs & Hb & Hl & Hq & Hd).
    destruct (handleAudioChunk_synced chunk state currentTime Hsync Hshort)
      as [[Hlate Heq]|(Hfresh & p & k & Hp & Hk & Hins & Heq & Hok & Hmin)];
      rewrite Heq; eexists; (split; [reflexivity|]); cbn.
    + rewrite ?Hs, ?Hb, ?Hl, ?Hd.
      repeat split; auto; try lia.
    + rewrite ?Hs, ?Hd, ?length_drop, ?splice_in_length.
      split; [reflexivity|]. split; [lia|]. split; [auto|].
      split; [|split].
      * intros Hsorted. apply sorted_drop.
        destruct (insertSorted_sorted (buffer state) (newFrame chunk state) Hshort Hsorted)
          as (l1 & l2 & _ & Hins' & _ & _ & Hres).
        rewrite Hins in Hins'. inversion Hins' as [Hsplice].
        by rewrite Hsplice.
      * intros b Hb'. apply elem_of_drop_weaken, elem_of_splice_in in Hb'.
        destruct Hb' as [->|Hb']; [right|left]; auto.
      * intros _. split; [reflexivity|]. lia.
  - unfold handleAudioChunk. rewrite Hsync. cbn [negb].
    exists state. repeat split; auto; try discriminate.
Qed.

Lemma sendReady_frame (state : ClientState) :
  buffer (sendReady state) = buffer state /\
  sync (sendReady state) = sync state /\
  lastSequence (sendReady state) = lastSequence state /\
  droppedChunks (sendReady state) = droppedChunks state /\
  lateChunks (sendReady state) = lateChunks state /\
  serverInfo (sendReady state) = serverInfo state /\
  isConnected (sendReady state) = isConnected state.
Proof.
  unfold sendReady. destruct (ws state) as [w|]; [destruct (isOpen w)|];
    repeat split; reflexivity.
Qed.

Lemma classic_audio (message : Message) :
  (exists chunk, message = MAudioChunk chunk) \/ (forall chunk, message <> MAudioChunk chunk).
Proof.
  destruct message; try (right; intros chunk; discriminate).
  left. eauto.
Qed.

(** A message other than an audio chunk leaves the buffer and the
    counters as they are. *)
Lemma handleMessage_other (message : Message) (state : ClientState) (now1 now2 now3 : Q) :
  (forall chunk, message <> MAudioChunk chunk) ->
  exists state',
    handleMessage message state now1 now2 now3 = Some state' /\
    buffer state' = buffer state /\
    lastSequence state' = lastSequence state /\
    droppedChunks state' = droppedChunks state /\
    lateChunks state' = lateChunks state.
Proof.
  intros Hne. destruct message as [m|m|m|m|m|m|ty]; cbn [handleMessage];
    try (eexists; repeat split; reflexivity).
  - destruct (pendingSyncT1 state); [|eexists; repeat split; reflexivity].
    match goal with |- context [if ?c then _ else _] => destruct c end;
      eexists; (split; [reflexivity|]).
    + pose proof (sendReady_frame
        (set_pendingSyncT1 None
           (set_sync (processSyncResponse m (sync state) now1 now2 now3) state)))
        as (Hb & _ & Hq & Hd & Hl & _).
      rewrite Hb, Hq, Hd, Hl. repeat split; reflexivity.
    + repeat split; reflexivity.
  - exfalso. by apply (Hne m).
Qed.

(** One message of any kind on a state with a short buffer. *)
Lemma handleMessage_step (message : Message) (state : ClientState) (now1 now2 now3 : Q) :
  shortBuffer (buffer state) ->
  exists state',
    handleMessage message state now1 now2 now3 = Some state' /\
    (length (buffer state') <= S (length (buffer state)))%nat /\
    (bufferMs (buffer state) <= inject_Z (Config.maxBufferMs Config.CONFIG) ->
     bufferMs (buffer state') <= inject_Z (Config.maxBufferMs Config.CONFIG)) /\
    (StronglySorted byPlayTime (buffer state) ->
     StronglySorted byPlayTime (buffer state')) /\
    (forall b, b ∈ buffer state' ->
       b ∈ buffer state \/
       (message = MAudioChunk (chunk b) /\ now1 <= playTime b)).
Proof.
  intros Hshort.
  destruct (classic_audio message) as [[chunk ->]|Hne].
  - destruct (handleAudioChunk_step chunk state now1 Hshort)
      as (state' & Heq & _ & Hlen & Hspan & Hsorted & Hin & _).
    exists state'. cbn [handleMessage]. repeat split; auto.
    intros b Hb. destruct (Hin b Hb) as [H|[-> H]]; [by left|right].
    split; [reflexivity|exact H].
  - destruct (handleMessage_other message state now1 now2 now3 Hne)
      as (state' & Heq & Hb & _).
    exists state'. rewrite Hb. repeat split; auto.
Qed.

(** Any sequence of messages on a state whose buffer leaves room for
    them: the handlers return, and keep the span bound and the order. *)
Lemma handleMessages_run (inputs : list (Message * (Q * Q * Q))) :
  forall state,
    (Z.of_nat (length (buffer state) + length inputs) < 2 ^ 31)%Z ->
    exists state',
      handleMessages inputs state = Some state' /\
      (length (buffer state') <= length (buffer state) + length inputs)%nat /\
      (bufferMs (buffer state) <= inject_Z (Config.maxBufferMs Config.CONFIG) ->
       bufferMs (buffer state') <= inject_Z (Config.maxBufferMs Config.CONFIG)) /\
      (StronglySorted byPlayTime (buffer state) ->
       StronglySorted byPlayTime (buffer state')) /\
      (forall b, b ∈ buffer state' ->
         b ∈ buffer state \/
         exists now1 now2 now3,
           (MAudioChunk (chunk b), (now1, now2, now3)) ∈ inputs /\ now1 <= playTime b).
Proof.
  induction inputs as [|[message [[now1 now2] now3]] rest IH]; intros state Hroom.
  - exists state. cbn. repeat split; auto. lia.
  - cbn [length] in Hroom.
    destruct (handleMessage_step message state now1 now2 now3)
      as (state1 & Heq & Hlen & Hspan & Hsorted & Hin); [unfold shortBuffer; lia|].
    destruct (IH state1) as (state' & Heq' & Hlen' & Hspan' & Hsorted' & Hin'); [lia|].
    exists state'. cbn [handleMessages]. rewrite Heq.
    split; [exact Heq'|]. split; [cbn [length]; lia|].
    split; [auto|]. split; [auto|].
    intros b Hb. destruct (Hin' b Hb) as [Hb1|(n1 & n2 & n3 & Hmem & Hle)].
    + destruct (Hin b Hb1) as [Hb0|[-> Hle]]; [by left|right].
      exists now1, now2, now3. split; [apply list_elem_of_here|exact Hle].
    + right. exists n1, n2, n3. split; [by apply list_elem_of_further|exact Hle].
Qed.

(** C10. An audio chunk that arrives while the sink is not synced leaves
    the whole client state as it was: [handleAudioChunk] returns the
    state it was given, so the buffer, [lastSequence], [droppedChunks]
    and [lateChunks] are untouched and no counter records the chunk. *)
Theorem handleAudioChunk_unsynced_unchanged
    (chunk : AudioChunk) (state : ClientState) (now1 now2 now3 : Q) :
  isSynced (sync state) = false ->
  handleAudioChunk chunk state now1 = Some state /\
  handleMessage (MAudioChunk chunk) state now1 now2 now3 = Some state.
Proof.
  intros Hsync. cbn [handleMessage]. unfold handleAudioChunk.
  rewrite Hsync. cbn [negb]. split; reflexivity.
Qed.

Lemma handleAudioChunk_unsynced_unchanged_witness :
  let chunk := {| timestamp := 100; sequence := 7; data := [] |} in
  handleAudioChunk chunk (initialState None) 5 = Some (initialState None) /\
  handleMessage (MAudioChunk chunk) (initialState None) 5 5 5 = Some (initialState None).
Proof.
  intros chunk.
  apply (handleAudioChunk_unsynced_unchanged chunk (initialState None) 5 5 5).
  reflexivity.
Defined.




(** Scenario 4 of the specification: a chunk whose play time lies 5 ms
    before the clock reading is not inserted, and [lateChunks] becomes 1. *)
Example scenario_late_arrival :
  exists state',
    handleAudioChunk {| timestamp := 0; sequence := 0; data := [] |} syncedSink 65
      = Some state' /\
    playTime (newFrame {| timestamp := 0; sequence := 0; data := [] |} syncedSink) == 65 - 5 /\
    buffer state' = [] /\ lateChunks state' = 1%Z /\ droppedChunks state' = 0%Z.
Proof.
  eexists. split; [vm_compute; reflexivity|].
  repeat split; vm_compute; reflexivity.
Qed.

(** Every frame found in the buffer after any sequence of messages was
    either there at the start or arrived in an audio chunk whose clock
    reading was not above the frame's play time. *)
Lemma frames_not_late_at_insertion
    (inputs : list (Message * (Q * Q * Q))) (state : ClientState) :
  (Z.of_nat (length (buffer state) + length inputs) < 2 ^ 31)%Z ->
  exists state',
    handleMessages inputs state = Some state' /\
    forall b, b ∈ buffer state' ->
      b ∈ buffer state \/
      exists now1 now2 now3,
        (MAudioChunk (chunk b), (now1, now2, now3)) ∈ inputs /\ now1 <= playTime b.
Proof.
  intros Hroom.
  destruct (handleMessages_run inputs state Hroom) as (state' & Heq & _ & _ & _ & Hin).
  exists state'. split; [exact Heq|exact Hin].
Qed.

Lemma lastOf_cons (lastSeq seq : Z) (rest : list Z) :
  lastOf lastSeq (seq :: rest) = lastOf seq rest.
Proof.
  unfold lastOf. destruct rest as [|seq' rest]; [reflexivity|].
  change (last (seq :: seq' :: rest)) with (last (seq' :: rest)).
  destruct (last (seq' :: rest)) eqn:E; [reflexivity|].
  apply last_None in E. discriminate.
Qed.

(** C6, as the code has it. Over any stream of audio chunks that a synced
    sink processes, [lastSequence] ends as the sequence number of the last
    chunk, and [droppedChunks] grows by the sum of the positive gaps
    [seq - lastSeq - 1] (a gap that is not positive adds nothing) plus the
    number of frames the overflow loop evicted, which is the number of
    chunks that were not late less the growth of the buffer. *)
Theorem droppedChunks_counts_positive_gaps (chunks : list (AudioChunk * Q)) :
  forall state,
    isSynced (sync state) = true ->
    (Z.of_nat (length (buffer state) + length chunks) < 2 ^ 31)%Z ->
    exists state',
      handleMessages (audioInputs chunks) state = Some state' /\
      lastSequence state' = lastOf (lastSequence state) (map (fun c => sequence (fst c)) chunks) /\
      (droppedChunks state'
       = droppedChunks state
         + positiveGaps (lastSequence state) (map (fun c => sequence (fst c)) chunks)
         + (Z.of_nat (length (buffer state) + length chunks)
            - (lateChunks state' - lateChunks state)
            - Z.of_nat (length (buffer state'))))%Z.
Proof.
  induction chunks as [|[chunk currentTime] rest IH]; intros state Hsync Hroom.
  - exists state. cbn. repeat split; try reflexivity. lia.
  - cbn [length] in Hroom.
    destruct (handleAudioChunk_step chunk state currentTime)
      as (state1 & Heq & Hs & Hlen & _ & _ & _ & Hcount); [unfold shortBuffer; lia|].
    destruct (Hcount Hsync) as [Hseq Hdropped].
    destruct (IH state1) as (state' & Heq' & Hseq' & Hdropped'); [by rewrite Hs|lia|].
    exists state'. cbn [audioInputs map handleMessages handleMessage fst].
    rewrite Heq. fold (audioInputs rest).
    split; [exact Heq'|]. split.
    + rewrite lastOf_cons, Hseq', Hseq. reflexivity.
    + cbn [positiveGaps length]. rewrite Hdropped', Hseq. lia.
Qed.

Lemma droppedChunks_counts_positive_gaps_witness :
  let chunks := [({| timestamp := 1000; sequence := 0; data := [] |}, 0);
                 ({| timestamp := 1020; sequence := 4; data := [] |}, 0);
                 ({| timestamp := 1040; sequence := 2; data := [] |}, 0)] in
  exists state',
    handleMessages (audioInputs chunks) syncedSink = Some state' /\
    lastSequence state' = lastOf (lastSequence syncedSink) (map (fun c => sequence (fst c)) chunks) /\
    (droppedChunks state'
     = droppedChunks syncedSink
       + positiveGaps (lastSequence syncedSink) (map (fun c => sequence (fst c)) chunks)
       + (Z.of_nat (length (buffer syncedSink) + length chunks)
          - (lateChunks state' - lateChunks syncedSink)
          - Z.of_nat (length (buffer state'))))%Z.
Proof.
  intros chunks.
  apply (droppedChunks_counts_positive_gaps chunks syncedSink).
  - reflexivity.
  - simpl. lia.
Defined.

(** Scenario 3 of the specification: frames 0..9 and 20..29 arrive on
    time; the positive gap of 10 is the whole of the dropped count. *)
Example scenario_lost_chunks :
  positiveGaps (-1) (map Z.of_nat (seq 0 10 ++ seq 20 10)) = 10%Z /\
  lastOf (-1) (map Z.of_nat (seq 0 10 ++ seq 20 10)) = 29%Z.
Proof. split; reflexivity. Qed.

(** C6 as stated fails for a gap that is not positive: after chunk 5 the
    chunk 3 has [seq <> lastSeq + 1] and [lastSeq >= 0], yet nothing is
    added to the counter, where the claim adds [seq - lastSeq - 1 = -3].
    Nor is the counter the sum of the gaps alone: 20 consecutive chunks,
    20 ms apart, have no gap and leave it at 9, the frames the overflow
    loop evicted. *)
Lemma negative_gap_counterexample :
  (let state := set_lastSequence 5 syncedSink in
   let chunk := {| timestamp := 1000; sequence := 3; data := [] |} in
   exists state',
     handleAudioChunk chunk state 0 = Some state' /\
     isSynced (sync state) = true /\
     (0 <= lastSequence state)%Z /\
     sequence chunk <> (lastSequence state + 1)%Z /\
     lastSequence state' = 3%Z /\
     droppedChunks state' = droppedChunks state /\
     droppedChunks state'
       <> (droppedChunks state + (sequence chunk - lastSequence state - 1))%Z) /\
  (let chunks :=
     map (fun i => ({| timestamp := inject_Z (1000 + 20 * Z.of_nat i);
                       sequence := Z.of_nat i; data := [] |}, 0)) (seq 0 20) in
   exists state',
     handleMessages (audioInputs chunks) syncedSink = Some state' /\
     positiveGaps (lastSequence syncedSink) (map (fun c => sequence (fst c)) chunks) = 0%Z /\
     droppedChunks syncedSink = 0%Z /\
     droppedChunks state' = 9%Z).
Proof.
  split.
  - intros state chunk. eexists. split; [vm_compute; reflexivity|].
    repeat split; try (vm_compute; congruence).
  - intros chunks. eexists. split; [vm_compute; reflexivity|].
    repeat split; vm_compute; reflexivity.
Qed.



(** Scenario 5 of the specification: 20 frames, 20 ms apart and all in
    the future, leave a buffer of span 200 ms; the 9 frames popped from
    the front are counted as dropped. *)
Example scenario_overflow_trim :
  let chunks :=
    map (fun i => ({| timestamp := inject_Z (1000 + 20 * Z.of_nat i);
                      sequence := Z.of_nat i; data := [] |}, 0)) (seq 0 20) in
  exists state',
    handleMessages (audioInputs chunks) syncedSink = Some state' /\
    bufferMs (buffer state') == 200 /\
    map (fun b => sequence (chunk b)) (buffer state') = map Z.of_nat (seq 9 11) /\
    droppedChunks state' = 9%Z /\ lateChunks state' = 0%Z.
Proof.
  intros chunks. eexists. split; [vm_compute; reflexivity|].
  repeat split; vm_compute; reflexivity.
Qed.

(** C3, as the code has it. After any sequence of messages on a sorted
    buffer the handlers have returned and the buffer is sorted by
    ascending [playTime]; and an insertion into it puts the frame behind
    all frames with a smaller [playTime] and in front of all others, so a
    frame goes in front of the buffered frames of equal [playTime],
    whatever their sequence numbers. *)
Theorem buffer_sorted_after_insertions
    (inputs : list (Message * (Q * Q * Q))) (state : ClientState) (item : BufferedChunk) :
  StronglySorted byPlayTime (buffer state) ->
  (Z.of_nat (length (buffer state) + length inputs) < 2 ^ 31)%Z ->
  exists state',
    handleMessages inputs state = Some state' /\
    StronglySorted byPlayTime (buffer state') /\
    exists l1 l2,
      buffer state' = l1 ++ l2 /\
      insertSorted (buffer state') item = Some (l1 ++ item :: l2) /\
      Forall (fun b => playTime b < playTime item) l1 /\
      Forall (fun b => playTime item <= playTime b) l2 /\
      StronglySorted byPlayTime (l1 ++ item :: l2).
Proof.
  intros Hsorted Hroom.
  destruct (handleMessages_run inputs state Hroom)
    as (state' & Heq & Hlen & _ & Hsorted' & _).
  exists state'. split; [exact Heq|]. split; [auto|].
  apply insertSorted_sorted; [unfold shortBuffer; lia|auto].
Qed.

Lemma buffer_sorted_after_insertions_witness :
  let inputs := audioInputs [({| timestamp := 1040; sequence := 2; data := [] |}, 0);
                             ({| timestamp := 1000; sequence := 0; data := [] |}, 0);
                             ({| timestamp := 1020; sequence := 1; data := [] |}, 0)] in
  let item := {| chunk := {| timestamp := 1020; sequence := 3; data := [] |};
                 playTime := 1080 |} in
  exists state',
    handleMessages inputs syncedSink = Some state' /\
    StronglySorted byPlayTime (buffer state') /\
    exists l1 l2,
      buffer state' = l1 ++ l2 /\
      insertSorted (buffer state') item = Some (l1 ++ item :: l2) /\
      Forall (fun b => playTime b < playTime item) l1 /\
      Forall (fun b => playTime item <= playTime b) l2 /\
      StronglySorted byPlayTime (l1 ++ item :: l2).
Proof.
  intros inputs item.
  apply (buffer_sorted_after_insertions inputs syncedSink item).
  - constructor.
  - simpl. lia.
Defined.

(** C3 as stated fails on ties: two chunks with the same timestamp get
    the same [playTime], and the second to arrive is inserted in front of
    the first, so the buffer holds sequence 1 before sequence 0. *)
Lemma ties_counterexample :
  let chunks := [({| timestamp := 1000; sequence := 0; data := [] |}, 0);
                 ({| timestamp := 1000; sequence := 1; data := [] |}, 0)] in
  exists state',
    handleMessages (audioInputs chunks) syncedSink = Some state' /\
    map (fun b => sequence (chunk b)) (buffer state') = [1; 0]%Z /\
    StronglySorted byPlayTime (buffer state') /\
    ~ tiesBySequence (buffer state').
Proof.
  intros chunks. eexists. split; [vm_compute; reflexivity|].
  split; [vm_compute; reflexivity|]. split.
  - repeat constructor; unfold byPlayTime, Qle; simpl; lia.
  - intros Hties.
    specialize (Hties 0%nat 1%nat _ _ ltac:(lia) eq_refl eq_refl).
    cbn in Hties. assert (H : (1 <= 0)%Z) by (apply Hties; reflexivity). lia.
Qed.

End ClientFacts.

(* ===================================================================== *)
(** * The session of the sink and the descriptor (client.ts) *)
(* ===================================================================== *)
Section SessionFacts.
Import Protocol Sync Client.
Local Open Scope Q_scope.




End SessionFacts.

(* ===================================================================== *)
(** * Properties of the framer (audio.ts) *)
(* ===================================================================== *)
Section AudioFacts.
Import Audio.

Variable chunkSize : nat.
Hypothesis chunkSize_pos : 0 < chunkSize.

(** The inner loop ends within [length buffer] iterations, cuts full
    blocks off the front and leaves less than a block. *)
Lemma sliceLoop_spec (fuel : nat) :
  forall buffer : list byte,
    length buffer <= fuel ->
    exists blocks rest,
      sliceLoop fuel buffer chunkSize = Some (blocks, rest) /\
      concat blocks ++ rest = buffer /\
      Forall (fun b => length b = chunkSize) blocks /\
      length rest < chunkSize.
Proof.
  induction fuel as [|fuel IH]; intros buffer Hfuel; cbn [sliceLoop];
    destruct (chunkSize <=? length buffer) eqn:E.
  - apply Nat.leb_le in E. lia.
  - apply Nat.leb_gt in E. exists [], buffer. repeat split; auto.
  - apply Nat.leb_le in E.
    destruct (IH (drop chunkSize buffer)) as (blocks & rest & Heq & Hcat & Hall & Hrest).
    { rewrite length_drop. lia. }
    rewrite Heq. exists (take chunkSize buffer :: blocks), rest.
    split; [reflexivity|]. split; [|split; [|exact Hrest]].
    + cbn [concat]. rewrite <- app_assoc, Hcat. apply take_drop.
    + constructor; [|exact Hall]. rewrite length_take. lia.
  - apply Nat.leb_gt in E. exists [], buffer. repeat split; auto.
Qed.

(** The generator body: full blocks, then at most one shorter block that
    is not empty; nothing is lost and nothing reordered. *)
Lemma readLoop_spec (reads : list (list byte)) :
  forall buffer : list byte,
    length buffer < chunkSize ->
    exists full tail,
      readLoop reads buffer chunkSize = Some (full ++ tail) /\
      concat (full ++ tail) = buffer ++ concat reads /\
      Forall (fun b => length b = chunkSize) full /\
      (tail = [] \/ exists b, tail = [b] /\ 0 < length b < chunkSize).
Proof.
  induction reads as [|value reads IH]; intros buffer Hbuf; cbn [readLoop].
  - destruct (0 <? length buffer) eqn:E.
    + apply Nat.ltb_lt in E. exists [], [buffer]. cbn.
      rewrite !app_nil_r. repeat split; auto. right. exists buffer. auto.
    + apply Nat.ltb_ge in E. exists [], []. cbn.
      destruct buffer; [|cbn in E; lia]. repeat split; auto.
  - destruct (sliceLoop_spec (length (buffer ++ value)) (buffer ++ value))
      as (blocks & rest & Heq & Hcat & Hall & Hrest); [lia|].
    rewrite Heq.
    destruct (IH rest Hrest) as (full & tail & Heq' & Hcat' & Hall' & Htail).
    rewrite Heq'. exists (blocks ++ full), tail.
    split; [by rewrite app_assoc|]. split; [|split; [|exact Htail]].
    + rewrite <- app_assoc, concat_app, Hcat'. cbn [concat].
      rewrite !app_assoc. by rewrite Hcat.
    + apply Forall_app. auto.
Qed.

(** The blocks of a whole stream of [L] bytes: [L / chunkSize] full
    blocks and, when [L mod chunkSize] is not 0, one last block of that
    many bytes; their concatenation is the stream. *)
Lemma chunkStream_blocks (reads : list (list byte)) :
  let L := length (concat reads) in
  exists full tail,
    chunkStream reads chunkSize = Some (full ++ tail) /\
    concat (full ++ tail) = concat reads /\
    Forall (fun b => length b = chunkSize) full /\
    length full = L / chunkSize /\
    length (concat tail) = L mod chunkSize /\
    (tail = [] \/ exists b, tail = [b] /\ 0 < length b < chunkSize).
Proof.
  intros L. unfold chunkStream.
  destruct (readLoop_spec reads []) as (full & tail & Heq & Hcat & Hall & Htail);
    [cbn; lia|].
  cbn [app] in Hcat. exists full, tail.
  split; [exact Heq|]. split; [exact Hcat|]. split; [exact Hall|].
  assert (Hlen : L = chunkSize * length full + length (concat tail)).
  { unfold L. rewrite <- Hcat, concat_app, length_app. f_equal.
    clear -Hall. induction Hall as [|b full Hb _ IH]; cbn [concat length].
    - lia.
    - rewrite length_app, IH, Hb. lia. }
  assert (Hsmall : length (concat tail) < chunkSize).
  { destruct Htail as [->|(b & -> & Hb)]; cbn; [lia|].
    rewrite app_nil_r. lia. }
  split; [by apply (Nat.div_unique _ _ _ _ Hsmall Hlen)|].
  split; [by apply (Nat.mod_unique _ _ _ _ Hsmall Hlen)|exact Htail].
Qed.

End AudioFacts.

(* ===================================================================== *)
(** * Properties of the source (server.ts) *)
(* ===================================================================== *)
Section ServerFacts.
Import Protocol Server.

Lemma payloads_of_clients (pcmData : list byte) (now_ : Q) (sequence : Z)
    (wsId : string) (l : list (string * Client)) :
  let encoded := MAudioChunk {| timestamp := now_; Protocol.sequence := sequence;
                                data := pcmData |} in
  payloadsTo wsId
    (omap (fun client => if isReady client then Some (ws client, encoded) else None) l.*2)
  = omap (fun kc => if isReady kc.2 && bool_decide (ws kc.2 = wsId)
                    then Some pcmData else None) l.
Proof.
  intros encoded. unfold payloadsTo.
  induction l as [|[k client] l IH]; [reflexivity|].
  cbn [fmap list_fmap omap list_omap snd]. cbn [fmap list_fmap omap list_omap] in IH.
  destruct (isReady client); cbn [andb omap list_omap].
  - destruct (decide (ws client = wsId)) as [Heq|Hne].
    + rewrite bool_decide_eq_true_2 by exact Heq. cbn. by rewrite IH.
    + rewrite bool_decide_eq_false_2 by exact Hne. cbn. exact IH.
  - exact IH.
Qed.

Lemma ready_payloads (pcmData : list byte) (wsId : string) (m : gmap string Client) :
  (forall k client, m !! k = Some client -> ws client = k) ->
  omap (fun kc : string * Client =>
          if isReady kc.2 && bool_decide (ws kc.2 = wsId) then Some pcmData else None)
       (map_to_list m)
  = match m !! wsId with
    | Some client => if isReady client then [pcmData] else []
    | None => []
    end.
Proof.
  induction m as [|i x m Hi IH] using map_ind; intros Hkeyed.
  - by rewrite map_to_list_empty, lookup_empty.
  - assert (Hm : forall k client, m !! k = Some client -> ws client = k).
    { intros k client Hk. apply Hkeyed. rewrite lookup_insert_ne; [exact Hk|].
      intros ->. congruence. }
    specialize (IH Hm).
    assert (Hx : ws x = i) by (apply Hkeyed, lookup_insert_eq).
    pose proof (omap_Permutation
      (fun kc : string * Client =>
         if isReady kc.2 && bool_decide (ws kc.2 = wsId) then Some pcmData else None)
      _ _ (map_to_list_insert m i x Hi)) as Hperm.
    cbn [omap list_omap snd] in Hperm. rewrite IH in Hperm.
    destruct (decide (i = wsId)) as [->|Hne].
    + rewrite lookup_insert_eq. rewrite Hi in Hperm.
      rewrite bool_decide_eq_true_2, andb_true_r in Hperm by exact Hx.
      destruct (isReady x).
      * by apply Permutation_singleton_r.
      * by apply Permutation_nil_r.
    + rewrite lookup_insert_ne by exact Hne.
      rewrite bool_decide_eq_false_2, andb_false_r in Hperm by congruence.
      destruct (m !! wsId) as [client|]; [destruct (isReady client)|].
      * by apply Permutation_singleton_r.
      * by apply Permutation_nil_r.
      * by apply Permutation_nil_r.
Qed.

(** One broadcast hands the block to the socket [wsId] exactly when the
    client registered under it is ready. *)
Lemma broadcast_payloads (pcmData : list byte) (state : ServerState) (now_ : Q)
    (wsId : string) :
  wellKeyed state ->
  payloadsTo wsId (broadcast pcmData state now_).2
  = if readyIn state wsId then [pcmData] else [].
Proof.
  intros Hkeyed. unfold broadcast. cbn [snd clients set_sequence].
  rewrite payloads_of_clients, ready_payloads by exact Hkeyed.
  unfold readyIn. destruct (clients state !! wsId); reflexivity.
Qed.

Lemma payloadsTo_app (wsId : string) (out1 out2 : Sends) :
  payloadsTo wsId (out1 ++ out2) = payloadsTo wsId out1 ++ payloadsTo wsId out2.
Proof. apply omap_app. Qed.

(** The loop over the blocks, while the source runs: a ready socket is
    handed every block, in order; any other socket none. *)
Lemma streamLoop_payloads (blocks : list (list byte)) (clock : nat -> Q) (wsId : string) :
  forall state k,
    isRunning state = true -> wellKeyed state ->
    payloadsTo wsId (streamLoop blocks state clock k).2
    = if readyIn state wsId then blocks else [].
Proof.
  induction blocks as [|pcmData rest IH]; intros state k Hrun Hkeyed.
  - cbn. by destruct (readyIn state wsId).
  - cbn [streamLoop]. rewrite Hrun. cbn [negb].
    pose proof (broadcast_payloads pcmData state (clock k) wsId Hkeyed) as Hb.
    destruct (broadcast pcmData state (clock k)) as [state1 out1] eqn:E1.
    assert (Hst : state1 = set_sequence (sequence state + 1) state).
    { unfold broadcast in E1. by inversion E1. }
    specialize (IH state1 (S k)).
    destruct (streamLoop rest state1 clock (S k)) as [state2 out2].
    cbn [snd] in *. rewrite payloadsTo_app, Hb, IH by (subst state1; auto).
    subst state1. unfold readyIn. cbn [clients set_sequence].
    by destruct (clients state !! wsId) as [c|]; [destruct (isReady c)|].
Qed.

Lemma bytesPerChunk_value : Z.to_nat (Config.bytesPerChunk Config.CONFIG) = 3840.
Proof. reflexivity. Qed.

(** C2, as the code has it. For a capture stream of [L] bytes the source
    hands a sink that is ready throughout the whole stream, in source
    order: [L / bytesPerChunk] blocks of [bytesPerChunk] bytes and, when
    [L mod bytesPerChunk] is not 0, a last block of that many bytes; the
    bytes emitted are [L] in all. *)
Theorem processAudioStream_emits_whole_stream
    (reads : list (list byte)) (state : ServerState) (clock : nat -> Q) (wsId : string) :
  is_Some (capture state) -> isRunning state = true ->
  wellKeyed state -> readyIn state wsId = true ->
  let L := length (concat reads) in
  let bytesPerChunk := Z.to_nat (Config.bytesPerChunk Config.CONFIG) in
  exists state' out full tail,
    processAudioStream state reads clock = Some (state', out) /\
    payloadsTo wsId out = full ++ tail /\
    concat (payloadsTo wsId out) = concat reads /\
    length (concat (payloadsTo wsId out)) = L /\
    Forall (fun b => length b = bytesPerChunk) full /\
    length full = L / bytesPerChunk /\
    length (concat tail) = L mod bytesPerChunk /\
    (tail = [] \/ exists b, tail = [b] /\ 0 < length b < bytesPerChunk).
Proof.
  intros [cap Hcap] Hrun Hkeyed Hready L bytesPerChunk.
  assert (Hpos : 0 < bytesPerChunk).
  { unfold bytesPerChunk. rewrite bytesPerChunk_value. lia. }
  destruct (chunkStream_blocks bytesPerChunk Hpos reads)
    as (full & tail & Heq & Hcat & Hall & Hfull & Htail & Hshape).
  pose proof (streamLoop_payloads (full ++ tail) clock wsId state 0 Hrun Hkeyed) as Hpay.
  rewrite Hready in Hpay.
  unfold processAudioStream. rewrite Hcap. fold bytesPerChunk. rewrite Heq.
  destruct (streamLoop (full ++ tail) state clock 0) as [state' out].
  cbn [snd] in Hpay.
  exists (stopCapture state'), out, full, tail.
  split; [reflexivity|]. rewrite Hpay. split; [reflexivity|].
  split; [exact Hcat|]. split; [by rewrite Hcat|].
  repeat split; auto.
Qed.

Lemma processAudioStream_emits_whole_stream_witness :
  let reads := [[x01; x02]; [x03]] in
  exists state' out full tail,
    processAudioStream sourceWithReadySink reads (fun _ => 0%Q) = Some (state', out) /\
    payloadsTo "a" out = full ++ tail /\
    concat (payloadsTo "a" out) = concat reads /\
    length (concat (payloadsTo "a" out)) = length (concat reads) /\
    Forall (fun b => length b = Z.to_nat (Config.bytesPerChunk Config.CONFIG)) full /\
    length full = length (concat reads) / Z.to_nat (Config.bytesPerChunk Config.CONFIG) /\
    length (concat tail) = length (concat reads) mod Z.to_nat (Config.bytesPerChunk Config.CONFIG) /\
    (tail = [] \/ exists b, tail = [b] /\
                            0 < length b < Z.to_nat (Config.bytesPerChunk Config.CONFIG)).
Proof.
  intros reads.
  apply (processAudioStream_emits_whole_stream reads sourceWithReadySink (fun _ => 0%Q) "a").
  - eexists. reflexivity.
  - reflexivity.
  - intros k client. unfold sourceWithReadySink. cbn.
    rewrite lookup_insert_eq. cbn. rewrite insert_insert_eq.
    intros Hk. apply lookup_insert_Some in Hk as [[<- <-]|[_ Hk]]; [reflexivity|].
    by rewrite lookup_empty in Hk.
  - reflexivity.
Defined.

(** C2 as stated fails when the stream is not a whole number of blocks:
    a stream of 3 bytes reaches the ready sink as one 3-byte chunk, where
    [floor(3 / 3840) * 3840] is 0. *)
Lemma partial_block_counterexample :
  let reads := [[x01; x02]; [x03]] in
  let L := length (concat reads) in
  let bytesPerChunk := Z.to_nat (Config.bytesPerChunk Config.CONFIG) in
  exists state' out,
    processAudioStream sourceWithReadySink reads (fun _ => 0%Q) = Some (state', out) /\
    readyIn sourceWithReadySink "a" = true /\
    payloadsTo "a" out = [[x01; x02; x03]] /\
    length (concat (payloadsTo "a" out)) = 3 /\
    L / bytesPerChunk * bytesPerChunk = 0 /\
    length (concat (payloadsTo "a" out)) <> L / bytesPerChunk * bytesPerChunk.
Proof.
  intros reads L bytesPerChunk.
  eexists. eexists. split; [vm_compute; reflexivity|].
  repeat split; try (vm_compute; reflexivity).
  vm_compute. lia.
Qed.

Lemma step_wellKeyed (ev : Event) (state : ServerState) :
  wellKeyed state -> wellKeyed (step ev state).1.
Proof.
  intros Hkeyed k client. destruct ev as [i|i message t2 t3|i|pcmData t]; cbn.
  - intros Hk. apply lookup_insert_Some in Hk as [[<- <-]|[_ Hk]]; [reflexivity|eauto].
  - destruct message; cbn; eauto.
    destruct (clients state !! i) as [c|] eqn:Ei; cbn; eauto.
    intros Hk. apply lookup_insert_Some in Hk as [[<- <-]|[_ Hk]]; cbn; eauto.
  - intros Hk. apply lookup_delete_Some in Hk as [_ Hk]. eauto.
  - destruct (isRunning state); cbn; eauto.
Qed.

(** Every state the source reaches from its start keeps each client
    under the id of its socket. *)
Lemma run_wellKeyed (evs : list Event) :
  forall state, wellKeyed state -> wellKeyed (run evs state).1.
Proof.
  induction evs as [|ev rest IH]; intros state Hkeyed; [exact Hkeyed|].
  cbn [run]. pose proof (step_wellKeyed ev state Hkeyed) as H1.
  destruct (step ev state) as [state1 out1]. specialize (IH state1 H1).
  by destruct (run rest state1) as [state2 out2].
Qed.

(** An audio chunk leaves only in a broadcast, and only for the socket of
    a client of the table whose ready flag is true. *)
Lemma step_audio_ready (ev : Event) (state : ServerState) (wsId : string) (chunk : AudioChunk) :
  (wsId, MAudioChunk chunk) ∈ (step ev state).2 ->
  exists k client,
    clients state !! k = Some client /\ ws client = wsId /\ isReady client = true.
Proof.
  destruct ev as [i|i message u2 u3|i|pcmData t]; cbn.
  - intros Hin. apply list_elem_of_singleton in Hin. discriminate.
  - destruct message; cbn; try (intros Hin; by apply elem_of_nil in Hin).
    + intros Hin. apply list_elem_of_singleton in Hin. discriminate.
    + destruct (clients state !! i); cbn; intros Hin; by apply elem_of_nil in Hin.
  - intros Hin. by apply elem_of_nil in Hin.
  - destruct (isRunning state); cbn; [|intros Hin; by apply elem_of_nil in Hin].
    intros Hin. apply list_elem_of_omap in Hin as (client & Hclient & Hsend).
    apply list_elem_of_fmap in Hclient as ([k c] & -> & Hkc).
    apply elem_of_map_to_list in Hkc. cbn in Hsend.
    destruct (isReady c) eqn:Hready; [|discriminate].
    inversion Hsend; subst. exists k, c. auto.
Qed.

(** The ready flag of a socket is true after an event only when it was
    true before or the event is a [client_ready] message on that socket. *)
Lemma step_ready_origin (ev : Event) (state : ServerState) (wsId : string) :
  readyIn (step ev state).1 wsId = true ->
  readyIn state wsId = true \/ exists m u2 u3, ev = EMessage wsId (MClientReady m) u2 u3.
Proof.
  unfold readyIn. destruct ev as [i|i message u2 u3|i|pcmData t]; cbn.
  - destruct (decide (i = wsId)) as [->|Hne].
    + rewrite lookup_insert_eq. discriminate.
    + rewrite lookup_insert_ne by exact Hne. auto.
  - destruct message; cbn; auto.
    destruct (clients state !! i) as [c|] eqn:Ei; cbn; auto.
    destruct (decide (i = wsId)) as [->|Hne].
    + intros _. right. eauto.
    + rewrite lookup_insert_ne by exact Hne. auto.
  - destruct (decide (i = wsId)) as [->|Hne].
    + rewrite lookup_delete_eq. discriminate.
    + rewrite lookup_delete_ne by exact Hne. auto.
  - destruct (isRunning state); cbn; auto.
Qed.

(** A socket that is ready after a run of events was ready at its start or
    has sent [client_ready] during it. *)
Lemma run_ready_origin (evs : list Event) :
  forall state wsId,
    readyIn (run evs state).1 wsId = true ->
    readyIn state wsId = true \/
    exists m u2 u3, EMessage wsId (MClientReady m) u2 u3 ∈ evs.
Proof.
  induction evs as [|ev rest IH]; intros state wsId Hready; [by left|].
  cbn [run] in Hready.
  pose proof (step_ready_origin ev state wsId) as Hstep.
  destruct (step ev state) as [state1 out1]. specialize (IH state1 wsId).
  destruct (run rest state1) as [state2 out2]. cbn [fst] in *.
  destruct (IH Hready) as [H1|(m & u2 & u3 & Hin)].
  - destruct (Hstep H1) as [H0|(m & u2 & u3 & ->)]; [by left|right].
    exists m, u2, u3. apply list_elem_of_here.
  - right. exists m, u2, u3. by apply list_elem_of_further.
Qed.

(** C9. Whatever event the source handles, an audio chunk goes only to the
    socket of a client of the table whose ready flag is true; the ready
    flag of a socket is true after an event only when it was true before
    or the event is a [client_ready] message on that socket; a socket is
    registered with the flag false; a second [client_ready] changes
    nothing and sends nothing; and so, after any events [evs] from the
    start of the source, a block is broadcast to a socket only if that
    socket has sent [client_ready] among [evs]. *)
Theorem broadcast_only_to_ready
    (ev : Event) (state : ServerState) (wsId : string)
    (chunk : AudioChunk) (m1 m2 : ClientReady) (t2 t3 t2' t3' : Q)
    (evs : list Event) (now0 now_ : Q) (pcmData : list byte) :
  ((wsId, MAudioChunk chunk) ∈ (step ev state).2 ->
   exists k client,
     clients state !! k = Some client /\ ws client = wsId /\ isReady client = true) /\
  (readyIn (step ev state).1 wsId = true ->
   readyIn state wsId = true \/ exists m u2 u3, ev = EMessage wsId (MClientReady m) u2 u3) /\
  readyIn (open wsId state).1 wsId = false /\
  (let state1 := (handleMessage wsId (MClientReady m1) state t2 t3).1 in
   handleMessage wsId (MClientReady m2) state1 t2' t3' = (state1, [])) /\
  ((wsId, MAudioChunk chunk) ∈ (step (EBlock pcmData now_) (run evs (initialState now0)).1).2 ->
   readyIn (run evs (initialState now0)).1 wsId = true /\
   exists m u2 u3, EMessage wsId (MClientReady m) u2 u3 ∈ evs).
Proof.
  split; [apply step_audio_ready|]. split; [apply step_ready_origin|].
  split; [|split].
  - unfold readyIn. cbn. by rewrite lookup_insert_eq.
  - cbn. destruct (clients state !! wsId) as [c|] eqn:E; cbn.
    + rewrite lookup_insert_eq. cbn. by rewrite insert_insert_eq.
    + by rewrite E.
  - intros Hin. apply step_audio_ready in Hin as (k & client & Hk & Hws & Hready).
    assert (Hkeyed : wellKeyed (run evs (initialState now0)).1).
    { apply run_wellKeyed. intros k' c' Hk'. cbn in Hk'. by rewrite lookup_empty in Hk'. }
    assert (Hr : readyIn (run evs (initialState now0)).1 wsId = true).
    { unfold readyIn. rewrite <- Hws, (Hkeyed k client Hk), Hk. exact Hready. }
    split; [exact Hr|].
    destruct (run_ready_origin evs (initialState now0) wsId Hr) as [H0|H]; [|exact H].
    unfold readyIn in H0. cbn in H0. by rewrite lookup_empty in H0.
Qed.

Lemma broadcast_only_to_ready_witness :
  exists k client,
    clients sourceWithReadySink !! k = Some client /\ ws client = "a" /\
    isReady client = true.
Proof.
  apply (proj1 (broadcast_only_to_ready (EBlock [x01] 0) sourceWithReadySink "a"
                  {| timestamp := 0; Protocol.sequence := 0; data := [x01] |}
                  {| clientId := "client" |} {| clientId := "client" |} 0 0 0 0
                  [] 0 0 [])).
  vm_compute. apply list_elem_of_here.
Defined.

End ServerFacts.

(* ===================================================================== *)
(** * Properties of decoding (protocol.ts) and of the reader of the web sink *)
(* ===================================================================== *)
Section DecodeFacts.
Import Protocol WebClient.

Lemma byteValue_byteOf (z : Z) : (0 <= z < 256)%Z -> byteValue (byteOf z) = z.
Proof.
  intros Hz. unfold byteValue, byteOf.
  destruct (Byte.of_N (Z.to_N z)) as [b|] eqn:E.
  - cbn. apply Byte.to_of_N in E. lia.
  - apply Byte.of_N_None_iff in E. lia.
Qed.

(** The header byte of a short string passes the tests of [read] as a
    fixstr of its length. *)
Lemma fixstr_header_bits (n : nat) :
  n < 32 ->
  let b := (0xa0 + Z.of_nat n)%Z in
  (Z.land b 0xf0 =? 0x80)%Z = false /\ (b =? 0xde)%Z = false /\
  (Z.land b 0xe0 =? 0xa0)%Z = true /\ Z.to_nat (Z.land b 0x1f) = n.
Proof.
  intros Hn.
  do 32 (destruct n as [|n]; [vm_compute; repeat split|]).
  lia.
Qed.

Lemma read_fixstr (fuel : nat) (data utf8 rest : list byte) (offset : nat) :
  length utf8 < 32 ->
  drop offset data = fixstr utf8 ++ rest ->
  read (S fuel) data offset
  = Returned (VString utf8, (S offset + length utf8)%nat).
Proof.
  intros Hlen Hdrop.
  assert (Hhead : data !! offset = Some (byteOf (0xa0 + Z.of_nat (length utf8)))).
  { rewrite <- (Nat.add_0_r offset), <- lookup_drop, Hdrop. reflexivity. }
  destruct (fixstr_header_bits (length utf8) Hlen) as (H1 & H2 & H3 & H4).
  cbn [read]. unfold getUint8. rewrite Hhead. cbn [bindOutcome].
  rewrite byteValue_byteOf by lia. rewrite H1, H2, H3, H4.
  do 2 f_equal. unfold subarray.
  replace (S offset + length utf8 - S offset) with (length utf8) by lia.
  replace (S offset) with (offset + 1) by lia.
  rewrite <- drop_drop, Hdrop. cbn [fixstr app drop].
  by rewrite drop_0, take_app_length.
Qed.

(** [read] moves forward: the offset it returns lies behind the one it
    started from. *)
Lemma read_progress (data : list byte) (fuel : nat) :
  forall offset v offset',
    read fuel data offset = Returned (v, offset') -> offset < offset'.
Proof.
  induction fuel as [|fuel IH]; intros offset v offset'; [discriminate|].
  cbn [read].
  set (entries := fix entries (len offset : nat) (obj : list (Value * Value)) :=
         match len with
         | O => Returned (VObject obj, offset)
         | S len' =>
             let* kv := read fuel data offset in
             let* vv := read fuel data (snd kv) in
             entries len' (snd vv) (obj ++ [(fst kv, fst vv)])
         end).
  assert (Hentries : forall len o obj w o',
             entries len o obj = Returned (w, o') -> o <= o').
  { induction len as [|len IHlen]; intros o obj w o' H; cbn in H.
    - inversion H. lia.
    - destruct (read fuel data o) as [[k o1]| |] eqn:E1; try discriminate.
      cbn in H.
      destruct (read fuel data o1) as [[x o2]| |] eqn:E2; try discriminate.
      cbn in H. apply IH in E1. apply IH in E2. apply IHlen in H. lia. }
  unfold getUint8. destruct (data !! offset) as [b|]; [|discriminate].
  cbn [bindOutcome].
  repeat match goal with
         | |- context [if ?c then _ else _] => destruct c
         end;
    unfold getUint8, getUint, getFloat64;
    repeat match goal with
           | |- context [data !! ?o] => destruct (data !! o)
           | |- context [if ?c then _ else _] => destruct c
           end;
    cbn [bindOutcome]; intros H; try discriminate;
    try (apply Hentries in H; lia);
    try (inversion H; lia).
Qed.

(** With the fuel [decodeMsgPack] gives it, [read] comes to an end: it
    returns or throws. *)
Lemma read_finishes (data : list byte) (fuel : nat) :
  forall offset,
    0 < fuel -> length data < fuel + offset ->
    read fuel data offset <> Unfinished.
Proof.
  induction fuel as [|fuel IH]; intros offset Hpos Hfuel; [lia|].
  cbn [read].
  set (entries := fix entries (len offset : nat) (obj : list (Value * Value)) :=
         match len with
         | O => Returned (VObject obj, offset)
         | S len' =>
             let* kv := read fuel data offset in
             let* vv := read fuel data (snd kv) in
             entries len' (snd vv) (obj ++ [(fst kv, fst vv)])
         end).
  unfold getUint8. destruct (data !! offset) as [b|] eqn:Eb; [|discriminate].
  apply lookup_lt_Some in Eb.
  assert (Hentries : forall len o obj, offset < o -> entries len o obj <> Unfinished).
  { induction len as [|len IHlen]; intros o obj Ho; cbn; [discriminate|].
    destruct (read fuel data o) as [[k o1]| |] eqn:E1; cbn; try discriminate.
    - destruct (read fuel data o1) as [[x o2]| |] eqn:E2; cbn; try discriminate.
      + apply IHlen. apply read_progress in E1. apply read_progress in E2. lia.
      + apply read_progress in E1. exfalso. revert E2. apply IH; lia.
    - exfalso. revert E1. apply IH; lia. }
  cbn [bindOutcome].
  repeat match goal with
         | |- context [if ?c then _ else _] => destruct c
         end;
    unfold getUint8, getUint, getFloat64;
    repeat match goal with
           | |- context [data !! ?o] => destruct (data !! o)
           | |- context [if ?c then _ else _] => destruct c
           end;
    cbn [bindOutcome]; try discriminate; apply Hentries; lia.
Qed.

Lemma decodeMsgPack_finishes (data : list byte) : decodeMsgPack data <> Unfinished.
Proof.
  unfold decodeMsgPack.
  pose proof (read_finishes data (S (length data)) 0 ltac:(lia) ltac:(lia)) as H.
  destruct (read (S (length data)) data 0) as [[v o]| |]; cbn; congruence.
Qed.

(** C7, as the code has it.  [decodeMessage] is the decoder of the
    MessagePack library and a cast: it checks nothing itself.  Whatever
    decoder it is given, it returns the value the decoder returns and fails
    exactly when the decoder throws.  So when the decoder reads [data] as
    an object whose [type] is none of the six tags, [decodeMessage]
    returns that object as a message; it is [handleMessage] that meets
    it, and [ws.onmessage] leaves the state of the sink as it was (the
    message is logged and dropped). *)
Theorem decodeMessage_validates_nothing
    (decode : list byte -> Outcome Message) (data : list byte) (type : string)
    (state : Client.ClientState) (now1 now2 now3 : Q) :
  type ∉ knownTypes ->
  decode data = Returned (MOther type) ->
  decodeMessage decode data = Returned (MOther type) /\
  ClientReceive.onmessage decode data state now1 now2 now3 = Some state /\
  (forall (Obj : Type) (decoder : list byte -> Outcome Obj) (input : list byte),
     (forall value, decoder input = Returned value ->
                    decodeMessage decoder input = Returned value) /\
     (decodeMessage decoder input = Thrown <-> decoder input = Thrown)).
Proof.
  intros _ Hdecode. split; [exact Hdecode|]. split.
  - unfold ClientReceive.onmessage, decodeMessage. rewrite Hdecode. reflexivity.
  - intros Obj decoder input. split; [intros value H; exact H|reflexivity].
Qed.

(** A decoder that reads the MessagePack bytes of [{ type: "bogus" }] as
    that object. *)
Lemma decodeMessage_validates_nothing_witness :
  let data := taggedMap (String.list_byte_of_string "bogus") in
  let decode := readsAs data (MOther "bogus") in
  decodeMessage decode data = Returned (MOther "bogus") /\
  ClientReceive.onmessage decode data syncedSink 0 0 0 = Some syncedSink /\
  (forall (Obj : Type) (decoder : list byte -> Outcome Obj) (input : list byte),
     (forall value, decoder input = Returned value ->
                    decodeMessage decoder input = Returned value) /\
     (decodeMessage decoder input = Thrown <-> decoder input = Thrown)).
Proof.
  cbv zeta.
  apply (decodeMessage_validates_nothing
           (readsAs (taggedMap (String.list_byte_of_string "bogus")) (MOther "bogus"))
           (taggedMap (String.list_byte_of_string "bogus")) "bogus" syncedSink 0 0 0).
  - apply (bool_decide_eq_false_1 ("bogus" ∈ knownTypes)). vm_compute. reflexivity.
  - vm_compute. reflexivity.
Defined.

(** C7 as stated fails.  The bytes [81 a4 "type" a5 "bogus"] are the
    MessagePack map [{ type: "bogus" }], whose tag is unknown; with a
    decoder that reads them so, [decodeMessage] reports no failure: it
    returns the object as a message value. *)
Lemma unknown_tag_counterexample :
  let data := taggedMap (String.list_byte_of_string "bogus") in
  let decode := readsAs data (MOther "bogus") in
  ("bogus" ∉ knownTypes) /\
  decode data = Returned (MOther "bogus") /\
  decodeMessage decode data <> Thrown /\
  decodeMessage decode data = Returned (MOther "bogus").
Proof.
  cbv zeta. split; [|split; [|split]].
  - apply (bool_decide_eq_false_1 ("bogus" ∈ knownTypes)). vm_compute. reflexivity.
  - vm_compute. reflexivity.
  - vm_compute. discriminate.
  - vm_compute. reflexivity.
Qed.

(** The bytes of that counterexample, read by the MessagePack reader the
    repository has (that of the browser sink): the map [{ type: "bogus" }]. *)
Example bogus_bytes_are_a_map :
  decodeMsgPack (taggedMap (String.list_byte_of_string "bogus"))
  = Returned (VObject [(VString (String.list_byte_of_string "type"),
                        VString (String.list_byte_of_string "bogus"))]).
Proof. vm_compute. reflexivity. Qed.

End DecodeFacts.

(* ===================================================================== *)
(** * More on the estimator (sync.ts) *)
(* ===================================================================== *)
Section EstimatorFacts.
Import Protocol Sync.
Local Open Scope Q_scope.

(** The window of samples: a response appends its sample and keeps the
    last [syncSamples = 5], dropping the oldest first. *)
Theorem sample_window_bounded
    (response : SyncResponse) (state : SyncState) (now_t4 now_sample now_last : Q) :
  let state' := processSyncResponse response state now_t4 now_sample now_last in
  length (samples state') = Nat.min 5 (S (length (samples state))) /\
  exists older sample,
    samples state ++ [sample] = older ++ samples state' /\
    SyncSample.timestamp sample = now_sample /\
    length older = (S (length (samples state)) - 5)%nat.
Proof.
  intros state'. unfold state', processSyncResponse. cbn [samples].
  unfold slice_last. cbn [Config.syncSamples Config.CONFIG].
  set (all := samples state ++ [_]).
  assert (Hall : length all = S (length (samples state))).
  { unfold all. rewrite length_app. cbn. lia. }
  split.
  - rewrite length_drop. lia.
  - exists (take (length all - 5) all). eexists. split; [|split].
    + fold all. by rewrite take_drop.
    + reflexivity.
    + rewrite length_take. lia.
Qed.

(** The first exchange, in binary64.  With no earlier sample the window
    holds the new sample alone, and the estimator takes it as it is: the
    effective offset is the number the code computes for
    [((t2 - t1) + (t3 - t4)) / 2], with no weighting, the round-trip time
    is the number it computes for [(t4 - t1) - (t3 - t2)], the drift is 0
    and the state is synced. *)
Theorem first_exchange_offset
    (response : Sync64.SyncResponse) (state : Sync64.SyncState)
    (t4 now_sample now_last : Binary64.number) :
  Sync64.samples state = [] ->
  let t1 := Sync64.t1 response in
  let t2 := Sync64.t2 response in
  let t3 := Sync64.t3 response in
  let rtt := Binary64.sub (Binary64.sub t4 t1) (Binary64.sub t3 t2) in
  let offset :=
    Binary64.div (Binary64.add (Binary64.sub t2 t1) (Binary64.sub t3 t4)) (Binary64.ofZ 2) in
  let state' := Sync64.processSyncResponse response state t4 now_sample now_last in
  Sync64.samples state'
  = [{| Sync64.SyncSample.offset := offset; Sync64.SyncSample.rtt := rtt;
        Sync64.SyncSample.timestamp := now_sample |}] /\
  Sync64.offset state' = offset /\
  Sync64.roundTripTime state' = rtt /\
  Sync64.drift state' = Binary64.ofZ 0 /\
  Sync64.lastSyncTime state' = now_last /\
  Sync64.isSynced state' = true.
Proof.
  intros Hnone. cbv zeta. unfold Sync64.processSyncResponse. rewrite Hnone.
  repeat split.
Qed.

(** The exchange 1000.5, 1001.5, 1002, 1003.5 on a fresh state: offset
    -0.25 and round-trip time 2.5. *)
Lemma first_exchange_offset_witness :
  let state' :=
    Sync64.processSyncResponse dyadicExchange Sync64.createSyncState
                               (halves 2007) (halves 2007) (halves 2007) in
  rational (Sync64.offset state') == - (1 # 4) /\
  rational (Sync64.roundTripTime state') == 5 # 2 /\
  Sync64.drift state' = Binary64.ofZ 0 /\
  Sync64.isSynced state' = true.
Proof.
  cbv zeta.
  destruct (first_exchange_offset dyadicExchange Sync64.createSyncState
              (halves 2007) (halves 2007) (halves 2007) eq_refl)
    as (_ & Hoffset & Hrtt & Hdrift & _ & Hsynced).
  rewrite Hoffset, Hrtt. split; [vm_compute; reflexivity|].
  split; [vm_compute; reflexivity|]. split; [exact Hdrift|exact Hsynced].
Defined.

End EstimatorFacts.

(* ===================================================================== *)
(** * More on the sink (client.ts) *)
(* ===================================================================== *)
Section SinkFacts.
Import Protocol Sync Client ClientPlayback.
Local Open Scope Q_scope.

Lemma handleAudioChunk_sync (chunk : AudioChunk) (state state' : ClientState) (currentTime : Q) :
  handleAudioChunk chunk state currentTime = Some state' -> sync state' = sync state.
Proof.
  unfold handleAudioChunk.
  destruct (accountGap_frame chunk state) as (Hs & _).
  destruct (negb (isSynced (sync state))); [by intros [= <-]|].
  match goal with |- context [if ?c then _ else _] => destruct c end;
    [intros [= <-]; exact Hs|].
  destruct (insertSorted _ _) as [buffer'|]; [|discriminate].
  destruct (trimLoop _ _) as [buffer'' dropped]. intros [= <-]. exact Hs.
Qed.

Lemma handleMessage_keeps_synced (message : Message) (state state' : ClientState)
    (now1 now2 now3 : Q) :
  handleMessage message state now1 now2 now3 = Some state' ->
  isSynced (sync state) = true -> isSynced (sync state') = true.
Proof.
  destruct message as [m|m|m|m|m|m|ty]; cbn [handleMessage];
    try (intros [= <-]; auto; fail).
  - destruct (pendingSyncT1 state); [|intros [= <-]; auto].
    match goal with |- context [if ?c then _ else _] => destruct c end;
      intros [= <-] _; [|reflexivity].
    by destruct (sendReady_frame
      (set_pendingSyncT1 None (set_sync (processSyncResponse m (sync state) now1 now2 now3) state)))
      as (_ & -> & _).
  - intros H Hs. apply handleAudioChunk_sync in H. by rewrite H.
Qed.

(** Once synced, always synced: no sequence of messages takes [isSynced]
    back to false. *)
Theorem synced_never_regresses (inputs : list (Message * (Q * Q * Q))) :
  forall state state',
    handleMessages inputs state = Some state' ->
    isSynced (sync state) = true ->
    isSynced (sync state') = true.
Proof.
  induction inputs as [|[message [[now1 now2] now3]] rest IH]; intros state state' Hrun Hs.
  - cbn in Hrun. by inversion Hrun; subst.
  - cbn [handleMessages] in Hrun.
    destruct (handleMessage message state now1 now2 now3) as [state1|] eqn:E; [|discriminate].
    eapply IH; [exact Hrun|]. eapply handleMessage_keeps_synced; eauto.
Qed.

Lemma synced_never_regresses_witness :
  isSynced (sync syncedSink) = true.
Proof.
  apply (synced_never_regresses
           [(MOther "pong", (0, 0, 0));
            (MServerInfo {| sampleRate := 1; channels := 1; bitDepth := 1;
                            chunkDurationMs := 1; serverStartTime := 0 |}, (0, 0, 0))]
           syncedSink
           (set_serverInfo (Some {| sampleRate := 1; channels := 1; bitDepth := 1;
                                    chunkDurationMs := 1; serverStartTime := 0 |}) syncedSink));
    reflexivity.
Defined.

(** A sync response is used once: the response that answers a pending
    request clears the request, and a response that finds none pending
    leaves the state as it is. *)
Theorem sync_response_consumed_once
    (r1 r2 : SyncResponse) (state : ClientState) (a1 a2 a3 b1 b2 b3 : Q) :
  exists state1,
    handleMessage (MSyncResponse r1) state a1 a2 a3 = Some state1 /\
    pendingSyncT1 state1 = None /\
    (pendingSyncT1 state = None -> state1 = state) /\
    (is_Some (pendingSyncT1 state) ->
     sync state1 = processSyncResponse r1 (sync state) a1 a2 a3) /\
    handleMessage (MSyncResponse r2) state1 b1 b2 b3 = Some state1.
Proof.
  cbn [handleMessage]. destruct (pendingSyncT1 state) as [t|] eqn:E.
  - set (s1 := set_pendingSyncT1 None
                 (set_sync (processSyncResponse r1 (sync state) a1 a2 a3) state)).
    assert (Hsend : pendingSyncT1 (sendReady s1) = None /\ sync (sendReady s1) = sync s1).
    { unfold sendReady. destruct (ws s1) as [w|]; [destruct (isOpen w)|]; split; reflexivity. }
    match goal with |- context [if ?c then _ else _] => destruct c end;
      eexists; (split; [reflexivity|]).
    + destruct Hsend as [Hp Hs]. rewrite Hp, Hs.
      repeat split; try discriminate; reflexivity.
    + repeat split; try discriminate; reflexivity.
  - exists state. rewrite E. repeat split; auto. intros [x Hx]. discriminate.
Qed.

(** A request that cannot be sent is not pending: with no socket, or a
    socket that is not open, [performSync] changes nothing, so a response
    that arrives all the same is ignored. *)
Theorem unsent_request_not_pending
    (state : ClientState) (response : SyncResponse) (now_t1 now1 now2 now3 : Q) :
  match ws state with Some w => isOpen w = false | None => True end ->
  performSync state now_t1 = state /\
  sendReady state = state /\
  (pendingSyncT1 state = None ->
   handleMessage (MSyncResponse response) (performSync state now_t1) now1 now2 now3
     = Some state).
Proof.
  intros Hclosed. unfold performSync, sendReady. cbn [handleMessage].
  destruct (ws state) as [w|]; [rewrite Hclosed|];
    (repeat split; [intros Hp; by rewrite Hp]).
Qed.

Lemma unsent_request_not_pending_witness :
  performSync (initialState None) 5 = initialState None /\
  sendReady (initialState None) = initialState None /\
  (pendingSyncT1 (initialState None) = None ->
   handleMessage (MSyncResponse {| t1 := 5; t2 := 6; t3 := 7 |})
                 (performSync (initialState None) 5) 8 8 8
     = Some (initialState None)).
Proof.
  apply (unsent_request_not_pending (initialState None)). reflexivity.
Defined.

(** [client_ready] is sent on every sync response that answers a pending
    request until playback has started, and on none after: with the socket
    open, the response appends [client_ready] to what was sent exactly when
    [isPlaying] is false. *)
Theorem ready_sent_until_playing
    (response : SyncResponse) (state : ClientState) (w : WebSocket) (now1 now2 now3 : Q) :
  is_Some (pendingSyncT1 state) ->
  ws state = Some w -> isOpen w = true ->
  exists state',
    handleMessage (MSyncResponse response) state now1 now2 now3 = Some state' /\
    isSynced (sync state') = true /\
    ws state' = Some (if isPlaying state
                      then w
                      else ws_send (MClientReady {| clientId := "client" |}) w).
Proof.
  intros [t Ht] Hw Hopen. cbn [handleMessage]. rewrite Ht. cbn.
  destruct (isPlaying state); cbn.
  - eexists. split; [reflexivity|]. split; [reflexivity|exact Hw].
  - unfold sendReady. cbn. rewrite Hw, Hopen. eexists.
    split; [reflexivity|]. split; reflexivity.
Qed.

Lemma ready_sent_until_playing_witness :
  exists state',
    handleMessage (MSyncResponse {| t1 := 0; t2 := 1; t3 := 1 |}) openedSink 2 2 2
      = Some state' /\
    isSynced (sync state') = true /\
    ws state' = Some (if isPlaying openedSink
                      then {| readyState := OPEN; sent := [MSyncRequest {| req_t1 := 0 |}] |}
                      else ws_send (MClientReady {| clientId := "client" |})
                             {| readyState := OPEN; sent := [MSyncRequest {| req_t1 := 0 |}] |}).
Proof.
  apply (ready_sent_until_playing {| t1 := 0; t2 := 1; t3 := 1 |} openedSink
           {| readyState := OPEN; sent := [MSyncRequest {| req_t1 := 0 |}] |} 2 2 2).
  - eexists. reflexivity.
  - reflexivity.
  - reflexivity.
Defined.

(** An insertion loses and repeats nothing: whatever the order of the
    buffer, the result of [insertSorted] is a rearrangement of the item
    and the frames that were there. *)
Theorem insertSorted_permutation
    (buffer buffer' : list BufferedChunk) (item : BufferedChunk) :
  insertSorted buffer item = Some buffer' ->
  buffer' ≡ₚ item :: buffer /\ length buffer' = S (length buffer).
Proof.
  unfold insertSorted. destruct (search _ _ _ _ _) as [low|]; [|discriminate].
  intros [= <-]. split; [|apply splice_in_length].
  unfold splice_in. rewrite <- (take_drop low buffer) at 3.
  symmetry. apply Permutation_middle.
Qed.

Lemma insertSorted_permutation_witness :
  let b1 := {| chunk := {| timestamp := 0; sequence := 0; data := [] |}; playTime := 10 |} in
  let b2 := {| chunk := {| timestamp := 5; sequence := 1; data := [] |}; playTime := 15 |} in
  [b1; b2] ≡ₚ b2 :: [b1] /\ length [b1; b2] = S (length [b1]).
Proof.
  intros b1 b2. apply (insertSorted_permutation [b1] [b1; b2] b2).
  vm_compute. reflexivity.
Defined.

Lemma sub_self_within (x : Binary64.number) :
  is_Some (Binary64.value x) ->
  Binary64.le (Binary64.sub x x) (Binary64.ofZ (Config.maxBufferMs Config.CONFIG)) = true.
Proof.
  intros [q Hq]. destruct x as [[]|s| |s m e]; try discriminate; try reflexivity.
  unfold Binary64.sub, SpecFloat.SFsub. rewrite Z.sub_diag. reflexivity.
Qed.

Lemma sub_unbounded_above (x y : Binary64.number) :
  x = SpecFloat.S754_infinity false \/ x = SpecFloat.S754_nan ->
  Binary64.le (Binary64.sub x y) (Binary64.ofZ (Config.maxBufferMs Config.CONFIG)) = false.
Proof.
  intros [-> | ->]; destruct y as [[]|[]| |[] m e]; reflexivity.
Qed.

(** The overflow loop and the newest frame, on binary64 play times.  The
    loop removes frames from the front only and counts each.  It never
    removes the last frame of the buffer (the newest, the buffer being
    sorted) when the play time of that frame is finite: at the latest it
    stops when that frame is alone, its span being 0.  When that play time
    is [Infinity] or NaN, no span is within [maxBufferMs] and the loop
    removes every frame, the newest included. *)
Theorem overflow_keeps_finite_newest
    (buffer : list Client64.BufferedChunk) (newest : Client64.BufferedChunk)
    (droppedChunks : Z) :
  last buffer = Some newest ->
  (exists evicted,
     buffer = evicted ++ (Client64.trimLoop buffer droppedChunks).1 /\
     (Client64.trimLoop buffer droppedChunks).2
     = (droppedChunks + Z.of_nat (length evicted))%Z) /\
  (is_Some (Binary64.value (Client64.playTime newest)) ->
   last (Client64.trimLoop buffer droppedChunks).1 = Some newest) /\
  (Client64.playTime newest = SpecFloat.S754_infinity false
   \/ Client64.playTime newest = SpecFloat.S754_nan ->
   Client64.trimLoop buffer droppedChunks
   = ([], (droppedChunks + Z.of_nat (length buffer))%Z)).
Proof.
  revert droppedChunks.
  induction buffer as [|firstChunk rest IH]; intros droppedChunks Hlast; [discriminate|].
  cbn [Client64.trimLoop]. rewrite Hlast.
  destruct rest as [|second rest].
  - injection Hlast as <-. split; [|split].
    + destruct (Binary64.le _ _); cbn.
      * exists []. split; [reflexivity|]. cbn. lia.
      * exists [firstChunk]. split; [reflexivity|]. cbn. lia.
    + intros Hfinite. by rewrite sub_self_within.
    + intros Hnot. rewrite sub_unbounded_above by exact Hnot. cbn. do 2 f_equal.
  - assert (Hrest : last (second :: rest) = Some newest) by exact Hlast.
    destruct (IH (droppedChunks + 1)%Z Hrest) as ((evicted & Hsplit & Hcount) & Hkeep & Hall).
    split; [|split].
    + destruct (Binary64.le _ _).
      * exists []. split; [reflexivity|]. cbn. lia.
      * exists (firstChunk :: evicted). split.
        -- cbn [app]. f_equal. exact Hsplit.
        -- rewrite Hcount. cbn [length]. lia.
    + intros Hfinite. destruct (Binary64.le _ _); [exact Hlast|by apply Hkeep].
    + intros Hnot. rewrite sub_unbounded_above by exact Hnot.
      rewrite (Hall Hnot). f_equal. cbn [length]. lia.
Qed.

(** A buffer of three frames spanning more than [maxBufferMs], the newest
    at 1000.5: the two older frames go, the newest stays. *)
Lemma overflow_keeps_finite_newest_witness :
  let buffer := [frame64 1 (halves 1); frame64 2 (halves 3); frame64 3 (halves 2001)] in
  Client64.trimLoop buffer 0 = ([frame64 3 (halves 2001)], 2%Z) /\
  (exists evicted,
     buffer = evicted ++ (Client64.trimLoop buffer 0).1 /\
     (Client64.trimLoop buffer 0).2 = (0 + Z.of_nat (length evicted))%Z) /\
  (is_Some (Binary64.value (Client64.playTime (frame64 3 (halves 2001)))) ->
   last (Client64.trimLoop buffer 0).1 = Some (frame64 3 (halves 2001))) /\
  (Client64.playTime (frame64 3 (halves 2001)) = SpecFloat.S754_infinity false
   \/ Client64.playTime (frame64 3 (halves 2001)) = SpecFloat.S754_nan ->
   Client64.trimLoop buffer 0 = ([], (0 + Z.of_nat (length buffer))%Z)).
Proof.
  cbv zeta. split; [vm_compute; reflexivity|].
  exact (overflow_keeps_finite_newest
           [frame64 1 (halves 1); frame64 2 (halves 3); frame64 3 (halves 2001)]
           (frame64 3 (halves 2001)) 0 eq_refl).
Defined.

(** A frame stamped [Infinity] behind two frames: the loop empties the
    buffer. *)
Example overflow_at_infinity :
  Client64.trimLoop
    [frame64 1 (halves 1); frame64 2 (halves 3); frame64 3 (SpecFloat.S754_infinity false)] 0
  = ([], 3%Z).
Proof. vm_compute. reflexivity. Qed.


(** The inner loop of a pass: the frames it takes off the front, in
    order, are [played] (each written) and then at most one [lost] (shifted,
    its write thrown); all of them were due. *)
Lemma drainLoop_spec (currentTime : Q) (throws : nat -> bool) (buffer : list BufferedChunk) :
  forall p attempt chunksWritten,
  exists played lost p',
    drainLoop buffer currentTime (Some p) throws attempt chunksWritten
      = (drop (length played + length lost) buffer, Some p',
         (chunksWritten + length played)%nat) /\
    take (length played + length lost) buffer = played ++ lost /\
    written p' = written p ++ map (fun b => data (chunk b)) played /\
    stopped p' = stopped p /\
    Forall (fun b => playTime b <= currentTime) (played ++ lost) /\
    (length lost <= 1)%nat /\
    ((forall k, throws k = false) -> lost = []) /\
    (lost = [] ->
     match drop (length played + length lost) buffer with
     | [] => True
     | firstChunk :: _ => currentTime < playTime firstChunk
     end).
Proof.
  induction buffer as [|firstChunk rest IH]; intros p attempt chunksWritten.
  - exists [], [], p. cbn. rewrite app_nil_r, Nat.add_0_r. repeat split; auto.
  - cbn [drainLoop].
    destruct (Qlt_bool currentTime (playTime firstChunk)) eqn:Ecmp.
    + apply Qlt_bool_true in Ecmp.
      exists [], [], p. cbn. rewrite app_nil_r, Nat.add_0_r. repeat split; auto.
    + apply Qlt_bool_false in Ecmp.
      destruct (throws attempt) eqn:Ethrow.
      * exists [], [firstChunk], p. cbn. rewrite app_nil_r, Nat.add_0_r.
        repeat split; auto; try discriminate.
        intros Hnever. rewrite Hnever in Ethrow. discriminate.
      * destruct (IH (write (data (chunk firstChunk)) p) (S attempt) (S chunksWritten))
          as (played & lost & p' & Heq & Htake & Hw & Hst & Hdue & Hlost & Hnever & Hnext).
        exists (firstChunk :: played), lost, p'. cbn [length Nat.add drop take app].
        rewrite Heq, Htake, Hw. cbn [write written map].
        rewrite <- app_assoc. cbn [app].
        repeat split; auto.
Qed.

(** Nothing is played before its time, and nothing out of order: what a
    pass of the playout loop writes is the data of a run of frames from the
    front of the buffer, in buffer order, each with a play time not above
    the clock reading of the pass; at most one more frame, also due, is
    lost to a write that throws.  The pass ends with a sleep of 1 ms when it
    wrote something and of 5 ms when it did not. *)
Theorem playout_never_early
    (state : ClientState) (p : AudioPlayback) (currentTime : Q) (throws : nat -> bool) :
  playback state = Some p ->
  exists played lost p',
    buffer state = played ++ lost ++ buffer (pass state currentTime throws).1 /\
    playback (pass state currentTime throws).1 = Some p' /\
    written p' = written p ++ map (fun b => data (chunk b)) played /\
    Forall (fun b => playTime b <= currentTime) (played ++ lost) /\
    (length lost <= 1)%nat /\
    (pass state currentTime throws).2 = (if played is [] then 5 else 1)%Z.
Proof.
  intros Hp. unfold pass. rewrite Hp.
  destruct (drainLoop_spec currentTime throws (buffer state) p 0 0)
    as (played & lost & p' & Heq & Htake & Hw & _ & Hdue & Hlost & _).
  rewrite Heq. cbn [fst snd buffer playback set_buffer set_playback].
  exists played, lost, p'. split; [|repeat split; auto].
  - rewrite app_assoc, <- Htake. by rewrite take_drop.
  - destruct played; reflexivity.
Qed.

Lemma playout_never_early_witness :
  let b1 := {| chunk := {| timestamp := 0; sequence := 0; data := [x01] |}; playTime := 60 |} in
  let b2 := {| chunk := {| timestamp := 20; sequence := 1; data := [x02] |}; playTime := 80 |} in
  let state := startPlaying (set_buffer [b1; b2] syncedSink) in
  exists played lost p',
    buffer state = played ++ lost ++ buffer (pass state 70 (fun _ => false)).1 /\
    playback (pass state 70 (fun _ => false)).1 = Some p' /\
    written p' = written {| written := []; stopped := false |}
                 ++ map (fun b => data (chunk b)) played /\
    Forall (fun b => playTime b <= 70) (played ++ lost) /\
    (length lost <= 1)%nat /\
    (pass state 70 (fun _ => false)).2 = (if played is [] then 5 else 1)%Z.
Proof.
  intros b1 b2 state.
  apply (playout_never_early state {| written := []; stopped := false |} 70 (fun _ => false)).
  reflexivity.
Defined.

(** When no write throws, a pass over a sorted buffer plays exactly the
    frames that are due: every frame it leaves has a play time above the
    clock reading, none is lost, and the buffer stays sorted. *)
Theorem playout_plays_all_due
    (state : ClientState) (p : AudioPlayback) (currentTime : Q) (throws : nat -> bool) :
  playback state = Some p ->
  (forall k, throws k = false) ->
  StronglySorted byPlayTime (buffer state) ->
  exists played p',
    buffer state = played ++ buffer (pass state currentTime throws).1 /\
    playback (pass state currentTime throws).1 = Some p' /\
    written p' = written p ++ map (fun b => data (chunk b)) played /\
    Forall (fun b => playTime b <= currentTime) played /\
    Forall (fun b => currentTime < playTime b) (buffer (pass state currentTime throws).1) /\
    StronglySorted byPlayTime (buffer (pass state currentTime throws).1).
Proof.
  intros Hp Hnever Hsorted. unfold pass. rewrite Hp.
  destruct (drainLoop_spec currentTime throws (buffer state) p 0 0)
    as (played & lost & p' & Heq & Htake & Hw & _ & Hdue & _ & Hnone & Hnext).
  specialize (Hnone Hnever). subst lost. specialize (Hnext eq_refl).
  rewrite Heq. cbn [fst snd buffer playback set_buffer set_playback].
  rewrite app_nil_r in *.
  set (rest := drop (length played + length []) (buffer state)) in *.
  assert (Hrest : StronglySorted byPlayTime rest) by apply sorted_drop, Hsorted.
  exists played, p'. split.
  { unfold rest. rewrite <- Htake at 1. by rewrite take_drop. }
  repeat split; auto.
  destruct rest as [|firstChunk rest']; [constructor|].
  apply Forall_forall. intros b Hb.
  eapply Qlt_le_trans; [exact Hnext|].
  apply elem_of_cons in Hb as [->|Hb]; [apply Qle_refl|].
  apply StronglySorted_cons in Hrest as [Hall _].
  rewrite Forall_forall in Hall. by apply Hall.
Qed.

Lemma playout_plays_all_due_witness :
  let b1 := {| chunk := {| timestamp := 0; sequence := 0; data := [x01] |}; playTime := 60 |} in
  let b2 := {| chunk := {| timestamp := 20; sequence := 1; data := [x02] |}; playTime := 80 |} in
  let state := startPlaying (set_buffer [b1; b2] syncedSink) in
  exists played p',
    buffer state = played ++ buffer (pass state 70 (fun _ => false)).1 /\
    playback (pass state 70 (fun _ => false)).1 = Some p' /\
    written p' = written {| written := []; stopped := false |}
                 ++ map (fun b => data (chunk b)) played /\
    Forall (fun b => playTime b <= 70) played /\
    Forall (fun b => 70 < playTime b) (buffer (pass state 70 (fun _ => false)).1) /\
    StronglySorted byPlayTime (buffer (pass state 70 (fun _ => false)).1).
Proof.
  intros b1 b2 state.
  apply (playout_plays_all_due state {| written := []; stopped := false |} 70 (fun _ => false)).
  - reflexivity.
  - reflexivity.
  - repeat constructor. unfold byPlayTime, Qle. simpl. lia.
Defined.

(** Closing: [onclose] marks the sink disconnected, calls [close] on its
    socket (an open or connecting socket becomes closing, nothing more is
    sent on it) and [stop] on the playback, if it was started; doing it
    twice is doing it once; and it keeps the buffer and the counters
    (nothing is dropped on close). *)
Theorem onclose_closes_once (state : ClientState) :
  isConnected (onclose state) = false /\
  (forall w, ws state = Some w ->
             ws (onclose state)
             = Some {| readyState := match readyState w with
                                     | CLOSED => CLOSED
                                     | _ => CLOSING
                                     end;
                       sent := sent w |}) /\
  (ws state = None -> ws (onclose state) = None) /\
  (forall p, playback state = Some p ->
             playback (onclose state) = Some {| written := written p; stopped := true |}) /\
  (playback state = None -> playback (onclose state) = None) /\
  onclose (onclose state) = onclose state /\
  buffer (onclose state) = buffer state /\
  sync (onclose state) = sync state /\
  droppedChunks (onclose state) = droppedChunks state /\
  lateChunks (onclose state) = lateChunks state.
Proof.
  unfold onclose, cleanup.
  destruct state as [w s b [p|] si ic ip ls dc lc pt od]; cbn;
    destruct w as [[[] snt]|]; cbn; repeat split; auto;
    try discriminate; intros ? [= <-]; reflexivity.
Qed.



End SinkFacts.

(* ===================================================================== *)
(** * More on the source (server.ts) *)
(* ===================================================================== *)
Section SourceFacts.
Import Protocol Server ServerStop.

Lemma chunks_of_clients (encoded : AudioChunk) (wsId : string) (l : list (string * Client)) :
  audioChunksTo wsId
    (omap (fun client => if isReady client then Some (ws client, MAudioChunk encoded) else None)
          l.*2)
  = omap (fun kc => if isReady kc.2 && bool_decide (ws kc.2 = wsId)
                    then Some encoded else None) l.
Proof.
  unfold audioChunksTo.
  induction l as [|[k client] l IH]; [reflexivity|].
  cbn [fmap list_fmap omap list_omap snd]. cbn [fmap list_fmap omap list_omap] in IH.
  destruct (isReady client); cbn [andb omap list_omap].
  - destruct (decide (ws client = wsId)) as [Heq|Hne].
    + rewrite bool_decide_eq_true_2 by exact Heq. cbn. by rewrite IH.
    + rewrite bool_decide_eq_false_2 by exact Hne. cbn. exact IH.
  - exact IH.
Qed.

Lemma ready_elements {A} (x : A) (wsId : string) (m : gmap string Client) :
  (forall k client, m !! k = Some client -> ws client = k) ->
  omap (fun kc : string * Client =>
          if isReady kc.2 && bool_decide (ws kc.2 = wsId) then Some x else None)
       (map_to_list m)
  = match m !! wsId with
    | Some client => if isReady client then [x] else []
    | None => []
    end.
Proof.
  induction m as [|i c m Hi IH] using map_ind; intros Hkeyed.
  - by rewrite map_to_list_empty, lookup_empty.
  - assert (Hm : forall k client, m !! k = Some client -> ws client = k).
    { intros k client Hk. apply Hkeyed. rewrite lookup_insert_ne; [exact Hk|].
      intros ->. congruence. }
    specialize (IH Hm).
    assert (Hc : ws c = i) by (apply Hkeyed, lookup_insert_eq).
    pose proof (omap_Permutation
      (fun kc : string * Client =>
         if isReady kc.2 && bool_decide (ws kc.2 = wsId) then Some x else None)
      _ _ (map_to_list_insert m i c Hi)) as Hperm.
    cbn [omap list_omap snd] in Hperm. rewrite IH in Hperm.
    destruct (decide (i = wsId)) as [->|Hne].
    + rewrite lookup_insert_eq. rewrite Hi in Hperm.
      rewrite bool_decide_eq_true_2, andb_true_r in Hperm by exact Hc.
      destruct (isReady c).
      * by apply Permutation_singleton_r.
      * by apply Permutation_nil_r.
    + rewrite lookup_insert_ne by exact Hne.
      rewrite bool_decide_eq_false_2, andb_false_r in Hperm by congruence.
      destruct (m !! wsId) as [client|]; [destruct (isReady client)|].
      * by apply Permutation_singleton_r.
      * by apply Permutation_nil_r.
      * by apply Permutation_nil_r.
Qed.

(** One broadcast: the chunk it stamps, for the socket of a ready client
    and for no other. *)
Lemma broadcast_chunks (pcmData : list byte) (state : ServerState) (now_ : Q) (wsId : string) :
  wellKeyed state ->
  audioChunksTo wsId (broadcast pcmData state now_).2
  = if readyIn state wsId
    then [{| timestamp := now_; Protocol.sequence := sequence state; data := pcmData |}]
    else [].
Proof.
  intros Hkeyed. unfold broadcast. cbn [snd clients set_sequence].
  rewrite chunks_of_clients, ready_elements by exact Hkeyed.
  unfold readyIn. destruct (clients state !! wsId); reflexivity.
Qed.

Lemma audioChunksTo_app (wsId : string) (out1 out2 : Sends) :
  audioChunksTo wsId (out1 ++ out2) = audioChunksTo wsId out1 ++ audioChunksTo wsId out2.
Proof. apply omap_app. Qed.

Lemma streamLoop_chunks (blocks : list (list byte)) (clock : nat -> Q) (wsId : string) :
  forall state k,
    isRunning state = true -> wellKeyed state ->
    sequence (streamLoop blocks state clock k).1
      = (sequence state + Z.of_nat (length blocks))%Z /\
    clients (streamLoop blocks state clock k).1 = clients state /\
    capture (streamLoop blocks state clock k).1 = capture state /\
    audioChunksTo wsId (streamLoop blocks state clock k).2
      = if readyIn state wsId then stampedChunks blocks (sequence state) clock k else [].
Proof.
  induction blocks as [|pcmData rest IH]; intros state k Hrun Hkeyed.
  - cbn. rewrite Z.add_0_r. repeat split; auto. by destruct (readyIn state wsId).
  - cbn [streamLoop]. rewrite Hrun. cbn [negb].
    pose proof (broadcast_chunks pcmData state (clock k) wsId Hkeyed) as Hb.
    destruct (broadcast pcmData state (clock k)) as [state1 out1] eqn:E1.
    assert (Hst : state1 = set_sequence (sequence state + 1) state).
    { unfold broadcast in E1. by inversion E1. }
    destruct (IH state1 (S k)) as (Hseq & Hcl & Hcap & Hchunks);
      [by subst state1|by subst state1|].
    destruct (streamLoop rest state1 clock (S k)) as [state2 out2].
    cbn [fst snd] in *. rewrite audioChunksTo_app, Hb, Hchunks, Hseq, Hcl, Hcap.
    subst state1. cbn [sequence clients capture set_sequence length].
    split; [lia|]. split; [reflexivity|]. split; [reflexivity|].
    replace (readyIn (set_sequence (sequence state + 1) state) wsId)
      with (readyIn state wsId) by reflexivity.
    destruct (readyIn state wsId); [|reflexivity].
    unfold stampedChunks. cbn [imap app]. f_equal.
    + f_equal; [f_equal; lia|lia].
    + apply imap_ext. intros i x _. cbn. f_equal; [f_equal; lia|lia].
Qed.

(** The source numbers every block it frames, ready sinks or not: over a
    whole capture stream [sequence] advances by the number of blocks, a
    ready sink receives the blocks stamped with consecutive sequence
    numbers from the one the source stood at, and the capture is stopped
    at the end. *)
Theorem stream_numbered_consecutively
    (reads : list (list byte)) (state : ServerState) (clock : nat -> Q) (wsId : string) :
  is_Some (capture state) -> isRunning state = true -> wellKeyed state ->
  exists blocks state' out,
    Audio.chunkStream reads (Z.to_nat (Config.bytesPerChunk Config.CONFIG)) = Some blocks /\
    processAudioStream state reads clock = Some (state', out) /\
    sequence state' = (sequence state + Z.of_nat (length blocks))%Z /\
    audioChunksTo wsId out
      = (if readyIn state wsId then stampedChunks blocks (sequence state) clock 0 else []) /\
    capture state' = Some {| stopped := true |} /\
    clients state' = clients state.
Proof.
  intros [cap Hcap] Hrun Hkeyed.
  destruct (chunkStream_blocks (Z.to_nat (Config.bytesPerChunk Config.CONFIG))
              ltac:(rewrite bytesPerChunk_value; lia) reads)
    as (full & tail & Heq & _).
  destruct (streamLoop_chunks (full ++ tail) clock wsId state 0 Hrun Hkeyed)
    as (Hseq & Hcl & Hcapture & Hchunks).
  unfold processAudioStream. rewrite Hcap, Heq.
  destruct (streamLoop (full ++ tail) state clock 0) as [state' out].
  cbn [fst snd] in *.
  exists (full ++ tail), (stopCapture state'), out.
  split; [reflexivity|]. split; [reflexivity|].
  unfold stopCapture. rewrite Hcapture, Hcap. cbn. rewrite Hcl. auto.
Qed.

Lemma stream_numbered_consecutively_witness :
  exists blocks state' out,
    Audio.chunkStream [[x01; x02]; [x03]] (Z.to_nat (Config.bytesPerChunk Config.CONFIG))
      = Some blocks /\
    processAudioStream sourceWithReadySink [[x01; x02]; [x03]] (fun _ => 0%Q)
      = Some (state', out) /\
    sequence state' = (sequence sourceWithReadySink + Z.of_nat (length blocks))%Z /\
    audioChunksTo "a" out
      = (if readyIn sourceWithReadySink "a"
         then stampedChunks blocks (sequence sourceWithReadySink) (fun _ => 0%Q) 0 else []) /\
    capture state' = Some {| stopped := true |} /\
    clients state' = clients sourceWithReadySink.
Proof.
  apply (stream_numbered_consecutively [[x01; x02]; [x03]] sourceWithReadySink
           (fun _ => 0%Q) "a").
  - eexists. reflexivity.
  - reflexivity.
  - intros k client. unfold sourceWithReadySink. cbn.
    rewrite lookup_insert_eq. cbn. rewrite insert_insert_eq.
    intros Hk. apply lookup_insert_Some in Hk as [[<- <-]|[_ Hk]]; [reflexivity|].
    by rewrite lookup_empty in Hk.
Defined.

(** What one event sends to one socket as audio: nothing, or the one
    chunk numbered with the sequence the source stood at, which then
    advances by one; no event takes [sequence] back. *)
Lemma step_chunks (ev : Event) (state : ServerState) (wsId : string) :
  wellKeyed state ->
  (sequence state <= sequence (step ev state).1)%Z /\
  (audioChunksTo wsId (step ev state).2 = [] \/
   exists c, audioChunksTo wsId (step ev state).2 = [c] /\
             Protocol.sequence c = sequence state /\
             sequence (step ev state).1 = (sequence state + 1)%Z).
Proof.
  intros Hkeyed. destruct ev as [i|i message u2 u3|i|pcmData t]; cbn.
  - split; [lia|]. left. by destruct (decide (i = wsId)).
  - destruct message; cbn; try (split; [lia|by left]).
    + split; [lia|]. left. by destruct (decide (i = wsId)).
    + destruct (clients state !! i); cbn; (split; [lia|by left]).
  - split; [lia|by left].
  - destruct (isRunning state); [|cbn; split; [lia|by left]].
    pose proof (broadcast_chunks pcmData state t wsId Hkeyed) as Hb.
    unfold broadcast in *. cbn [fst snd sequence set_sequence] in *.
    split; [lia|]. rewrite Hb. destruct (readyIn state wsId); [right|by left].
    eexists. split; [reflexivity|]. split; reflexivity.
Qed.

(** No rewind: over any events, the audio chunks one socket is sent carry
    strictly increasing sequence numbers, none below the number the source
    started from and all below the number it ends at. *)
Theorem sequence_never_rewinds (evs : list Event) (wsId : string) :
  forall state,
    wellKeyed state ->
    (sequence state <= sequence (run evs state).1)%Z /\
    StronglySorted Z.lt (Protocol.sequence <$> audioChunksTo wsId (run evs state).2) /\
    Forall (fun c => (sequence state <= Protocol.sequence c < sequence (run evs state).1)%Z)
           (audioChunksTo wsId (run evs state).2).
Proof.
  induction evs as [|ev rest IH]; intros state Hkeyed.
  - cbn. split; [lia|]. split; constructor.
  - cbn [run].
    pose proof (step_chunks ev state wsId Hkeyed) as [Hmono Hout].
    pose proof (step_wellKeyed ev state Hkeyed) as Hkeyed1.
    destruct (step ev state) as [state1 out1]. cbn [fst snd] in *.
    destruct (IH state1 Hkeyed1) as (Hmono' & Hsorted' & Hall').
    destruct (run rest state1) as [state2 out2]. cbn [fst snd] in *.
    rewrite audioChunksTo_app.
    split; [lia|].
    destruct Hout as [->|(c & -> & Hc & Hnext)]; cbn [app fmap list_fmap].
    + split; [exact Hsorted'|].
      eapply Forall_impl; [exact Hall'|]. cbn. intros; lia.
    + split.
      * constructor; [exact Hsorted'|].
        apply Forall_fmap. eapply Forall_impl; [exact Hall'|]. cbn. intros; lia.
      * constructor; [lia|].
        eapply Forall_impl; [exact Hall'|]. cbn. intros; lia.
Qed.

Lemma sequence_never_rewinds_witness :
  (sequence sourceWithReadySink
   <= sequence (run [EBlock [x01] 0; EBlock [x02] 1] sourceWithReadySink).1)%Z /\
  StronglySorted Z.lt
    (Protocol.sequence
       <$> audioChunksTo "a" (run [EBlock [x01] 0; EBlock [x02] 1] sourceWithReadySink).2) /\
  Forall (fun c => (sequence sourceWithReadySink <= Protocol.sequence c
                    < sequence (run [EBlock [x01] 0; EBlock [x02] 1] sourceWithReadySink).1)%Z)
         (audioChunksTo "a" (run [EBlock [x01] 0; EBlock [x02] 1] sourceWithReadySink).2).
Proof.
  apply (sequence_never_rewinds [EBlock [x01] 0; EBlock [x02] 1] "a" sourceWithReadySink).
  intros k client. unfold sourceWithReadySink. cbn.
  rewrite lookup_insert_eq. cbn. rewrite insert_insert_eq.
  intros Hk. apply lookup_insert_Some in Hk as [[<- <-]|[_ Hk]]; [reflexivity|].
  by rewrite lookup_empty in Hk.
Defined.

(** A connection that comes and goes leaves the table as it found it: the
    socket is entered in the table under its id, not ready, with the other
    entries untouched, and is sent the one descriptor, whose frame
    constants are the configured ones; closing it removes it again; and
    closing a socket that is not registered changes nothing. *)
Theorem open_close_round_trip (wsId : string) (state : ServerState) :
  clients state !! wsId = None ->
  exists info,
    (open wsId state).2 = [(wsId, MServerInfo info)] /\
    matchesConfig info = true /\
    Protocol.serverStartTime info = serverStartTime state /\
    clients (open wsId state).1 !! wsId
      = Some {| id := wsId; ws := wsId; isReady := false |} /\
    (forall other, other <> wsId ->
       clients (open wsId state).1 !! other = clients state !! other) /\
    readyIn (open wsId state).1 wsId = false /\
    close wsId (open wsId state).1 = state /\
    close wsId state = state.
Proof.
  intros Hnone. eexists. split; [reflexivity|]. split; [reflexivity|].
  split; [reflexivity|]. split; [|split; [|split]].
  - cbn. by rewrite lookup_insert_eq.
  - intros other Hother. cbn. by rewrite lookup_insert_ne.
  - unfold readyIn. cbn. by rewrite lookup_insert_eq.
  - unfold close. cbn. rewrite delete_insert_id by exact Hnone.
    rewrite delete_id by exact Hnone. by destruct state.
Qed.

Lemma open_close_round_trip_witness :
  exists info,
    (open "a" (initialState 0)).2 = [("a", MServerInfo info)] /\
    matchesConfig info = true /\
    Protocol.serverStartTime info = serverStartTime (initialState 0) /\
    clients (open "a" (initialState 0)).1 !! "a"
      = Some {| id := "a"; ws := "a"; isReady := false |} /\
    (forall other, other <> "a" ->
       clients (open "a" (initialState 0)).1 !! other = clients (initialState 0) !! other) /\
    readyIn (open "a" (initialState 0)).1 "a" = false /\
    close "a" (open "a" (initialState 0)).1 = initialState 0 /\
    close "a" (initialState 0) = initialState 0.
Proof.
  apply (open_close_round_trip "a" (initialState 0)). reflexivity.
Defined.

(** After a socket has closed, the source has nothing more for it: a block
    is not broadcast to it, and a [client_ready] that still arrives on it
    changes nothing and sends nothing. *)
Theorem closed_socket_gets_nothing
    (wsId : string) (state : ServerState) (pcmData : list byte) (now_ t2 t3 : Q)
    (m : ClientReady) :
  wellKeyed state ->
  let state1 := close wsId state in
  readyIn state1 wsId = false /\
  audioChunksTo wsId (step (EBlock pcmData now_) state1).2 = [] /\
  handleMessage wsId (MClientReady m) state1 t2 t3 = (state1, []).
Proof.
  intros Hkeyed state1.
  assert (Hgone : clients state1 !! wsId = None) by apply lookup_delete_eq.
  assert (Hnot : readyIn state1 wsId = false) by (unfold readyIn; by rewrite Hgone).
  split; [exact Hnot|]. split.
  - cbn [step]. destruct (isRunning state1); [|reflexivity].
    rewrite broadcast_chunks, Hnot; [reflexivity|].
    apply (step_wellKeyed (EClose wsId) state Hkeyed).
  - cbn [handleMessage]. by rewrite Hgone.
Qed.

Lemma closed_socket_gets_nothing_witness :
  let state1 := close "a" sourceWithReadySink in
  readyIn state1 "a" = false /\
  audioChunksTo "a" (step (EBlock [x01] 0) state1).2 = [] /\
  handleMessage "a" (MClientReady {| clientId := "client" |}) state1 0 0 = (state1, []).
Proof.
  apply (closed_socket_gets_nothing "a" sourceWithReadySink [x01] 0 0 0
           {| clientId := "client" |}).
  intros k client. unfold sourceWithReadySink. cbn.
  rewrite lookup_insert_eq. cbn. rewrite insert_insert_eq.
  intros Hk. apply lookup_insert_Some in Hk as [[<- <-]|[_ Hk]]; [reflexivity|].
  by rewrite lookup_empty in Hk.
Defined.

Lemma step_stopped (ev : Event) (state : ServerState) (wsId : string) :
  isRunning state = false ->
  isRunning (step ev state).1 = false /\
  sequence (step ev state).1 = sequence state /\
  audioChunksTo wsId (step ev state).2 = [].
Proof.
  intros Hstop. destruct ev as [i|i message u2 u3|i|pcmData t]; cbn.
  - repeat split; auto. by destruct (decide (i = wsId)).
  - destruct message; cbn; auto.
    + repeat split; auto. by destruct (decide (i = wsId)).
    + destruct (clients state !! i); cbn; auto.
  - auto.
  - rewrite Hstop. cbn. auto.
Qed.

(** Stopping is final: [stopServer] empties the table, names for closing
    the socket of every client it held, and stops the capture; whatever
    events follow, no audio chunk is sent any more and [sequence] stays
    where it was. *)
Theorem stopServer_is_final (evs : list Event) (state : ServerState) (wsId : string) :
  let stopped := (stopServer state).1 in
  clients stopped = ∅ /\
  isRunning stopped = false /\
  (forall k client, clients state !! k = Some client -> ws client ∈ (stopServer state).2) /\
  (forall cap, capture state = Some cap -> capture stopped = Some {| stopped := true |}) /\
  isRunning (run evs stopped).1 = false /\
  sequence (run evs stopped).1 = sequence state /\
  audioChunksTo wsId (run evs stopped).2 = [].
Proof.
  intros stopped.
  assert (Hstop : isRunning stopped = false).
  { unfold stopped, stopServer, stopCapture. cbn. by destruct (capture state). }
  assert (Hseq : sequence stopped = sequence state).
  { unfold stopped, stopServer, stopCapture. cbn. by destruct (capture state). }
  split; [reflexivity|]. split; [exact Hstop|]. split; [|split].
  - intros k client Hk. unfold stopServer, stopCapture. cbn.
    destruct (capture state); cbn;
      (apply list_elem_of_fmap; exists client; split; [reflexivity|];
       apply list_elem_of_fmap; exists (k, client); split; [reflexivity|];
       by apply elem_of_map_to_list).
  - intros cap Hcap. unfold stopped, stopServer, stopCapture. cbn. by rewrite Hcap.
  - rewrite <- Hseq. clear Hseq. revert Hstop. generalize stopped. clear stopped.
    induction evs as [|ev rest IH]; intros s Hs; [by cbn|].
    cbn [run]. destruct (step_stopped ev s wsId Hs) as (Hs1 & Hq1 & Ho1).
    destruct (step ev s) as [s1 out1]. cbn [fst snd] in *.
    destruct (IH s1 Hs1) as (Hs2 & Hq2 & Ho2).
    destruct (run rest s1) as [s2 out2]. cbn [fst snd] in *.
    rewrite audioChunksTo_app, Ho1, Ho2. split; [exact Hs2|]. split; [congruence|reflexivity].
Qed.

End SourceFacts.

(* ===================================================================== *)
(** * The handshake of a sink with the source (client.ts with server.ts) *)
(* ===================================================================== *)
Section HandshakeFacts.
Import Protocol.
Local Open Scope Q_scope.



End HandshakeFacts.

(* ===================================================================== *)
(** * More on the framer (audio.ts) *)
(* ===================================================================== *)
Section FramerFacts.
Import Audio.

Lemma full_blocks_unique (c : nat) (f1 : list (list byte)) :
  forall (f2 : list (list byte)) (r1 r2 : list byte),
    Forall (fun b => length b = c) f1 -> Forall (fun b => length b = c) f2 ->
    length f1 = length f2 ->
    concat f1 ++ r1 = concat f2 ++ r2 ->
    f1 = f2 /\ r1 = r2.
Proof.
  induction f1 as [|b1 f1 IH]; intros [|b2 f2] r1 r2 H1 H2 Hlen Hcat;
    cbn in Hlen; try lia.
  - by cbn in Hcat.
  - inversion H1; inversion H2; subst. cbn [concat] in Hcat.
    rewrite <- !app_assoc in Hcat.
    apply app_inj_1 in Hcat as [-> Hcat]; [|congruence].
    destruct (IH f2 r1 r2) as [-> ->]; auto.
Qed.

(** The blocks depend on the bytes alone, not on how the reads cut them:
    two streams that deliver the same bytes are framed into the same
    blocks. *)
Theorem chunking_ignores_read_boundaries
    (chunkSize : nat) (reads1 reads2 : list (list byte)) :
  0 < chunkSize ->
  concat reads1 = concat reads2 ->
  chunkStream reads1 chunkSize = chunkStream reads2 chunkSize.
Proof.
  intros Hpos Hsame.
  destruct (chunkStream_blocks chunkSize Hpos reads1)
    as (f1 & t1 & -> & Hc1 & Ha1 & Hl1 & _ & Ht1).
  destruct (chunkStream_blocks chunkSize Hpos reads2)
    as (f2 & t2 & -> & Hc2 & Ha2 & Hl2 & _ & Ht2).
  rewrite concat_app in Hc1, Hc2.
  destruct (full_blocks_unique chunkSize f1 f2 (concat t1) (concat t2)) as [-> Htail]; auto.
  { rewrite Hl1, Hl2. by rewrite Hsame. }
  { congruence. }
  do 2 f_equal.
  destruct Ht1 as [->|(b1 & -> & Hb1)], Ht2 as [->|(b2 & -> & Hb2)]; cbn in Htail.
  - reflexivity.
  - rewrite app_nil_r in Htail. subst b2. cbn in Hb2. lia.
  - rewrite app_nil_r in Htail. subst b1. cbn in Hb1. lia.
  - rewrite !app_nil_r in Htail. by subst.
Qed.

Lemma chunking_ignores_read_boundaries_witness :
  chunkStream [[x01]; [x02; x03]; []; [x04; x05]] 2 = chunkStream [[x01; x02; x03; x04; x05]] 2.
Proof.
  apply (chunking_ignores_read_boundaries 2); [lia|reflexivity].
Defined.

(** The number of blocks of a stream of [L] bytes is [L / chunkSize]
    rounded up, no block is empty, and none is longer than [chunkSize]. *)
Theorem chunk_count (chunkSize : nat) (reads : list (list byte)) :
  0 < chunkSize ->
  exists blocks,
    chunkStream reads chunkSize = Some blocks /\
    length blocks = (length (concat reads) + chunkSize - 1) / chunkSize /\
    Forall (fun b => 0 < length b <= chunkSize) blocks.
Proof.
  intros Hpos.
  destruct (chunkStream_blocks chunkSize Hpos reads)
    as (full & tail & Heq & Hcat & Hall & Hfull & Htail & Hshape).
  exists (full ++ tail). split; [exact Heq|].
  set (L := length (concat reads)) in *.
  pose proof (Nat.div_mod_eq L chunkSize) as HL.
  split.
  - rewrite length_app, Hfull.
    destruct Hshape as [->|(b & -> & Hb)]; cbn [length concat] in *.
    + apply (Nat.div_unique _ _ _ (chunkSize - 1)); nia.
    + rewrite app_nil_r in Htail.
      apply (Nat.div_unique _ _ _ (L mod chunkSize - 1)); nia.
  - apply Forall_app. split.
    + eapply Forall_impl; [exact Hall|]. cbn. intros; lia.
    + destruct Hshape as [->|(b & -> & Hb)]; repeat constructor; lia.
Qed.

Lemma chunk_count_witness :
  exists blocks,
    chunkStream [[x01]; [x02; x03]; [x04; x05]] 2 = Some blocks /\
    length blocks = (length (concat [[x01]; [x02; x03]; [x04; x05]]) + 2 - 1) / 2 /\
    Forall (fun b => 0 < length b <= 2) blocks.
Proof.
  apply (chunk_count 2 [[x01]; [x02; x03]; [x04; x05]]). lia.
Defined.

Lemma sliceLoop_zero (fuel : nat) :
  forall buffer, sliceLoop fuel buffer 0 = None.
Proof.
  induction fuel as [|fuel IH]; intros buffer; cbn; [reflexivity|].
  by rewrite IH.
Qed.

(** The edges of the framer: a stream that delivers no byte, in no read or
    in empty reads only, yields no block; and with a chunk size of 0 the
    inner loop of the generator has no end as soon as one read, even an
    empty one, is delivered. *)
Theorem chunkStream_edges (chunkSize : nat) (value : list byte) (reads : list (list byte))
    (empties : nat) :
  chunkStream [] chunkSize = Some [] /\
  chunkStream (replicate empties []) (S chunkSize) = Some [] /\
  chunkStream (value :: reads) 0 = None.
Proof.
  split; [reflexivity|]. split.
  - unfold chunkStream. induction empties as [|n IH]; [reflexivity|].
    cbn [replicate readLoop app length sliceLoop]. cbn. by rewrite IH.
  - unfold chunkStream. cbn [readLoop]. by rewrite sliceLoop_zero.
Qed.

End FramerFacts.

(* ===================================================================== *)
(** * The server url of the client commands (index.ts) *)
(* ===================================================================== *)
Section CliFacts.
Import Cli.

Lemma defaultPort_text : defaultPort = "8765".
Proof. vm_compute. reflexivity. Qed.

Lemma prefix_app (p s t : string) :
  String.prefix p s = true -> String.prefix p (s ++ t) = true.
Proof.
  revert s. induction p as [|c p IH]; intros s H; [by destruct (s +:+ t)|].
  destruct s as [|d s]; cbn in H; [discriminate|].
  change (String d s +:+ t) with (String d (s +:+ t)). cbn.
  destruct (Ascii.ascii_dec c d); [auto|discriminate].
Qed.

Lemma prefix_own (p s : string) : String.prefix p (p +:+ s) = true.
Proof.
  induction p as [|c p IH]; [by destruct s|].
  change (String c p +:+ s) with (String c (p +:+ s)). cbn.
  by destruct (Ascii.ascii_dec c c).
Qed.

Lemma matchesPort_app (s t : string) :
  matchesPort t = true -> matchesPort (s ++ t) = true.
Proof.
  intros Ht. induction s as [|c s IH]; [exact Ht|].
  change (String c s +:+ t) with (String c (s +:+ t)).
  cbn [matchesPort]. rewrite IH. apply orb_true_r.
Qed.

Lemma scheme_kept (s t : string) :
  startsWith "ws://" s || startsWith "wss://" s = true ->
  startsWith "ws://" (s ++ t) || startsWith "wss://" (s ++ t) = true.
Proof.
  unfold startsWith. intros H. apply orb_true_iff in H as [H|H].
  - by rewrite (prefix_app _ _ t H).
  - rewrite (prefix_app _ _ t H). apply orb_true_r.
Qed.

(** Whatever the [--server] option holds, the url the client connects to
    starts with [ws://] or [wss://] and ends with a colon and digits, and
    rewriting it again changes nothing; an option that already has both is
    passed on as it is. *)
Theorem serverUrl_normal_form (option : string) :
  let url := serverUrl defaultPort option in
  startsWith "ws://" url || startsWith "wss://" url = true /\
  matchesPort url = true /\
  serverUrl defaultPort url = url /\
  (startsWith "ws://" option || startsWith "wss://" option = true ->
   matchesPort option = true -> url = option).
Proof.
  intros url.
  assert (Hscheme : startsWith "ws://" url || startsWith "wss://" url = true).
  { unfold url, serverUrl.
    set (fixed := if negb (startsWith "ws://" option) && negb (startsWith "wss://" option)
                  then ("ws://" ++ option)%string else option).
    assert (Hfixed : startsWith "ws://" fixed || startsWith "wss://" fixed = true).
    { unfold fixed.
      destruct (startsWith "ws://" option) eqn:E1; cbn [negb andb];
        [by rewrite E1|].
      destruct (startsWith "wss://" option) eqn:E2; cbn [negb andb].
      - by rewrite E1, E2.
      - unfold startsWith. by rewrite prefix_own. }
    destruct (negb (matchesPort fixed)); [by apply scheme_kept|exact Hfixed]. }
  assert (Hport : matchesPort url = true).
  { unfold url, serverUrl.
    match goal with |- context [negb (matchesPort ?f)] => destruct (matchesPort f) eqn:E end;
      cbn [negb]; [exact E|].
    apply matchesPort_app. rewrite defaultPort_text. reflexivity. }
  split; [exact Hscheme|]. split; [exact Hport|]. split.
  - unfold serverUrl at 1. apply orb_true_iff in Hscheme.
    replace (negb (startsWith "ws://" url) && negb (startsWith "wss://" url)) with false.
    + by rewrite Hport.
    + destruct Hscheme as [-> | ->]; [reflexivity|].
      by destruct (startsWith "ws://" url).
  - intros Hs Hp. unfold url, serverUrl.
    replace (negb (startsWith "ws://" option) && negb (startsWith "wss://" option)) with false.
    + by rewrite Hp.
    + apply orb_true_iff in Hs. destruct Hs as [-> | ->]; [reflexivity|].
      by destruct (startsWith "ws://" option).
Qed.

(** The address of the README and a bare host name, as the client rewrites
    them; a port that is followed by a path is not seen, and the default
    port is appended behind the path. *)
Example serverUrl_examples :
  serverUrl defaultPort "192.168.1.100:8765" = "ws://192.168.1.100:8765" /\
  serverUrl defaultPort "localhost" = "ws://localhost:8765" /\
  serverUrl defaultPort "wss://host:9000" = "wss://host:9000" /\
  serverUrl defaultPort "ws://host:9000/audio" = "ws://host:9000/audio:8765".
Proof. repeat split; vm_compute; reflexivity. Qed.

End CliFacts.

(* ===================================================================== *)
(** * The reader and the encoder of the browser sink (web-client.ts) *)
(* ===================================================================== *)
Section BrowserCodecFacts.
Import WebClient WebClientEncoder.

(** Closed tests on a type code are decided by evaluation. *)
Ltac code_tests :=
  repeat match goal with
         | |- context [(?t =? ?u)%Z] =>
             let v := eval vm_compute in (t =? u)%Z in
             match v with true => idtac | false => idtac end;
             change (t =? u)%Z with v; cbv match
         end.

Lemma below_check (P : Z -> bool) (k : nat) :
  forallb P (map Z.of_nat (seq 0 k)) = true ->
  forall z, (0 <= z < Z.of_nat k)%Z -> P z = true.
Proof.
  intros H z Hz. rewrite forallb_forall in H. apply H.
  apply in_map_iff. exists (Z.to_nat z). split; [lia|].
  apply in_seq. lia.
Qed.

Lemma byteValue_range (b : byte) : (0 <= byteValue b < 256)%Z.
Proof.
  unfold byteValue. pose proof (Byte.to_N_bounded b). lia.
Qed.

Lemma byteValue_toUint8 (n : Z) : byteValue (toUint8 n) = (n mod 256)%Z.
Proof.
  unfold toUint8. apply (byteValue_byteOf (n mod 256)).
  apply Z.mod_pos_bound. lia.
Qed.

Lemma toUint8_byteValue (b : byte) : toUint8 (byteValue b) = b.
Proof.
  unfold toUint8. rewrite Z.mod_small by apply byteValue_range.
  unfold byteValue. rewrite N2Z.id, Byte.of_to_N. reflexivity.
Qed.

Lemma bytes_back (bytes : list byte) : toUint8 <$> (byteValue <$> bytes) = bytes.
Proof.
  induction bytes as [|b bytes IH]; [reflexivity|].
  cbn. by rewrite toUint8_byteValue, IH.
Qed.

Lemma head_of_drop {A} (data : list A) (offset : nat) (x : A) (ys : list A) :
  drop offset data = x :: ys -> data !! offset = Some x.
Proof.
  intros H. rewrite <- (Nat.add_0_r offset), <- lookup_drop, H. reflexivity.
Qed.

Lemma drop_after {A} (data : list A) (offset : nat) (xs ys : list A) :
  drop offset data = xs ++ ys -> drop (offset + length xs) data = ys.
Proof.
  intros H. rewrite <- drop_drop, H. apply drop_app_length.
Qed.

Lemma drop_room {A} (data : list A) (offset : nat) (xs ys : list A) :
  0 < length xs ->
  drop offset data = xs ++ ys -> offset + length xs <= length data.
Proof.
  intros Hxs H. apply (f_equal length) in H.
  rewrite length_drop, length_app in H. lia.
Qed.

Lemma short_string_header (n : Z) :
  (0 <= n < 32)%Z -> (Z.lor 0xa0 n mod 256 = 0xa0 + n)%Z.
Proof.
  intros Hn. apply Z.eqb_eq.
  exact (below_check (fun n => (Z.lor 0xa0 n mod 256 =? 0xa0 + n)%Z) 32 eq_refl n Hn).
Qed.

Lemma short_map_header (n : Z) :
  (0 <= n < 16)%Z ->
  let b := (Z.lor 0x80 n mod 256)%Z in
  (Z.land b 0xf0 =? 0x80)%Z = true /\ Z.land b 0x0f = n.
Proof.
  intros Hn b.
  pose proof (below_check
    (fun n => let b := (Z.lor 0x80 n mod 256)%Z in
              (Z.land b 0xf0 =? 0x80)%Z && (Z.land b 0x0f =? n)%Z) 16 eq_refl n Hn) as H.
  cbv zeta in H. apply andb_true_iff in H as [H1 H2].
  split; [exact H1|by apply Z.eqb_eq].
Qed.

Lemma small_integer_header (n : Z) :
  (0 <= n < 128)%Z ->
  (Z.land n 0xf0 =? 0x80)%Z = false /\ (n =? 0xde)%Z = false /\
  (Z.land n 0xe0 =? 0xa0)%Z = false /\ (n =? 0xd9)%Z = false /\
  (Z.land n 0x80 =? 0)%Z = true.
Proof.
  intros Hn.
  pose proof (below_check
    (fun n => negb (Z.land n 0xf0 =? 0x80)%Z && negb (n =? 0xde)%Z
              && negb (Z.land n 0xe0 =? 0xa0)%Z && negb (n =? 0xd9)%Z
              && (Z.land n 0x80 =? 0)%Z) 128 eq_refl n Hn) as H.
  cbv beta in H.
  repeat (apply andb_true_iff in H as [H ?]).
  repeat match goal with H : negb _ = true |- _ => apply negb_true_iff in H end.
  auto.
Qed.

Lemma map16_length (n : Z) :
  (0 <= n < 65536)%Z ->
  let hi := Z.land (Z.shiftr n 8) 0xff in
  let lo := Z.land n 0xff in
  (0 <= hi < 256)%Z /\ (0 <= lo < 256)%Z /\ (hi * 256 + lo = n)%Z.
Proof.
  intros Hn hi lo. unfold hi, lo.
  change 0xff%Z with (Z.ones 8).
  rewrite !Z.land_ones by lia. rewrite Z.shiftr_div_pow2 by lia.
  change (2 ^ 8)%Z with 256%Z.
  pose proof (Z.div_mod n 256 ltac:(lia)) as Hdm.
  pose proof (Z.mod_pos_bound n 256 ltac:(lia)).
  assert (0 <= n / 256 < 256)%Z.
  { split; [apply Z.div_pos; lia|apply Z.div_lt_upper_bound; lia]. }
  rewrite (Z.mod_small (n / 256)) by lia. lia.
Qed.

(** A string of fewer than 32 bytes is written as a fixstr and read back. *)
Lemma read_short_string (fuel : nat) (data s rest : list byte) (offset : nat) :
  length s < 32 ->
  drop offset data = (toUint8 <$> encodeString s) ++ rest ->
  read (S fuel) data offset
  = Returned (VString s, (offset + length (encodeString s))%nat).
Proof.
  intros Hlen Hdrop. unfold encodeString in *.
  destruct (Z.ltb_spec (Z.of_nat (length s)) 32) as [_|?]; [|lia].
  rewrite fmap_app, bytes_back in Hdrop. cbn [fmap list_fmap] in Hdrop.
  rewrite (read_fixstr fuel data s rest offset Hlen).
  - rewrite length_app, length_fmap. cbn [length]. do 2 f_equal. lia.
  - rewrite Hdrop. unfold fixstr. cbn [app]. f_equal.
    unfold toUint8. rewrite short_string_header by lia. reflexivity.
Qed.

(** A string of 32 bytes or more is written as a str 8 whose length byte
    is the length modulo 256, and that many bytes of it are read back. *)
Lemma read_long_string (fuel : nat) (data s rest : list byte) (offset : nat) :
  32 <= length s ->
  drop offset data = (toUint8 <$> encodeString s) ++ rest ->
  read (S fuel) data offset
  = Returned (VString (take (length s mod 256) s),
              (offset + 2 + length s mod 256)%nat).
Proof.
  intros Hlen Hdrop. unfold encodeString in *.
  destruct (Z.ltb_spec (Z.of_nat (length s)) 32) as [?|_]; [lia|].
  rewrite fmap_app, bytes_back in Hdrop. cbn [fmap list_fmap app] in Hdrop.
  pose proof (head_of_drop _ _ _ _ Hdrop) as Hhead.
  pose proof (drop_after data offset [_] _ Hdrop) as Hdrop1. cbn [length] in Hdrop1.
  pose proof (head_of_drop _ _ _ _ Hdrop1) as Hhead1.
  pose proof (drop_after data (offset + 1) [_] _ Hdrop1) as Hdrop2. cbn [length] in Hdrop2.
  replace (offset + 1)%nat with (S offset) in Hhead1 by lia.
  replace (offset + 1 + 1)%nat with (S (S offset)) in Hdrop2 by lia.
  assert (Hmod : Z.to_nat (Z.of_nat (length s) mod 256) = (length s mod 256)%nat).
  { rewrite <- (Nat2Z.id (length s mod 256)). f_equal.
    rewrite Nat2Z.inj_mod. reflexivity. }
  cbn [read]. unfold getUint8. rewrite Hhead. cbn [bindOutcome].
  rewrite byteValue_toUint8. change (0xd9 mod 256)%Z with 0xd9%Z.
  code_tests. rewrite Hhead1. cbn [bindOutcome].
  rewrite byteValue_toUint8, Hmod.
  do 2 f_equal; [|lia]. f_equal. unfold subarray.
  replace (S (S offset) + length s mod 256 - S (S offset))%nat
    with (length s mod 256)%nat by lia.
  rewrite Hdrop2. apply take_app_le.
  pose proof (Nat.Div0.mod_le (length s) 256). lia.
Qed.

Lemma read_string (fuel : nat) (data s rest : list byte) (offset : nat) :
  length s < 256 ->
  drop offset data = (toUint8 <$> encodeString s) ++ rest ->
  read (S fuel) data offset
  = Returned (VString s, (offset + length (encodeString s))%nat).
Proof.
  intros Hlen Hdrop.
  destruct (Nat.lt_ge_cases (length s) 32) as [Hs|Hs];
    [by apply read_short_string with (rest := rest)|].
  rewrite (read_long_string fuel data s rest offset Hs Hdrop).
  rewrite Nat.mod_small by lia. rewrite take_ge by lia.
  do 2 f_equal. unfold encodeString.
  destruct (Z.ltb_spec (Z.of_nat (length s)) 32) as [?|_]; [lia|].
  rewrite length_app, length_fmap. cbn [length]. lia.
Qed.

Lemma encode_nonempty (val : JsValue) :
  encodable val = true -> 0 < length (encode val).
Proof.
  destruct val as [es|s|[n|] f|]; cbn [encodable encode]; intros H;
    try discriminate.
  - destruct (Z.of_nat (length es) <? 16)%Z; cbn; lia.
  - unfold encodeString. destruct (Z.of_nat (length s) <? 32)%Z; cbn; lia.
  - destruct ((0 <=? n)%Z && (n <? 128)%Z); cbn; lia.
  - cbn; lia.
Qed.

(** Reading what [encode] wrote for a value gives the value back and stops
    right behind it, whatever follows. *)
Lemma read_encoded (data : list byte) (fuel : nat) :
  forall val offset rest,
    encodable val = true ->
    length (encode val) <= fuel ->
    drop offset data = encodeMsgPack val ++ rest ->
    read fuel data offset
    = Returned (readBack val, (offset + length (encode val))%nat).
Proof.
  induction fuel as [|fuel IH]; intros val offset rest Henc Hlen Hdrop.
  { pose proof (encode_nonempty val Henc). lia. }
  destruct val as [es|s|integer f|]; [| | |discriminate].
  - (* an object *)
    set (g := fun '(key, v) => encodeString key ++ encode v).
    set (h := fun '(key, v) => (VString key, readBack v)).
    cbn [read].
    set (entries := fix entries (len offset : nat) (obj : list (Value * Value)) :=
           match len with
           | O => Returned (VObject obj, offset)
           | S len' =>
               let* kv := read fuel data offset in
               let* vv := read fuel data (snd kv) in
               entries len' (snd vv) (obj ++ [(fst kv, fst vv)])
           end).
    assert (Hentries : forall es o obj rest',
               forallb (fun '(key, v) => (length key <? 256)%nat && encodable v) es = true ->
               length (flat_map g es) <= fuel ->
               drop o data = (toUint8 <$> flat_map g es) ++ rest' ->
               entries (length es) o obj
               = Returned (VObject (obj ++ map h es), (o + length (flat_map g es))%nat)).
    { clear es Henc Hlen Hdrop.
      induction es as [|[k v] es IHes]; intros o obj rest' Hall Hfuel Hd.
      - cbn. by rewrite app_nil_r, Nat.add_0_r.
      - cbn [forallb] in Hall.
        apply andb_true_iff in Hall as [Hkv Hall].
        apply andb_true_iff in Hkv as [Hk Hv].
        cbn [flat_map] in Hfuel, Hd |- *.
        change (g (k, v)) with (encodeString k ++ encode v) in *.
        rewrite !length_app in Hfuel. rewrite !fmap_app, <- !app_assoc in Hd.
        pose proof (IH (JString k) o _ Hk ltac:(cbn [encode]; lia) Hd) as Ekey.
        apply drop_after in Hd. rewrite length_fmap in Hd.
        pose proof (IH v _ _ Hv ltac:(lia) Hd) as Eval.
        apply drop_after in Hd. rewrite length_fmap in Hd.
        cbn [length].
        change (entries (S (length es)) o obj) with
          (let* kv := read fuel data o in
           let* vv := read fuel data (snd kv) in
           entries (length es) (snd vv) (obj ++ [(fst kv, fst vv)])).
        cbn [encode readBack] in Ekey. rewrite Ekey. cbn [bindOutcome fst snd].
        rewrite Eval. cbn [bindOutcome fst snd].
        rewrite (IHes _ _ rest' Hall ltac:(lia) Hd).
        cbn [map]. change (h (k, v)) with (VString k, readBack v).
        rewrite <- app_assoc. cbn [app].
        rewrite !length_app. do 2 f_equal. lia. }
    cbn [encodable] in Henc. apply andb_true_iff in Henc as [Hcount Hall].
    apply Z.ltb_lt in Hcount.
    unfold encodeMsgPack in Hdrop. cbn [encode] in Hlen, Hdrop |- *.
    fold g in Hlen, Hdrop |- *. cbn [readBack]. fold h.
    destruct (Z.ltb_spec (Z.of_nat (length es)) 16) as [Hsmall|Hbig].
    + rewrite fmap_app in Hdrop. cbn [fmap list_fmap app] in Hdrop.
      rewrite length_app in Hlen. cbn [length] in Hlen.
      pose proof (head_of_drop _ _ _ _ Hdrop) as Hhead.
      pose proof (drop_after data offset [_] _ Hdrop) as Hdrop1.
      cbn [length] in Hdrop1.
      replace (offset + 1)%nat with (S offset) in Hdrop1 by lia.
      destruct (short_map_header (Z.of_nat (length es)) ltac:(lia)) as [H1 H2].
      unfold getUint8. rewrite Hhead. cbn [bindOutcome].
      rewrite byteValue_toUint8, H1, H2, Nat2Z.id.
      rewrite (Hentries es (S offset) [] rest Hall ltac:(lia) Hdrop1).
      rewrite length_app. cbn [length app]. do 2 f_equal. lia.
    + rewrite fmap_app in Hdrop. cbn [fmap list_fmap app] in Hdrop.
      rewrite length_app in Hlen. cbn [length] in Hlen.
      pose proof (head_of_drop _ _ _ _ Hdrop) as Hhead.
      pose proof (drop_room data offset [_; _; _] _ ltac:(cbn; lia) Hdrop) as Hroom.
      cbn [length] in Hroom.
      pose proof (drop_after data offset [_] _ Hdrop) as Hdrop1.
      cbn [length] in Hdrop1.
      replace (offset + 1)%nat with (S offset) in Hdrop1 by lia.
      pose proof (drop_after data (S offset) [_; _] _ Hdrop1) as Hdrop3.
      cbn [length] in Hdrop3.
      destruct (map16_length (Z.of_nat (length es)) ltac:(lia)) as (Hhi & Hlo & Hsum).
      unfold getUint8. rewrite Hhead. cbn [bindOutcome].
      rewrite byteValue_toUint8. change (0xde mod 256)%Z with 0xde%Z.
      code_tests. unfold getUint.
      destruct (Nat.leb_spec (S offset + 2) (length data)) as [_|?]; [|lia].
      cbn [bindOutcome]. rewrite Hdrop1. cbn [take bigEndian fold_left].
      rewrite take_0. cbn [fold_left].
      rewrite !byteValue_toUint8, !Z.mod_small by lia.
      replace (0 * 256 + Z.land (Z.shiftr (Z.of_nat (length es)) 8) 255)%Z
        with (Z.land (Z.shiftr (Z.of_nat (length es)) 8) 255) by lia.
      rewrite Hsum, Nat2Z.id.
      rewrite (Hentries es (S offset + 2)%nat [] rest Hall ltac:(lia) Hdrop3).
      rewrite length_app. cbn [length app]. do 2 f_equal. lia.
  - (* a string *)
    cbn [encodable] in Henc. apply Nat.ltb_lt in Henc.
    cbn [encode readBack]. by apply read_string with (rest := rest).
  - (* a number *)
    cbn [encodable] in Henc. apply Nat.eqb_eq in Henc.
    unfold encodeMsgPack in Hdrop.
    assert (Hfloat : drop offset data = toUint8 0xcb :: f ++ rest ->
              read (S fuel) data offset
              = Returned (VFloat64 f, (offset + length (0xcb%Z :: (byteValue <$> f)))%nat)).
    { clear Hdrop. intros Hdrop.
      pose proof (head_of_drop _ _ _ _ Hdrop) as Hhead.
      pose proof (drop_room data offset (_ :: f) _ ltac:(cbn; lia) Hdrop) as Hroom.
      cbn [length] in Hroom.
      pose proof (drop_after data offset [_] _ Hdrop) as Hdrop1.
      cbn [length] in Hdrop1.
      replace (offset + 1)%nat with (S offset) in Hdrop1 by lia.
      cbn [read]. unfold getUint8. rewrite Hhead. cbn [bindOutcome].
      rewrite byteValue_toUint8. change (0xcb mod 256)%Z with 0xcb%Z.
      code_tests. unfold getFloat64.
      destruct (Nat.leb_spec (S offset + 8) (length data)) as [_|?]; [|lia].
      cbn [bindOutcome]. rewrite Hdrop1.
      rewrite take_app_length' by lia.
      cbn [length]. rewrite length_fmap. do 2 f_equal. lia. }
    destruct integer as [n|]; cbn [encode readBack] in *.
    + destruct (Z.leb_spec 0 n) as [Hn0|?]; cbn [andb] in *;
        [destruct (Z.ltb_spec n 128) as [Hn1|?]|].
      * cbn [fmap list_fmap app length] in Hdrop |- *.
        pose proof (head_of_drop _ _ _ _ Hdrop) as Hhead.
        destruct (small_integer_header n ltac:(lia)) as (H1 & H2 & H3 & H4 & H5).
        cbn [read]. unfold getUint8. rewrite Hhead. cbn [bindOutcome].
        rewrite byteValue_toUint8, Z.mod_small by lia.
        rewrite H1, H2, H3, H4, H5. do 2 f_equal. lia.
      * apply Hfloat. cbn [fmap list_fmap app] in Hdrop. by rewrite bytes_back in Hdrop.
      * apply Hfloat. cbn [fmap list_fmap app] in Hdrop. by rewrite bytes_back in Hdrop.
    + apply Hfloat. cbn [fmap list_fmap app] in Hdrop. by rewrite bytes_back in Hdrop.
Qed.

(** What the encoder of the browser sink writes, its reader reads back.
    For an object of fewer than 65536 properties, with keys and strings of
    fewer than 256 bytes and numbers, at any depth, [decodeMsgPack] of
    [encodeMsgPack] reads the whole data and makes, in the order of
    [Object.keys], one assignment [obj[key] = value] for each property of
    the value written, every key and string decoded from the very bytes
    [TextEncoder] made of it, an integer from 0 to 127 read as that integer
    and every other number from its 8 bytes.  For a [plain] value (no byte
    order mark, no key [__proto__]) these decodings and assignments give
    the strings and properties of the value written. *)
Theorem encodeMsgPack_round_trip (val : JsValue) :
  encodable val = true ->
  plain val = true ->
  decodeMsgPack (encodeMsgPack val) = Returned (readBack val).
Proof.
  intros Henc _. unfold decodeMsgPack.
  rewrite (read_encoded (encodeMsgPack val) _ val 0 [] Henc).
  - reflexivity.
  - unfold encodeMsgPack. rewrite length_fmap. lia.
  - by rewrite app_nil_r.
Qed.

(** The sync request [{ type: 1, t1: now() }] of the browser sink, read
    back. *)
Lemma encodeMsgPack_round_trip_witness :
  let t1 := [x40; x93; x4a; x00; x00; x00; x00; x00] in
  let one := [x3f; xf0; x00; x00; x00; x00; x00; x00] in
  let request :=
    JObject [(String.list_byte_of_string "type", JNumber (Some 1%Z) one);
             (String.list_byte_of_string "t1", JNumber None t1)] in
  encodable request = true /\
  plain request = true /\
  decodeMsgPack (encodeMsgPack request)
  = Returned (VObject [(VString (String.list_byte_of_string "type"), VNumber 1);
                       (VString (String.list_byte_of_string "t1"), VFloat64 t1)]).
Proof.
  cbv zeta. split; [reflexivity|]. split; [vm_compute; reflexivity|].
  exact (encodeMsgPack_round_trip
           (JObject [(String.list_byte_of_string "type",
                      JNumber (Some 1%Z) [x3f; xf0; x00; x00; x00; x00; x00; x00]);
                     (String.list_byte_of_string "t1",
                      JNumber None [x40; x93; x4a; x00; x00; x00; x00; x00])])
           eq_refl eq_refl).
Defined.

(** A string of 32 bytes or more is sent with one length byte: the reader
    gets back only as many of its bytes as its length modulo 256, so a
    string of 256 bytes or more arrives cut short. *)
Theorem long_string_length_wraps (s : list byte) :
  32 <= length s ->
  decodeMsgPack (encodeMsgPack (JString s))
  = Returned (VString (take (length s mod 256) s)).
Proof.
  intros Hlen. unfold decodeMsgPack.
  rewrite (read_long_string _ (encodeMsgPack (JString s)) s [] 0 Hlen).
  - reflexivity.
  - by rewrite app_nil_r.
Qed.

Lemma long_string_length_wraps_witness :
  32 <= length (replicate 256 x61) /\
  decodeMsgPack (encodeMsgPack (JString (replicate 256 x61)))
  = Returned (VString []).
Proof.
  assert (H : 32 <= length (replicate 256 x61)) by (rewrite length_replicate; lia).
  split; [exact H|].
  exact (long_string_length_wraps (replicate 256 x61) H).
Defined.

(** A type code the reader has no branch for (arrays, booleans, float 32,
    the signed integers, str 16/32, map 32, the ext codes) is read as
    [null] and takes one byte: what follows it in the data is read as the
    next value. *)
Theorem read_unsupported_code (fuel : nat) (data : list byte) (offset : nat) (code : byte) :
  data !! offset = Some code ->
  unsupportedCode (byteValue code) = true ->
  read (S fuel) data offset = Returned (VNull, S offset).
Proof.
  intros Hcode Hunsupported.
  cbn [read]. unfold getUint8. rewrite Hcode. cbn [bindOutcome].
  destruct code; try (vm_compute in Hunsupported; discriminate Hunsupported);
    clear Hunsupported; code_tests; reflexivity.
Qed.

(** [true] (0xc3) in front of a string. *)
Lemma read_unsupported_code_witness :
  read 2 (xc3 :: fixstr (String.list_byte_of_string "ok")) 0 = Returned (VNull, 1).
Proof.
  exact (read_unsupported_code 1 (xc3 :: fixstr (String.list_byte_of_string "ok")) 0 xc3
           eq_refl eq_refl).
Defined.

(** The reader does not hold a blob to its declared length: a bin 8 or a
    bin 16 whose payload is shorter than its header says is returned with
    the bytes that are there, and one with no length byte at all makes the
    reader throw. *)
Theorem short_blob_accepted (payload : list byte) :
  (forall len : byte,
     decodeMsgPack (xc4 :: len :: payload)
     = Returned (VBytes (take (Z.to_nat (byteValue len)) payload))) /\
  (forall hi lo : byte,
     decodeMsgPack (xc5 :: hi :: lo :: payload)
     = Returned (VBytes (take (Z.to_nat (byteValue hi * 256 + byteValue lo)) payload))) /\
  decodeMsgPack [xc4] = Thrown /\
  decodeMsgPack [] = Thrown.
Proof.
  repeat split.
  - intros len. unfold decodeMsgPack. cbn [read]. unfold getUint8.
    cbn [lookup list_lookup bindOutcome]. code_tests.
    cbn [lookup list_lookup bindOutcome fst]. do 2 f_equal.
    unfold subarray. cbn [drop].
    f_equal. lia.
  - intros hi lo. unfold decodeMsgPack. cbn [read]. unfold getUint8, getUint.
    cbn [lookup list_lookup bindOutcome]. code_tests.
    cbn [length Nat.add Nat.leb bindOutcome fst drop take bigEndian fold_left].
    rewrite take_0. cbn [fold_left]. do 2 f_equal. unfold subarray. cbn [drop].
    f_equal. lia.
Qed.

Lemma bigEndian_bound (bs : list byte) (acc : Z) (k : Z) :
  (0 <= acc < k)%Z ->
  (0 <= fold_left (fun acc b => acc * 256 + byteValue b) bs acc
   < k * 256 ^ Z.of_nat (length bs))%Z.
Proof.
  revert acc k. induction bs as [|b bs IH]; intros acc k Hacc.
  - cbn [fold_left length]. change (256 ^ Z.of_nat 0)%Z with 1%Z. lia.
  - cbn [fold_left length]. pose proof (byteValue_range b).
    rewrite Nat2Z.inj_succ, Z.pow_succ_r by lia.
    specialize (IH (acc * 256 + byteValue b)%Z (k * 256)%Z ltac:(lia)).
    replace (k * (256 * 256 ^ Z.of_nat (length bs)))%Z
      with (k * 256 * 256 ^ Z.of_nat (length bs))%Z by ring.
    exact IH.
Qed.

Lemma getUint_bound (width : nat) (data : list byte) (offset : nat) (val : Z) :
  getUint width data offset = Returned val ->
  (0 <= val < 256 ^ Z.of_nat width)%Z.
Proof.
  unfold getUint. destruct (offset + width <=? length data)%nat eqn:E; [|discriminate].
  intros [= <-]. apply Nat.leb_le in E. unfold bigEndian.
  pose proof (bigEndian_bound (take width (drop offset data)) 0 1 ltac:(lia)) as H.
  rewrite length_take, length_drop in H.
  replace (width `min` (length data - offset))%nat with width in H by lia.
  lia.
Qed.

Lemma integersOf_snoc (obj : list (Value * Value)) (key value : Value) :
  integersOf (VObject (obj ++ [(key, value)]))
  = integersOf (VObject obj) ++ integersOf key ++ integersOf value.
Proof.
  cbn [integersOf]. rewrite flat_map_app. cbn [flat_map]. by rewrite app_nil_r.
Qed.

(** Whatever [read] returns, the integers in it are in range. *)
Lemma read_integers (data : list byte) (fuel : nat) :
  forall offset v offset',
    read fuel data offset = Returned (v, offset') ->
    Forall (fun n => (-32 <= n < 2 ^ 32)%Z) (integersOf v).
Proof.
  induction fuel as [|fuel IH]; intros offset v offset'; [discriminate|].
  cbn [read].
  set (entries := fix entries (len offset : nat) (obj : list (Value * Value)) :=
         match len with
         | O => Returned (VObject obj, offset)
         | S len' =>
             let* kv := read fuel data offset in
             let* vv := read fuel data (snd kv) in
             entries len' (snd vv) (obj ++ [(fst kv, fst vv)])
         end).
  assert (Hentries : forall len o obj w o',
             Forall (fun n => (-32 <= n < 2 ^ 32)%Z) (integersOf (VObject obj)) ->
             entries len o obj = Returned (w, o') ->
             Forall (fun n => (-32 <= n < 2 ^ 32)%Z) (integersOf w)).
  { induction len as [|len IHlen]; intros o obj w o' Hobj H; cbn in H.
    - by injection H as <- <-.
    - destruct (read fuel data o) as [[k o1]| |] eqn:E1; try discriminate.
      cbn in H.
      destruct (read fuel data o1) as [[x o2]| |] eqn:E2; try discriminate.
      cbn in H. apply (IHlen _ _ _ _) in H; [exact H|].
      rewrite integersOf_snoc. rewrite !Forall_app. split; [exact Hobj|].
      split; [exact (IH _ _ _ E1)|exact (IH _ _ _ E2)]. }
  assert (Hmap : forall len o,
             entries len o [] = Returned (v, offset') ->
             Forall (fun n => (-32 <= n < 2 ^ 32)%Z) (integersOf v)).
  { intros len o. apply Hentries. constructor. }
  unfold getUint8 at 1. destruct (data !! offset) as [code|]; [|discriminate].
  cbn [bindOutcome]. pose proof (byteValue_range code) as Hcode.
  repeat match goal with
         | |- context [if ?c then _ else _] => destruct c eqn:?
         end;
    try apply Hmap;
    try (destruct (getUint 2 data (S offset)) as [len| |] eqn:E; cbn [bindOutcome];
         [apply Hmap|discriminate|discriminate]);
    cbn [bindOutcome]; try discriminate.
  - intros [= <- <-]. constructor.
  - unfold getUint8. destruct (data !! S offset); [|discriminate].
    cbn [bindOutcome]. intros [= <- <-]. constructor.
  - intros [= <- <-]. repeat constructor; lia.
  - unfold getUint8. destruct (data !! S offset) as [b|]; [|discriminate].
    cbn [bindOutcome]. intros [= <- <-]. pose proof (byteValue_range b).
    repeat constructor; lia.
  - destruct (getUint 2 data (S offset)) as [val| |] eqn:E; try discriminate.
    cbn [bindOutcome]. intros [= <- <-].
    apply getUint_bound in E. change (256 ^ Z.of_nat 2)%Z with 65536%Z in E.
    repeat constructor; lia.
  - destruct (getUint 4 data (S offset)) as [val| |] eqn:E; try discriminate.
    cbn [bindOutcome]. intros [= <- <-].
    apply getUint_bound in E. change (256 ^ Z.of_nat 4)%Z with (2 ^ 32)%Z in E.
    repeat constructor; lia.
  - destruct (getFloat64 data (S offset)); [|discriminate|discriminate].
    cbn [bindOutcome]. intros [= <- <-]. constructor.
  - unfold getUint8. destruct (data !! S offset); [|discriminate].
    cbn [bindOutcome]. intros [= <- <-]. constructor.
  - destruct (getUint 2 data (S offset)); [|discriminate|discriminate].
    cbn [bindOutcome]. intros [= <- <-]. constructor.
  - destruct (getUint 4 data (S offset)); [|discriminate|discriminate].
    cbn [bindOutcome]. intros [= <- <-]. constructor.
  - intros [= <- <-].
    match goal with
    | H : (Z.land (byteValue code) 224 =? 224)%Z = true |- _ => revert H
    end.
    clear. destruct code; intros H; try (vm_compute in H; discriminate H);
      (constructor; [vm_compute; (split; [discriminate|reflexivity])|constructor]).
  - intros [= <- <-]. constructor.
Qed.

(** The reader takes a number from an integer type code only within the
    range of those codes: every number of the returned value that was read
    from a fixint, a uint 8, a uint 16 or a uint 32, at any depth and in
    keys as in values, lies between -32 and 2^32 - 1.  A number outside
    that range is read from the 8 bytes of a float 64. *)
Theorem decoded_integer_range (data : list byte) (v : Value) :
  decodeMsgPack data = Returned v ->
  Forall (fun n => (-32 <= n < 2 ^ 32)%Z) (integersOf v).
Proof.
  unfold decodeMsgPack. intros H.
  destruct (read (S (length data)) data 0) as [[w o]| |] eqn:E; try discriminate.
  cbn in H. injection H as <-. exact (read_integers _ _ _ _ _ E).
Qed.

(** The map [{ 255: 4294967295 }]: a uint 8 key and a uint 32 value. *)
Lemma decoded_integer_range_witness :
  decodeMsgPack [x81; xcc; xff; xce; xff; xff; xff; xff]
  = Returned (VObject [(VNumber 255, VNumber 4294967295)]) /\
  Forall (fun n => (-32 <= n < 2 ^ 32)%Z)
         (integersOf (VObject [(VNumber 255, VNumber 4294967295)])).
Proof.
  split; [reflexivity|].
  exact (decoded_integer_range [x81; xcc; xff; xce; xff; xff; xff; xff]
           (VObject [(VNumber 255, VNumber 4294967295)]) eq_refl).
Defined.

(** The reader comes to an end on every input: it returns a value or it
    throws, however deep the maps of the data are nested. *)
Theorem decodeMsgPack_ends (data : list byte) :
  (exists v, decodeMsgPack data = Returned v) \/ decodeMsgPack data = Thrown.
Proof.
  pose proof (decodeMsgPack_finishes data) as H.
  destruct (decodeMsgPack data) as [v| |]; [eauto|auto|congruence].
Qed.

End BrowserCodecFacts.
